(** * py-radix: the Python binding of the radix (PATRICIA) tree of prefixes

    A shallow embedding of [radix_python.c].  The binding is modelled
    function by function: [Radix_add], [Radix_delete], [Radix_search_exact],
    [Radix_search_best], [Radix_nodes], [Radix_prefixes], [Radix_dealloc],
    the iterator [newRadixIterObject] / [RadixIter_iternext] /
    [RadixIter_dealloc] and the handle constructor [newRadixNodeObject].
    [args_to_prefix] is modelled on its own, and each method from the point
    where it has returned a prefix; the methods with their arguments
    ([Radix_add_kw] and the like, [radix_Radix], [Radix_nodes_args],
    [Radix_prefixes_args]) put the two together.  A failed allocation is
    not modelled.

    The engine they call ([radix_lookup], [radix_search_exact],
    [radix_search_best], [radix_remove], the prefix type and the walking
    macro of radix.c / radix.h) is not among the sources; it is modelled from
    the specification, and every such definition says so.

    Pointers are modelled as follows.  Radix nodes form a functional binary
    tree; a pointer to a node of the tree is the path that the bits of the
    node's prefix select.  Python objects that are shared with the caller
    (the [RadixNodeObject] handles) live in a store indexed by location, with
    their reference counts.  The methods pass the state along: the tree
    object and the store. *)

From stdpp Require Import gmap strings list fin_maps pretty.
From Stdlib Require Import ZArith Lia.

Open Scope Z_scope.

Set Warnings "-clear-no-such-hyp".

(** ** Prefixes *)

(** Address families, with the values of the C constants on Linux. *)
Inductive family_t := AF_INET | AF_INET6.

Global Instance family_t_eq_dec : EqDecision family_t.
Proof. solve_decision. Defined.

Definition family_code (f : family_t) : Z :=
  match f with AF_INET => 2 | AF_INET6 => 10 end.

(** Width of an address of the family, in bits and in bytes. *)
Definition family_maxbits (f : family_t) : nat :=
  match f with AF_INET => 32%nat | AF_INET6 => 128%nat end.

Definition family_bytes (f : family_t) : nat :=
  match f with AF_INET => 4%nat | AF_INET6 => 16%nat end.

(** Modelled from the spec: the macro [RADIX_MAXBITS] of radix.h, the largest
    address bit width (section 4.7: the iterator's stack has capacity
    "max bit width + 1"). *)
Definition RADIX_MAXBITS : nat := 128%nat.

(** Modelled from the spec: the struct [prefix_t] of radix.h (section 3):
    a family, the raw address bytes (4 or 16 of them) and a bit length. *)
Record prefix_t := Prefix {
  family : family_t;
  bitlen : nat;
  add : list Z
}.

Global Instance prefix_t_eq_dec : EqDecision prefix_t.
Proof. solve_decision. Defined.

(** Modelled from the spec: the bit test of the walk.  Bit [i] of an address
    is bit [7 - i mod 8] of its byte [i / 8]: bits are numbered from the most
    significant bit of the first byte. *)
Definition bit_test (addr : list Z) (i : nat) : bool :=
  Z.testbit (nth (i / 8) addr 0) (7 - Z.of_nat (i mod 8)).

(** Modelled from the spec: [comp_with_mask] of radix.c, "the significant
    bits match" (section 3): the first [n] bits of the two addresses agree. *)
Definition comp_with_mask (a b : list Z) (n : nat) : bool :=
  forallb (fun i => eqb (bit_test a i) (bit_test b i)) (seq 0 n).

(** Modelled from the spec (section 3): "two prefixes are equal iff family,
    bitlen, and the significant bits match". *)
Definition prefix_equal (s q : prefix_t) : bool :=
  bool_decide (family s = family q) && (bitlen s =? bitlen q)%nat
  && comp_with_mask (add s) (add q) (bitlen s).


(** Modelled from the spec (sections 3 and 4.1): what [prefix_pton] and
    [prefix_from_blob] produce: a bit length within the family's width, an
    address of the family's size made of bytes, and, the prefix being
    canonical, no bit set after the significant ones. *)
Definition prefix_valid (p : prefix_t) : bool :=
  (bitlen p <=? family_maxbits (family p))%nat
  && (length (add p) =? family_bytes (family p))%nat
  && forallb (fun b => (0 <=? b) && (b <? 256)) (add p)
  && forallb (fun i => negb (bit_test (add p) i))
       (seq (bitlen p) (family_maxbits (family p) - bitlen p)).

(** ** Radix nodes *)

(** Locations of the Python objects of the store. *)
Definition loc := nat.

(** Modelled from the spec: the struct [radix_node_t] of radix.h (section 3):
    the bit tested at the node, the prefix (absent in a glue node), the two
    children and the [data] pointer, in which the binding stores the handle.
    The binding reads [prefix], [data], [l] and [r]. *)
Inductive radix_node_t :=
| NULL
| Node (bit : nat) (prefix : option prefix_t) (data : option loc)
       (l r : radix_node_t).

Definition node_prefix (n : radix_node_t) : option prefix_t :=
  match n with NULL => None | Node _ pre _ _ _ => pre end.

Definition node_data (n : radix_node_t) : option loc :=
  match n with NULL => None | Node _ _ d _ _ => d end.

(** Modelled from the spec: the struct [radix_tree_t] of radix.h: the root
    and the number of stored prefixes ([count], section 3). *)
Record radix_tree_t := RadixTree {
  head : radix_node_t;
  count : Z
}.

(** Modelled from the spec: [New_Radix]. *)
Definition New_Radix : radix_tree_t := RadixTree NULL 0.

(** The prefixes of a subtree and the data nodes (prefix and [data]
    pointer), in the order of the walk: node, left subtree, right subtree. *)
Fixpoint prefixes (n : radix_node_t) : list prefix_t :=
  match n with
  | NULL => []
  | Node _ pre _ l r =>
      match pre with Some s => [s] | None => [] end ++ prefixes l ++ prefixes r
  end.

Fixpoint data_nodes (n : radix_node_t) : list (prefix_t * option loc) :=
  match n with
  | NULL => []
  | Node _ pre d l r =>
      match pre with Some s => [(s, d)] | None => [] end
      ++ data_nodes l ++ data_nodes r
  end.

(** ** The engine *)

(** Some prefix of the subtree: the node's own, else one of a child's. *)
Fixpoint first_prefix (n : radix_node_t) : option prefix_t :=
  match n with
  | NULL => None
  | Node _ pre _ l r =>
      match pre with
      | Some s => Some s
      | None => match first_prefix l with
                | Some s => Some s
                | None => first_prefix r
                end
      end
  end.

(** The first of the bits [i], [i+1], ..., [i+n-1] at which the addresses
    differ, and [i + n] when they agree on all of them. *)
Fixpoint differ_from (a b : list Z) (i n : nat) : nat :=
  match n with
  | O => i
  | S n' => if eqb (bit_test a i) (bit_test b i)
            then differ_from a b (S i) n' else i
  end.

Definition differ_bit (a b : list Z) (m : nat) : nat := differ_from a b 0 m.

Definition new_node (p : prefix_t) : radix_node_t :=
  Node (bitlen p) (Some p) None NULL NULL.

(** Modelled from the spec: the walk of [radix_lookup] (section 4.2).  From
    the root, the bits of [p] are compared with the prefixes below the node,
    up to the node's test position.
    - If they differ at a bit before the test position and before the end of
      [p], this is a divergence in the middle of a path: a glue node testing
      the bit of difference gets the new data node and the old subtree.
    - Otherwise, if [p] is shorter than the test position, the new data node
      is put above the node.
    - If [p] ends at the test position, the node is the node of [p]: an
      existing data node is returned as it is, a glue node receives [p].
    - Otherwise the walk goes on in the child that the tested bit selects,
      and an absent child is replaced by the new data node.
    The result is the new subtree, the node of [p], and whether a data node
    was created. *)
Fixpoint lookup_walk (p : prefix_t) (n : radix_node_t)
  : radix_node_t * radix_node_t * bool :=
  match n with
  | NULL => (new_node p, new_node p, true)
  | Node b pre d l r =>
      let m := (b `min` bitlen p)%nat in
      let db := match first_prefix n with
                | Some s => differ_bit (add p) (add s) m
                | None => m
                end in
      if (db <? m)%nat then
        let glue := if bit_test (add p) db
                    then Node db None None n (new_node p)
                    else Node db None None (new_node p) n in
        (glue, new_node p, true)
      else if (bitlen p <? b)%nat then
        let side := match first_prefix n with
                    | Some s => bit_test (add s) (bitlen p)
                    | None => false
                    end in
        let nn := if side
                  then Node (bitlen p) (Some p) None NULL n
                  else Node (bitlen p) (Some p) None n NULL in
        (nn, nn, true)
      else if (bitlen p =? b)%nat then
        match pre with
        | Some _ => (n, n, false)
        | None => let nn := Node b (Some p) d l r in (nn, nn, true)
        end
      else if bit_test (add p) b then
        let '(r', node, created) := lookup_walk p r in
        (Node b pre d l r', node, created)
      else
        let '(l', node, created) := lookup_walk p l in
        (Node b pre d l' r, node, created)
  end.

(** Modelled from the spec: [radix_lookup] (section 4.2): the node of the
    prefix, created when absent; [count] grows with each new data node. *)
Definition radix_lookup (rt : radix_tree_t) (p : prefix_t)
  : radix_tree_t * radix_node_t :=
  let '(h, node, created) := lookup_walk p (head rt) in
  (RadixTree h (if created then count rt + 1 else count rt), node).

(** Modelled from the spec: the walk of [radix_search_exact] (section 4.4):
    "walks by bit comparison; matches only a data node whose stored prefix
    equals the query exactly in family, bitlen, and significant bits". *)
Fixpoint search_exact_walk (q : prefix_t) (n : radix_node_t)
  : option radix_node_t :=
  match n with
  | NULL => None
  | Node b pre d l r =>
      if (b <? bitlen q)%nat then
        if bit_test (add q) b then search_exact_walk q r
        else search_exact_walk q l
      else
        match pre with
        | Some s => if prefix_equal s q then Some n else None
        | None => None
        end
  end.

Definition radix_search_exact (rt : radix_tree_t) (q : prefix_t)
  : option radix_node_t :=
  search_exact_walk q (head rt).

(** Modelled from the spec: the walk of [radix_search_best] (section 4.5):
    along the bit path of the query, remember the last data node passed
    "whose stored prefix's significant bits are a genuine prefix of the
    query's address", until the path is exhausted (no child, or no further
    bit of the query to test).  The section names no comparison of
    families, and the walk makes none. *)
Fixpoint search_best_walk (q : prefix_t) (n : radix_node_t)
    (best : option radix_node_t) : option radix_node_t :=
  match n with
  | NULL => best
  | Node b pre d l r =>
      let best' := match pre with
                   | Some s =>
                       if comp_with_mask (add s) (add q) (bitlen s)
                       then Some n else best
                   | None => best
                   end in
      if (b <? bitlen q)%nat then
        if bit_test (add q) b then search_best_walk q r best'
        else search_best_walk q l best'
      else best'
  end.

Definition radix_search_best (rt : radix_tree_t) (q : prefix_t)
  : option radix_node_t :=
  search_best_walk q (head rt) None.

(** Modelled from the spec: compaction (section 4.3): a glue node left with
    one child is replaced by that child. *)
Definition compact (b : nat) (pre : option prefix_t) (d : option loc)
    (l r : radix_node_t) : radix_node_t :=
  match pre, l, r with
  | None, NULL, c => c
  | None, c, NULL => c
  | _, _, _ => Node b pre d l r
  end.

(** Modelled from the spec: the walk of [radix_remove] (section 4.3) to the
    node of the prefix [q].  A node with two children stays as a glue node,
    without prefix and data; a node with one child is replaced by the child;
    a leaf disappears, and its parent is compacted. *)
Fixpoint remove_walk (q : prefix_t) (n : radix_node_t) : radix_node_t :=
  match n with
  | NULL => NULL
  | Node b pre d l r =>
      if (b <? bitlen q)%nat then
        if bit_test (add q) b then compact b pre d l (remove_walk q r)
        else compact b pre d (remove_walk q l) r
      else
        match l, r with
        | NULL, c => c
        | c, NULL => c
        | _, _ => Node b None None l r
        end
  end.

(** Modelled from the spec: [radix_remove] (section 4.3), given the node
    that the exact search found; [count] is decremented. *)
Definition radix_remove (rt : radix_tree_t) (node : radix_node_t)
  : radix_tree_t :=
  match node_prefix node with
  | Some s => RadixTree (remove_walk s (head rt)) (count rt - 1)
  | None => rt
  end.

(** The store [node->data = h] through the pointer [node], the node of the
    prefix [p]. *)
Fixpoint set_data (p : prefix_t) (h : loc) (n : radix_node_t) : radix_node_t :=
  match n with
  | NULL => NULL
  | Node b pre d l r =>
      if (b <? bitlen p)%nat then
        if bit_test (add p) b then Node b pre d l (set_data p h r)
        else Node b pre d (set_data p h l) r
      else Node b pre (Some h) l r
  end.

(** Modelled from the spec: the walk of the macro [RADIX_WALK] of radix.h
    (section 4.6): every node with a prefix, in the order node, left
    subtree, right subtree. *)
Definition RADIX_WALK (n : radix_node_t) : list (prefix_t * option loc) :=
  data_nodes n.

(** ** Python objects *)

(** Values that a caller stores in the [data] dictionary of a handle. *)
Inductive PyObject := PyNone | PyInt (z : Z) | PyString (s : string).

Inductive exception :=
| TypeError | ValueError | MemoryError | KeyError | RuntimeWarning
| SystemError.

(** The outcome of a method: a value, or NULL with an exception set. *)
Inductive result (A : Type) :=
| Return (a : A)
| Raise (e : exception).
Arguments Return {A} a.
Arguments Raise {A} e.

(** [RadixNodeObject], the handle of a data node.  [obj_rn] is the pointer to
    the radix node, that is the prefix whose path leads to it. *)
Record RadixNodeObject := RadixNode {
  obj_refcnt : Z;
  user_attr : gmap string PyObject;
  network : string;
  obj_prefix : string;
  prefixlen : Z;
  obj_family : Z;
  packed : list Z;
  obj_rn : option prefix_t
}.

(** [RadixObject], the tree object: [tree_family] is the C field [family],
    -1 while no prefix was added; [gen_id] is an [unsigned int]. *)
Record RadixObject := Radix {
  ob_refcnt : Z;
  rt : radix_tree_t;
  tree_family : Z;
  gen_id : Z
}.

(** The state that the methods of one tree work on: the tree object and the
    store of the handles. *)
Record world := World {
  self : RadixObject;
  heap : gmap loc RadixNodeObject
}.

(** [gen_id++] on an [unsigned int]. *)
Definition gen_id_incr (g : Z) : Z := (g + 1) mod 2 ^ 32.

Definition set_rt (o : RadixObject) (t : radix_tree_t) : RadixObject :=
  Radix (ob_refcnt o) t (tree_family o) (gen_id o).

Definition set_family (o : RadixObject) (f : Z) : RadixObject :=
  Radix (ob_refcnt o) (rt o) f (gen_id o).

Definition bump_gen_id (o : RadixObject) : RadixObject :=
  Radix (ob_refcnt o) (rt o) (tree_family o) (gen_id_incr (gen_id o)).

Definition set_refcnt (o : RadixObject) (c : Z) : RadixObject :=
  Radix c (rt o) (tree_family o) (gen_id o).

Definition obj_set_refcnt (o : RadixNodeObject) (c : Z) : RadixNodeObject :=
  RadixNode c (user_attr o) (network o) (obj_prefix o) (prefixlen o)
    (obj_family o) (packed o) (obj_rn o).

Definition obj_set_rn (o : RadixNodeObject) (p : option prefix_t)
  : RadixNodeObject :=
  RadixNode (obj_refcnt o) (user_attr o) (network o) (obj_prefix o)
    (prefixlen o) (obj_family o) (packed o) p.

Definition obj_set_attr (o : RadixNodeObject) (a : gmap string PyObject)
  : RadixNodeObject :=
  RadixNode (obj_refcnt o) a (network o) (obj_prefix o) (prefixlen o)
    (obj_family o) (packed o) (obj_rn o).

(** [Py_INCREF] and [Py_DECREF] on a handle; the object whose count reaches
    zero is deallocated ([RadixNode_dealloc]). *)
Definition Py_INCREF (h : loc) (hp : gmap loc RadixNodeObject)
  : gmap loc RadixNodeObject :=
  match hp !! h with
  | Some o => <[h := obj_set_refcnt o (obj_refcnt o + 1)]> hp
  | None => hp
  end.

Definition Py_DECREF (h : loc) (hp : gmap loc RadixNodeObject)
  : gmap loc RadixNodeObject :=
  match hp !! h with
  | Some o => if obj_refcnt o - 1 =? 0 then delete h hp
              else <[h := obj_set_refcnt o (obj_refcnt o - 1)]> hp
  | None => hp
  end.

(** The write [node_obj->rn = NULL]. *)
Definition clear_rn (h : loc) (hp : gmap loc RadixNodeObject)
  : gmap loc RadixNodeObject :=
  match hp !! h with
  | Some o => <[h := obj_set_rn o None]> hp
  | None => hp
  end.

(** The caller's access to the dictionary behind the member ["data"] of a
    handle: [h.data[k] = v] and [h.data[k]]. *)
Definition data_setitem (h : loc) (k : string) (v : PyObject) (w : world)
  : world :=
  match heap w !! h with
  | Some o => World (self w) (<[h := obj_set_attr o (<[k := v]> (user_attr o))]> (heap w))
  | None => w
  end.

Definition data_getitem (h : loc) (k : string) (w : world) : option PyObject :=
  match heap w !! h with
  | Some o => user_attr o !! k
  | None => None
  end.

(** [args_to_prefix]: exactly one of the two address forms is to be given;
    the address is then parsed.  Modelled from the spec: [prefix_pton] and
    [prefix_from_blob] of radix.c (section 4.1), the parsers of a text
    address and of a packed address with a mask length, which return NULL on
    a wrong format or length; they are parameters here. *)
Definition args_to_prefix
    (prefix_pton : string → Z → option prefix_t)
    (prefix_from_blob : list Z → Z → option prefix_t)
    (addr : option string) (packed : option (list Z)) (prefixlen : Z)
  : result prefix_t :=
  match addr, packed with
  | Some _, Some _ => Raise TypeError
  | None, None => Raise TypeError
  | Some a, _ =>
      match prefix_pton a prefixlen with
      | Some prefix => Return prefix
      | None => Raise ValueError
      end
  | None, Some blob =>
      match prefix_from_blob blob prefixlen with
      | Some prefix => Return prefix
      | None => Raise ValueError
      end
  end.

(** A text form of addresses for the examples: the bytes in decimal, with
    dots for IPv4 and colons for IPv6. *)
Definition example_ntop (f : family_t) (a : list Z) : string :=
  let sep := match f with AF_INET => "." | AF_INET6 => ":" end in
  match a with
  | [] => ""
  | x :: a => foldl (fun s y => s +:+ sep +:+ pretty y) (pretty x) a
  end.

(** Parsers for the examples, which know the one address 10.1.0.0/16 in
    its text form and in its packed form. *)
Definition example_pton (a : string) (len : Z) : option prefix_t :=
  if decide (a = "10.1.0.0" ∧ len = 16)
  then Some (Prefix AF_INET 16 [10; 1; 0; 0]) else None.

Definition example_from_blob (b : list Z) (len : Z) : option prefix_t :=
  if decide (b = [10; 1; 0; 0] ∧ len = 16)
  then Some (Prefix AF_INET 16 [10; 1; 0; 0]) else None.

Section Binding.

(** The text form of an address, [inet_ntop] of the C library. *)
Variable inet_ntop : family_t → list Z → string.

(** Modelled from the spec: [prefix_addr_ntop] and [prefix_ntop] of radix.c
    (section 6): the "address string without length suffix" and the "CIDR
    string". *)
Definition prefix_addr_ntop (p : prefix_t) : string :=
  inet_ntop (family p) (add p).

Definition prefix_ntop (p : prefix_t) : string :=
  prefix_addr_ntop p +:+ "/" +:+ pretty (bitlen p).

(** [newRadixNodeObject]: NULL when the node or its prefix is NULL (the
    check of the family holds for both values of [family_t]); else a new
    object with an empty dictionary and the node's identity. *)
Definition newRadixNodeObject (rn : radix_node_t) : option RadixNodeObject :=
  match node_prefix rn with
  | None => None
  | Some p =>
      Some {| obj_refcnt := 1;
              user_attr := ∅;
              network := prefix_addr_ntop p;
              obj_prefix := prefix_ntop p;
              prefixlen := Z.of_nat (bitlen p);
              obj_family := family_code (family p);
              packed := take (family_bytes (family p)) (add p);
              obj_rn := Some p |}
  end.

(** [newRadixObject]. *)
Definition newRadixObject : world :=
  World (Radix 1 New_Radix (-1) 0) ∅.

(** The store [node->data = node_obj]. *)
Definition assign_data (node : radix_node_t) (h : loc) (t : radix_tree_t)
  : radix_tree_t :=
  match node_prefix node with
  | Some s => RadixTree (set_data s h (head t)) (count t)
  | None => t
  end.

(** The family check of [Radix_add]: the tree object with which the call
    goes on (the first prefix sets the family of the tree), or [None] when
    the families differ. *)
Definition add_family (o : RadixObject) (p : prefix_t) : option RadixObject :=
  if tree_family o =? -1 then Some (set_family o (family_code (family p)))
  else if negb (family_code (family p) =? tree_family o) then None
  else Some o.

(** [Radix_add], from the prefix that [args_to_prefix] returned.  The new
    object is allocated at a location that is not in use.  When
    [newRadixNodeObject] returns NULL the method returns NULL with no
    exception set, which Python reports as a SystemError. *)
Definition Radix_add (w : world) (prefix : prefix_t) : result loc * world :=
  match add_family (self w) prefix with
  | None => (Raise ValueError, w)
  | Some self1 =>
      let '(t, node) := radix_lookup (rt self1) prefix in
      match node_data node with
      | None =>
          match newRadixNodeObject node with
          | None => (Raise SystemError, World (set_rt self1 t) (heap w))
          | Some node_obj =>
              let h := fresh (dom (heap w)) in
              (Return h,
               World (bump_gen_id (set_rt self1 (assign_data node h t)))
                     (Py_INCREF h (<[h := node_obj]> (heap w))))
          end
      | Some h =>
          (Return h, World (bump_gen_id (set_rt self1 t)) (Py_INCREF h (heap w)))
      end
  end.

(** [Radix_delete], from the prefix that [args_to_prefix] returned. *)
Definition Radix_delete (w : world) (prefix : prefix_t) : result unit * world :=
  match radix_search_exact (rt (self w)) prefix with
  | None => (Raise KeyError, w)
  | Some node =>
      let hp := match node_data node with
                | Some h => Py_DECREF h (clear_rn h (heap w))
                | None => heap w
                end in
      (Return tt,
       World (bump_gen_id (set_rt (self w) (radix_remove (rt (self w)) node))) hp)
  end.

(** [Radix_search_exact] and [Radix_search_best]: [None] is Python's None. *)
Definition Radix_search_exact (w : world) (prefix : prefix_t)
  : option loc * world :=
  match radix_search_exact (rt (self w)) prefix with
  | None => (None, w)
  | Some node =>
      match node_data node with
      | None => (None, w)
      | Some h => (Some h, World (self w) (Py_INCREF h (heap w)))
      end
  end.

Definition Radix_search_best (w : world) (prefix : prefix_t)
  : option loc * world :=
  match radix_search_best (rt (self w)) prefix with
  | None => (None, w)
  | Some node =>
      match node_data node with
      | None => (None, w)
      | Some h => (Some h, World (self w) (Py_INCREF h (heap w)))
      end
  end.

(** The four methods that take an address, from their arguments.  [addr],
    [packed] and [prefixlen] are the C variables that
    [PyArg_ParseTupleAndKeywords] fills from the arguments [network],
    [packed] and [masklen]; an argument that is not given leaves the initial
    value: NULL, NULL and -1.  When [args_to_prefix] returns NULL the method
    returns NULL at once, with the exception that [args_to_prefix] set. *)
Definition Radix_add_kw
    (prefix_pton : string → Z → option prefix_t)
    (prefix_from_blob : list Z → Z → option prefix_t)
    (w : world) (addr : option string) (packed : option (list Z))
    (prefixlen : Z) : result loc * world :=
  match args_to_prefix prefix_pton prefix_from_blob addr packed prefixlen with
  | Raise e => (Raise e, w)
  | Return prefix => Radix_add w prefix
  end.

Definition Radix_delete_kw
    (prefix_pton : string → Z → option prefix_t)
    (prefix_from_blob : list Z → Z → option prefix_t)
    (w : world) (addr : option string) (packed : option (list Z))
    (prefixlen : Z) : result unit * world :=
  match args_to_prefix prefix_pton prefix_from_blob addr packed prefixlen with
  | Raise e => (Raise e, w)
  | Return prefix => Radix_delete w prefix
  end.

Definition Radix_search_exact_kw
    (prefix_pton : string → Z → option prefix_t)
    (prefix_from_blob : list Z → Z → option prefix_t)
    (w : world) (addr : option string) (packed : option (list Z))
    (prefixlen : Z) : result (option loc) * world :=
  match args_to_prefix prefix_pton prefix_from_blob addr packed prefixlen with
  | Raise e => (Raise e, w)
  | Return prefix =>
      (Return (Radix_search_exact w prefix).1, (Radix_search_exact w prefix).2)
  end.

Definition Radix_search_best_kw
    (prefix_pton : string → Z → option prefix_t)
    (prefix_from_blob : list Z → Z → option prefix_t)
    (w : world) (addr : option string) (packed : option (list Z))
    (prefixlen : Z) : result (option loc) * world :=
  match args_to_prefix prefix_pton prefix_from_blob addr packed prefixlen with
  | Raise e => (Raise e, w)
  | Return prefix =>
      (Return (Radix_search_best w prefix).1, (Radix_search_best w prefix).2)
  end.

(** [Radix_nodes]: the handles of the walk, each with a new reference held
    by the list. *)
Definition walk_handles (n : radix_node_t) : list loc :=
  omap snd (RADIX_WALK n).

Definition Radix_nodes (w : world) : list loc * world :=
  let hs := walk_handles (head (rt (self w))) in
  (hs, World (self w) (foldr Py_INCREF (heap w) hs)).

(** [Radix_prefixes]: the [prefix] strings of the handles of the walk. *)
Definition Radix_prefixes (w : world) : list string * world :=
  (omap (fun h => obj_prefix <$> heap w !! h)
     (walk_handles (head (rt (self w)))), w).

(** [radix_Radix], [Radix_nodes] and [Radix_prefixes] from their argument
    tuple: [PyArg_ParseTuple] with a format that names no argument (":Radix",
    ":nodes", ":prefixes") sets TypeError unless the tuple is empty. *)
Definition radix_Radix (args : list PyObject) : result world :=
  match args with
  | [] => Return newRadixObject
  | _ :: _ => Raise TypeError
  end.

Definition Radix_nodes_args (w : world) (args : list PyObject)
  : result (list loc) * world :=
  match args with
  | [] => (Return (Radix_nodes w).1, (Radix_nodes w).2)
  | _ :: _ => (Raise TypeError, w)
  end.

Definition Radix_prefixes_args (w : world) (args : list PyObject)
  : result (list string) * world :=
  match args with
  | [] => (Return (Radix_prefixes w).1, (Radix_prefixes w).2)
  | _ :: _ => (Raise TypeError, w)
  end.

(** [Radix_dealloc]: every handle of the tree loses its node and the tree's
    reference; what remains is the store. *)
Definition Radix_dealloc (w : world) : gmap loc RadixNodeObject :=
  foldr (fun h hp => Py_DECREF h (clear_rn h hp)) (heap w)
    (walk_handles (head (rt (self w)))).

(** A reference to the tree object is dropped: [Py_DECREF] on a
    [RadixObject], which deallocates it when the count reaches zero. *)
Inductive lifetime :=
| Alive (w : world)
| Destroyed (hp : gmap loc RadixNodeObject).

Definition Radix_DECREF (w : world) : lifetime :=
  if ob_refcnt (self w) - 1 =? 0 then Destroyed (Radix_dealloc w)
  else Alive (World (set_refcnt (self w) (ob_refcnt (self w) - 1)) (heap w)).

(** ** The iterator *)

(** [RadixIterObject].  [iterstack] holds the entries below [sp], the last
    pushed first; the array has [RADIX_MAXBITS + 1] slots.  [parent] is the
    tree of the [world] the iterator is used with.  The nodes that [rn] and
    the stack point to are kept by value, as they were when the iterator was
    created: [RadixIter_iternext] reads them only while [gen_id] is the one
    of the creation. *)
Record RadixIterObject := RadixIter {
  iterstack : list radix_node_t;
  iter_rn : radix_node_t;
  iter_gen_id : Z
}.

(** [newRadixIterObject]: takes a reference to the parent. *)
Definition newRadixIterObject (w : world) : RadixIterObject * world :=
  (RadixIter [] (head (rt (self w))) (gen_id (self w)),
   World (set_refcnt (self w) (ob_refcnt (self w) + 1)) (heap w)).

Definition Radix_getiter (w : world) : RadixIterObject * world :=
  newRadixIterObject w.

(** [RadixIter_dealloc]: gives the reference to the parent back. *)
Definition RadixIter_dealloc (it : RadixIterObject) (w : world) : lifetime :=
  Radix_DECREF w.

(** What a call of [RadixIter_iternext] does: it returns a handle, returns
    NULL without an exception (the end of the iteration), returns NULL with
    an exception, or writes after the end of [iterstack]. *)
Inductive iter_result :=
| Yield (h : loc)
| StopIteration
| IterRaise (e : exception)
| OutOfBounds.

(** The block "Get next node" of [RadixIter_iternext]: the new stack and
    node, or [None] when the push [*self->sp++ = ...] would write after the
    last slot of [iterstack]. *)
Definition iter_next_node (stack : list radix_node_t) (l r : radix_node_t)
  : option (list radix_node_t * radix_node_t) :=
  match l, r with
  | Node _ _ _ _ _, Node _ _ _ _ _ =>
      if (length stack <? RADIX_MAXBITS + 1)%nat then Some (r :: stack, l)
      else None
  | Node _ _ _ _ _, NULL => Some (stack, l)
  | NULL, Node _ _ _ _ _ => Some (stack, r)
  | NULL, NULL =>
      match stack with
      | top :: stack' => Some (stack', top)
      | [] => Some ([], NULL)
      end
  end.

(** The number of nodes that the iterator has still to visit. *)
Fixpoint node_count (n : radix_node_t) : nat :=
  match n with
  | NULL => O
  | Node _ _ _ l r => S (node_count l + node_count r)
  end.

Definition nodes_left (stack : list radix_node_t) (rn : radix_node_t) : nat :=
  (node_count rn + sum_list (node_count <$> stack))%nat.

(** The loop at the label [again] of [RadixIter_iternext]; each turn visits
    one node, and [fuel] bounds the number of turns. *)
Fixpoint iternext_again (fuel : nat) (stack : list radix_node_t)
    (rn : radix_node_t) : iter_result * list radix_node_t * radix_node_t :=
  match rn with
  | NULL => (StopIteration, stack, rn)
  | Node _ pre d l r =>
      match iter_next_node stack l r with
      | None => (OutOfBounds, stack, rn)
      | Some (stack', rn') =>
          match pre, d with
          | Some _, Some ret => (Yield ret, stack', rn')
          | _, _ =>
              match fuel with
              | O => (StopIteration, stack', rn')
              | S fuel' => iternext_again fuel' stack' rn'
              end
          end
      end
  end.

(** [RadixIter_iternext], on the iterator and the world of its parent. *)
Definition RadixIter_iternext (it : RadixIterObject) (w : world)
  : iter_result * RadixIterObject * world :=
  if negb (iter_gen_id it =? gen_id (self w)) then
    (IterRaise RuntimeWarning, it, w)
  else
    let '(res, stack, rn) :=
      iternext_again (nodes_left (iterstack it) (iter_rn it))
        (iterstack it) (iter_rn it) in
    let it' := RadixIter stack rn (iter_gen_id it) in
    match res with
    | Yield ret => (res, it', World (self w) (Py_INCREF ret (heap w)))
    | _ => (res, it', w)
    end.

(** ** Invariants *)

(** The shape of a tree of prefixes: the prefix of a data node ends at the
    node's test position, a glue node has two children, the prefixes below a
    node agree before its test position, are longer than it, and are sorted
    left and right by the tested bit. *)
Fixpoint radix_wf (n : radix_node_t) : Prop :=
  match n with
  | NULL => True
  | Node b pre d l r =>
      (∀ s, pre = Some s → bitlen s = b) ∧
      (pre = None → l ≠ NULL ∧ r ≠ NULL) ∧
      (∀ s, s ∈ prefixes l → (b < bitlen s)%nat ∧ bit_test (add s) b = false) ∧
      (∀ s, s ∈ prefixes r → (b < bitlen s)%nat ∧ bit_test (add s) b = true) ∧
      (∀ s s', s ∈ prefixes (Node b pre d l r) →
               s' ∈ prefixes (Node b pre d l r) →
               comp_with_mask (add s) (add s') b = true) ∧
      radix_wf l ∧ radix_wf r
  end.

(** The identity that a handle copies from the prefix of its node. *)
Definition obj_ident (o : RadixNodeObject)
  : string * string * Z * Z * list Z :=
  (network o, obj_prefix o, prefixlen o, obj_family o, packed o).

Definition prefix_ident (s : prefix_t) : string * string * Z * Z * list Z :=
  (prefix_addr_ntop s, prefix_ntop s, Z.of_nat (bitlen s),
   family_code (family s), take (family_bytes (family s)) (add s)).

(** What the caller reads of a handle: its identity and its dictionary. *)
Definition obj_fields (o : RadixNodeObject)
  : string * string * Z * Z * list Z * gmap string PyObject :=
  (obj_ident o, user_attr o).

(** Glue nodes carry no [data]. *)
Fixpoint glue_clean (n : radix_node_t) : Prop :=
  match n with
  | NULL => True
  | Node _ pre d l r => (pre = None → d = None) ∧ glue_clean l ∧ glue_clean r
  end.

(** The state between two calls: the tree is well formed, its prefixes are
    valid and of the tree's family, every data node has its own handle in the
    store, with the identity of the node's prefix, and [count] is the number
    of data nodes. *)
Record world_ok (w : world) : Prop := WorldOk {
  ok_wf : radix_wf (head (rt (self w)));
  ok_glue : glue_clean (head (rt (self w)));
  ok_family : ∀ s d, (s, d) ∈ data_nodes (head (rt (self w))) →
      prefix_valid s = true ∧ family_code (family s) = tree_family (self w);
  ok_data : ∀ s d, (s, d) ∈ data_nodes (head (rt (self w))) →
      ∃ h, d = Some h ∧ obj_ident <$> heap w !! h = Some (prefix_ident s);
  ok_nodup : NoDup (data_nodes (head (rt (self w)))).*2;
  ok_count :
    count (rt (self w)) = Z.of_nat (length (data_nodes (head (rt (self w)))))
}.

(** The number of nodes on the longest path from a node down to a leaf. *)
Fixpoint height (n : radix_node_t) : nat :=
  match n with
  | NULL => O
  | Node _ _ _ l r => S (height l `max` height r)
  end.

(** The test positions grow along every path, from [lo] on, and none is
    after the largest bit width. *)
Fixpoint bits_sorted (lo : nat) (n : radix_node_t) : Prop :=
  match n with
  | NULL => True
  | Node b _ _ l r =>
      (lo ≤ b ≤ RADIX_MAXBITS)%nat ∧ bits_sorted (S b) l ∧ bits_sorted (S b) r
  end.

(** With [H] the height of the tree: the node to visit and the entries of
    the stack below it fit in [H], and so does every entry of the stack
    with the entries under it. *)
Fixpoint stack_ok (H : nat) (stack : list radix_node_t) : Prop :=
  match stack with
  | [] => True
  | s :: rest => (height s + length rest ≤ H)%nat ∧ stack_ok H rest
  end.

Definition iter_ok (H : nat) (stack : list radix_node_t) (rn : radix_node_t)
  : Prop :=
  (height rn + length stack ≤ H)%nat ∧ stack_ok H stack.

(** The entries of the stack are nodes, and the iterator is at NULL only
    with an empty stack. *)
Definition iter_live (stack : list radix_node_t) (rn : radix_node_t) : Prop :=
  Forall (fun n => n ≠ NULL) stack ∧ (rn = NULL → stack = []).

(** The handles that the tree holds a reference to. *)
Definition tree_handles (w : world) : list loc :=
  walk_handles (head (rt (self w))).

(** The states of a tree and its store that calls of the binding reach from
    a new tree.  The caller may also write into the dictionary of a handle
    and drop a reference of its own to a handle. *)
Inductive reachable : world → Prop :=
| reach_new : reachable newRadixObject
| reach_add w p :
    reachable w → prefix_valid p = true → reachable (Radix_add w p).2
| reach_delete w p :
    reachable w → prefix_valid p = true → reachable (Radix_delete w p).2
| reach_search_exact w p :
    reachable w → reachable (Radix_search_exact w p).2
| reach_search_best w p :
    reachable w → reachable (Radix_search_best w p).2
| reach_nodes w : reachable w → reachable (Radix_nodes w).2
| reach_prefixes w : reachable w → reachable (Radix_prefixes w).2
| reach_getiter w : reachable w → reachable (Radix_getiter w).2
| reach_iternext w it : reachable w → reachable (RadixIter_iternext it w).2
| reach_setitem w h k v : reachable w → reachable (data_setitem h k v w)
| reach_decref w h o :
    reachable w → heap w !! h = Some o →
    h ∉ tree_handles w ∨ 1 < obj_refcnt o →
    reachable (World (self w) (Py_DECREF h (heap w)))
| reach_release w w' :
    reachable w → Radix_DECREF w = Alive w' → reachable w'.

(** ** Sequences of calls *)

(** The calls that read the tree, and all the calls on a tree and an
    iterator on it. *)
Inductive read :=
| ReadSearchExact (q : prefix_t)
| ReadSearchBest (q : prefix_t)
| ReadNodes
| ReadPrefixes
| ReadNext.

Inductive call :=
| CallRead (c : read)
| CallAdd (p : prefix_t)
| CallDelete (p : prefix_t).

Definition run_read (c : read) (st : world * RadixIterObject)
  : world * RadixIterObject :=
  match c with
  | ReadSearchExact q => ((Radix_search_exact st.1 q).2, st.2)
  | ReadSearchBest q => ((Radix_search_best st.1 q).2, st.2)
  | ReadNodes => ((Radix_nodes st.1).2, st.2)
  | ReadPrefixes => ((Radix_prefixes st.1).2, st.2)
  | ReadNext =>
      let '(_, it, w) := RadixIter_iternext st.2 st.1 in (w, it)
  end.

Definition run_reads (cs : list read) (st : world * RadixIterObject)
  : world * RadixIterObject :=
  foldl (fun st c => run_read c st) st cs.

(** The call returned a value, not NULL. *)
Definition returned {A} (r : result A) : bool :=
  match r with Return _ => true | Raise _ => false end.

(** One call; the boolean tells whether it was an insert or a delete that
    returned without an exception. *)
Definition run_call (c : call) (st : world * RadixIterObject)
  : world * RadixIterObject * bool :=
  match c with
  | CallRead c => (run_read c st, false)
  | CallAdd p =>
      let '(r, w) := Radix_add st.1 p in ((w, st.2), returned r)
  | CallDelete p =>
      let '(r, w) := Radix_delete st.1 p in ((w, st.2), returned r)
  end.

(** A sequence of calls, and the number of its inserts and deletes that
    returned without an exception. *)
Fixpoint run_calls (cs : list call) (st : world * RadixIterObject)
  : world * RadixIterObject * nat :=
  match cs with
  | [] => (st, O)
  | c :: cs =>
      let '(st', b) := run_call c st in
      let '(st'', k) := run_calls cs st' in
      (st'', if b then S k else k)
  end.

(** [n] calls of [RadixIter_iternext] in a row. *)
Fixpoint iter_advance (n : nat) (st : RadixIterObject * world)
  : RadixIterObject * world :=
  match n with
  | O => st
  | S n =>
      let '(_, it, w) := RadixIter_iternext st.1 st.2 in iter_advance n (it, w)
  end.

(** The results of [n] calls of [RadixIter_iternext] in a row. *)
Fixpoint iter_results (n : nat) (st : RadixIterObject * world)
  : list iter_result :=
  match n with
  | O => []
  | S n =>
      let '(res, it, w) := RadixIter_iternext st.1 st.2 in
      res :: iter_results n (it, w)
  end.

(** The handles that an iterator has still to yield: those of the walk of
    its node, then those of the walks of the entries of its stack. *)
Definition pending (stack : list radix_node_t) (rn : radix_node_t)
  : list loc :=
  walk_handles rn ++ concat (walk_handles <$> stack).

(** [n] references to the tree object are dropped, one after the other. *)
Fixpoint drop_refs (n : nat) (w : world) : lifetime :=
  match n with
  | O => Alive w
  | S n => match Radix_DECREF w with
           | Alive w' => drop_refs n w'
           | Destroyed hp => Destroyed hp
           end
  end.

(** ** Examples *)

Definition ip4 (a b c d : Z) (len : nat) : prefix_t :=
  Prefix AF_INET len [a; b; c; d].

Definition net8 : prefix_t := ip4 10 0 0 0 8.
Definition net16 : prefix_t := ip4 10 1 0 0 16.
Definition host : prefix_t := ip4 10 1 2 3 32.
Definition other8 : prefix_t := ip4 11 0 0 0 8.
Definition v6net : prefix_t := Prefix AF_INET6 8 (replicate 16 0).


(** A tree with 10.0.0.0/8, and a tree with 10.0.0.0/8 and 10.1.0.0/16. *)
Definition world1 : world := (Radix_add newRadixObject net8).2.
Definition world2 : world := (Radix_add world1 net16).2.

(** The handle of 10.1.0.0/16 as the store holds it after the insert, with
    two references: the tree's and the caller's. *)
Definition handle16 : RadixNodeObject :=
  RadixNode 2 ∅ (prefix_addr_ntop net16) (prefix_ntop net16) 16 2
    [10; 1; 0; 0] (Some net16).

(** ** Bits *)

Lemma comp_with_mask_spec a b n :
  comp_with_mask a b n = true ↔
  ∀ i, (i < n)%nat → bit_test a i = bit_test b i.
Proof.
  unfold comp_with_mask. rewrite forallb_forall. split.
  - intros H i Hi. apply eqb_prop, H, in_seq. lia.
  - intros H i Hi%in_seq. rewrite H by lia. apply eqb_reflx.
Qed.

Lemma comp_with_mask_refl a n : comp_with_mask a a n = true.
Proof. by apply comp_with_mask_spec. Qed.

Lemma comp_with_mask_sym a b n :
  comp_with_mask a b n = true → comp_with_mask b a n = true.
Proof.
  rewrite !comp_with_mask_spec. intros H i Hi. symmetry. by apply H.
Qed.

Lemma comp_with_mask_trans a b c n :
  comp_with_mask a b n = true → comp_with_mask b c n = true →
  comp_with_mask a c n = true.
Proof.
  rewrite !comp_with_mask_spec. intros H1 H2 i Hi.
  rewrite H1 by done. by apply H2.
Qed.

Lemma comp_with_mask_le a b n m :
  (m ≤ n)%nat → comp_with_mask a b n = true → comp_with_mask a b m = true.
Proof.
  rewrite !comp_with_mask_spec. intros Hm H i Hi. apply H. lia.
Qed.

Lemma differ_from_spec a b n i :
  (i ≤ differ_from a b i n ≤ i + n)%nat ∧
  (∀ j, (i ≤ j < differ_from a b i n)%nat → bit_test a j = bit_test b j) ∧
  ((differ_from a b i n < i + n)%nat →
   bit_test a (differ_from a b i n) ≠ bit_test b (differ_from a b i n)).
Proof.
  revert i. induction n as [|n IH]; intros i; simpl.
  - repeat split; intros; lia.
  - destruct (eqb (bit_test a i) (bit_test b i)) eqn:E.
    + destruct (IH (S i)) as ([? ?] & Heq & Hne). repeat split; try lia.
      * intros j Hj. destruct (decide (j = i)) as [->|].
        -- by apply eqb_prop.
        -- apply Heq. lia.
      * intros. apply Hne. lia.
    + repeat split; try lia. intros _. by apply eqb_false_iff in E.
Qed.

Lemma differ_bit_le a b m : (differ_bit a b m ≤ m)%nat.
Proof. unfold differ_bit. destruct (differ_from_spec a b m 0). lia. Qed.

Lemma differ_bit_agree a b m :
  comp_with_mask a b (differ_bit a b m) = true.
Proof.
  apply comp_with_mask_spec. intros i Hi. unfold differ_bit in *.
  destruct (differ_from_spec a b m 0) as (_ & H & _). apply H. lia.
Qed.

Lemma differ_bit_differs a b m :
  (differ_bit a b m < m)%nat →
  bit_test a (differ_bit a b m) ≠ bit_test b (differ_bit a b m).
Proof.
  unfold differ_bit. destruct (differ_from_spec a b m 0) as (_ & _ & H).
  intros. apply H. lia.
Qed.

Lemma differ_bit_full a b m :
  comp_with_mask a b m = true → differ_bit a b m = m.
Proof.
  intros H. pose proof (differ_bit_le a b m).
  destruct (decide (differ_bit a b m = m)) as [|Hne]; [done|].
  exfalso. apply (differ_bit_differs a b m); [lia|].
  rewrite comp_with_mask_spec in H. apply H. lia.
Qed.

(** ** The tree: prefixes and shape *)

Lemma prefixes_data_nodes n : prefixes n = (data_nodes n).*1.
Proof.
  induction n as [|b pre d l IHl r IHr]; [done|]. simpl.
  rewrite !fmap_app, IHl, IHr. by destruct pre.
Qed.

Lemma elem_of_prefixes_node s b pre d l r :
  s ∈ prefixes (Node b pre d l r) ↔
  pre = Some s ∨ s ∈ prefixes l ∨ s ∈ prefixes r.
Proof.
  simpl. rewrite !elem_of_app. destruct pre as [s'|].
  - rewrite list_elem_of_singleton. naive_solver.
  - rewrite elem_of_nil. naive_solver.
Qed.

Lemma elem_of_data_nodes_node e b pre d l r :
  e ∈ data_nodes (Node b pre d l r) ↔
  (∃ s, pre = Some s ∧ e = (s, d)) ∨ e ∈ data_nodes l ∨ e ∈ data_nodes r.
Proof.
  simpl. rewrite !elem_of_app. destruct pre as [s'|].
  - rewrite list_elem_of_singleton. naive_solver.
  - rewrite elem_of_nil. naive_solver.
Qed.

Lemma elem_of_prefixes s n :
  s ∈ prefixes n ↔ ∃ d, (s, d) ∈ data_nodes n.
Proof.
  rewrite prefixes_data_nodes, list_elem_of_fmap. split.
  - intros ([s' d] & -> & H). by exists d.
  - intros [d H]. by exists (s, d).
Qed.

Lemma radix_wf_node b pre d l r :
  radix_wf (Node b pre d l r) ↔
  (∀ s, pre = Some s → bitlen s = b) ∧
  (pre = None → l ≠ NULL ∧ r ≠ NULL) ∧
  (∀ s, s ∈ prefixes l → (b < bitlen s)%nat ∧ bit_test (add s) b = false) ∧
  (∀ s, s ∈ prefixes r → (b < bitlen s)%nat ∧ bit_test (add s) b = true) ∧
  (∀ s s', s ∈ prefixes (Node b pre d l r) →
           s' ∈ prefixes (Node b pre d l r) →
           comp_with_mask (add s) (add s') b = true) ∧
  radix_wf l ∧ radix_wf r.
Proof. done. Qed.

Lemma not_elem_of_prefixes_NULL s : s ∉ prefixes NULL.
Proof. apply not_elem_of_nil. Qed.

Lemma radix_wf_new_node p : radix_wf (new_node p).
Proof.
  apply radix_wf_node. split_and!; try done.
  - by intros s [= <-].
  - by intros s Hs%not_elem_of_prefixes_NULL.
  - by intros s Hs%not_elem_of_prefixes_NULL.
  - intros s s' Hs Hs'. apply elem_of_prefixes_node in Hs, Hs'.
    destruct Hs as [[= <-]|[Hs%not_elem_of_prefixes_NULL|Hs%not_elem_of_prefixes_NULL]]; try done.
    destruct Hs' as [[= <-]|[Hs%not_elem_of_prefixes_NULL|Hs%not_elem_of_prefixes_NULL]]; try done.
    apply comp_with_mask_refl.
Qed.

Lemma first_prefix_elem n s : first_prefix n = Some s → s ∈ prefixes n.
Proof.
  induction n as [|b pre d l IHl r IHr]; [done|]. simpl first_prefix.
  rewrite elem_of_prefixes_node. destruct pre as [s'|].
  - intros [= ->]. by left.
  - destruct (first_prefix l) as [s'|].
    + intros [= ->]. right; left. by apply IHl.
    + intros H. right; right. by apply IHr.
Qed.

Lemma first_prefix_is_Some n :
  radix_wf n → n ≠ NULL → is_Some (first_prefix n).
Proof.
  induction n as [|b pre d l IHl r IHr]; [done|].
  intros (_ & Hglue & _ & _ & _ & Hl & Hr)%radix_wf_node _. simpl.
  destruct pre as [s|]; [by eexists|].
  destruct Hglue as [Hnl _]; [done|].
  destruct (IHl Hl Hnl) as [s ->]. by eexists.
Qed.

(** The prefixes below a node are at least as long as its test position,
    and agree with each other before it. *)
Lemma radix_wf_bitlen b pre d l r s :
  radix_wf (Node b pre d l r) → s ∈ prefixes (Node b pre d l r) →
  (b ≤ bitlen s)%nat.
Proof.
  intros (Hpre & _ & Hl & Hr & _)%radix_wf_node
    [H|[H|H]]%elem_of_prefixes_node.
  - rewrite (Hpre _ H). lia.
  - apply Hl in H. lia.
  - apply Hr in H. lia.
Qed.

Lemma radix_wf_agree b pre d l r s s' :
  radix_wf (Node b pre d l r) →
  s ∈ prefixes (Node b pre d l r) → s' ∈ prefixes (Node b pre d l r) →
  comp_with_mask (add s) (add s') b = true.
Proof. intros (_ & _ & _ & _ & H & _)%radix_wf_node. apply H. Qed.

(** Prefixes that all agree with one address agree with each other. *)
Lemma agree_through c k (L : list prefix_t) :
  (∀ s, s ∈ L → comp_with_mask (add s) c k = true) →
  ∀ s s', s ∈ L → s' ∈ L → comp_with_mask (add s) (add s') k = true.
Proof.
  intros H s s' Hs Hs'. eapply comp_with_mask_trans; [by apply H|].
  apply comp_with_mask_sym. by apply H.
Qed.

Lemma lookup_walk_node p b pre d l r :
  lookup_walk p (Node b pre d l r) =
  let n := Node b pre d l r in
  let m := (b `min` bitlen p)%nat in
  let db := match first_prefix n with
            | Some s => differ_bit (add p) (add s) m
            | None => m
            end in
  if (db <? m)%nat then
    let glue := if bit_test (add p) db
                then Node db None None n (new_node p)
                else Node db None None (new_node p) n in
    (glue, new_node p, true)
  else if (bitlen p <? b)%nat then
    let side := match first_prefix n with
                | Some s => bit_test (add s) (bitlen p)
                | None => false
                end in
    let nn := if side
              then Node (bitlen p) (Some p) None NULL n
              else Node (bitlen p) (Some p) None n NULL in
    (nn, nn, true)
  else if (bitlen p =? b)%nat then
    match pre with
    | Some _ => (n, n, false)
    | None => let nn := Node b (Some p) d l r in (nn, nn, true)
    end
  else if bit_test (add p) b then
    let '(r', node, created) := lookup_walk p r in
    (Node b pre d l r', node, created)
  else
    let '(l', node, created) := lookup_walk p l in
    (Node b pre d l' r, node, created).
Proof. done. Qed.

(** Case analysis on the tests of a walk that a hypothesis mentions. *)
Ltac walk_cases H :=
  repeat match type of H with
         | context [match ?x with _ => _ end] => destruct x eqn:?
         end;
  simplify_eq.

Lemma lookup_walk_data_nodes p n t node c :
  lookup_walk p n = (t, node, c) →
  t ≠ NULL ∧
  if c then node_prefix node = Some p ∧
            data_nodes t ≡ₚ (p, node_data node) :: data_nodes n
  else t = n ∧ ∃ s, node_prefix node = Some s ∧
                    (s, node_data node) ∈ data_nodes n.
Proof.
  revert t node c. induction n as [|b pre d l IHl r IHr]; intros t node c H.
  - simpl in H. simplify_eq. done.
  - rewrite lookup_walk_node in H. cbv zeta in H. walk_cases H.
    all: try match goal with
      | H : lookup_walk _ _ = _ |- _ =>
          first [destruct (IHr _ _ _ eq_refl) as [? ?]
                | destruct (IHl _ _ _ eq_refl) as [? ?]];
          destruct c; destruct_and?; simplify_eq
      end.
    all: split; [done|]; split; [done|].
    all: try (simpl; try destruct pre; simpl; solve_Permutation).
    all: try (eexists; split; [done|]; apply elem_of_data_nodes_node; left; by eexists).
    all: try match goal with
      | H : data_nodes _ ≡ₚ _ |- _ => simpl; rewrite H; solve_Permutation
      end.
    all: match goal with
      | H : ∃ _, _ |- _ => destruct H as (s & ? & ?); exists s; split; [done|];
          apply elem_of_data_nodes_node; auto
      end.
Qed.

Lemma elem_of_prefixes_new_node s p : s ∈ prefixes (new_node p) ↔ s = p.
Proof. simpl. apply list_elem_of_singleton. Qed.

Lemma lookup_walk_prefixes p n t node c s :
  lookup_walk p n = (t, node, c) →
  s ∈ prefixes t ↔ (c = true ∧ s = p) ∨ s ∈ prefixes n.
Proof.
  intros [_ H]%lookup_walk_data_nodes. destruct c.
  - destruct H as [_ H]. rewrite !prefixes_data_nodes, H. simpl.
    rewrite elem_of_cons. naive_solver.
  - destruct H as [-> _]. naive_solver.
Qed.

Lemma bit_test_agree a c k i :
  comp_with_mask a c k = true → (i < k)%nat → bit_test a i = bit_test c i.
Proof. rewrite comp_with_mask_spec. auto. Qed.

(** [radix_lookup] keeps the tree well formed. *)
Lemma lookup_walk_wf p n t node c :
  radix_wf n → lookup_walk p n = (t, node, c) → radix_wf t.
Proof.
  revert t node c. induction n as [|b pre d l IHl r IHr]; intros t node c Hwf H.
  { simpl in H. simplify_eq. apply radix_wf_new_node. }
  destruct (first_prefix_is_Some _ Hwf) as [s0 Hs0]; [done|].
  pose proof (first_prefix_elem _ _ Hs0) as Hin0.
  assert (Hall : ∀ s, s ∈ prefixes (Node b pre d l r) →
    comp_with_mask (add s) (add s0) b = true ∧ (b ≤ bitlen s)%nat).
  { intros s Hs. split; [by eapply radix_wf_agree|by eapply radix_wf_bitlen]. }
  rewrite lookup_walk_node in H. cbv zeta in H. rewrite Hs0 in H.
  pose proof (differ_bit_le (add p) (add s0) (b `min` bitlen p)) as Hle.
  pose proof (differ_bit_agree (add p) (add s0) (b `min` bitlen p)) as Hag.
  pose proof (differ_bit_differs (add p) (add s0) (b `min` bitlen p)) as Hdiff.
  set (db := differ_bit (add p) (add s0) (b `min` bitlen p)) in *.
  destruct (Nat.ltb_spec db (b `min` bitlen p)) as [Hlt|Hge].
  - (* divergence before the test position: a glue node *)
    specialize (Hdiff Hlt).
    assert (Hold : ∀ s, s ∈ prefixes (Node b pre d l r) →
      (db < bitlen s)%nat ∧ bit_test (add s) db = bit_test (add s0) db).
    { intros s [Hs1 Hs2]%Hall. split; [lia|].
      eapply bit_test_agree; [done|lia]. }
    assert (Hpair : ∀ s, s ∈ p :: prefixes (Node b pre d l r) →
      comp_with_mask (add s) (add s0) db = true).
    { intros s [->|[Hs _]%Hall]%elem_of_cons; [done|].
      eapply comp_with_mask_le; [|done]. lia. }
    destruct (bit_test (add p) db) eqn:Hbit; simplify_eq;
      apply radix_wf_node; split_and!; try done;
      try apply radix_wf_new_node.
    + intros s [Hs1 Hs2]%Hold. split; [done|]. rewrite Hs2.
      by destruct (bit_test (add s0) db).
    + intros s ->%elem_of_prefixes_new_node. split; [lia|done].
    + apply (agree_through (add s0)). intros s Hs. apply Hpair.
      apply elem_of_prefixes_node in Hs as [?|[Hs|Hs]]; [done| |].
      * by apply elem_of_cons; right.
      * apply elem_of_prefixes_new_node in Hs as ->. by apply elem_of_cons; left.
    + intros s ->%elem_of_prefixes_new_node. split; [lia|done].
    + intros s [Hs1 Hs2]%Hold. split; [done|]. rewrite Hs2.
      by destruct (bit_test (add s0) db).
    + apply (agree_through (add s0)). intros s Hs. apply Hpair.
      apply elem_of_prefixes_node in Hs as [?|[Hs|Hs]]; [done| |].
      * apply elem_of_prefixes_new_node in Hs as ->. by apply elem_of_cons; left.
      * by apply elem_of_cons; right.
  - assert (db = b `min` bitlen p)%nat as Hdb by lia. clear Hle Hge Hdiff.
    rewrite Hdb in Hag. clear Hdb db.
    destruct (Nat.ltb_spec (bitlen p) b) as [Hshort|Hlong].
    + (* the new prefix is shorter: a data node above *)
      rewrite Nat.min_r in Hag by lia.
      assert (Hold : ∀ s, s ∈ prefixes (Node b pre d l r) →
        (bitlen p < bitlen s)%nat ∧
        bit_test (add s) (bitlen p) = bit_test (add s0) (bitlen p)).
      { intros s [Hs1 Hs2]%Hall. split; [lia|].
        eapply bit_test_agree; [done|lia]. }
      assert (Hpair : ∀ s, s ∈ p :: prefixes (Node b pre d l r) →
        comp_with_mask (add s) (add s0) (bitlen p) = true).
      { intros s [->|[Hs _]%Hall]%elem_of_cons; [done|].
        eapply comp_with_mask_le; [|done]. lia. }
      destruct (bit_test (add s0) (bitlen p)) eqn:Hbit; simplify_eq;
        apply radix_wf_node; split_and!; try done.
      * by intros s [= <-].
      * by intros s Hs%not_elem_of_prefixes_NULL.
      * apply (agree_through (add s0)). intros s Hs. apply Hpair.
        apply elem_of_prefixes_node in Hs as [[= <-]|[Hs|Hs]].
        -- by apply elem_of_cons; left.
        -- by apply not_elem_of_prefixes_NULL in Hs.
        -- by apply elem_of_cons; right.
      * by intros s [= <-].
      * by intros s Hs%not_elem_of_prefixes_NULL.
      * apply (agree_through (add s0)). intros s Hs. apply Hpair.
        apply elem_of_prefixes_node in Hs as [[= <-]|[Hs|Hs]].
        -- by apply elem_of_cons; left.
        -- by apply elem_of_cons; right.
        -- by apply not_elem_of_prefixes_NULL in Hs.
    + pose proof Hwf as (Hpre & Hglue & Hl & Hr & Hagree & Hwl & Hwr)%radix_wf_node.
      destruct (Nat.eqb_spec (bitlen p) b) as [Heq|Hne].
      * (* the node of the prefix *)
        destruct pre as [s1|]; simplify_eq; [done|].
        rewrite Nat.min_id in Hag.
        apply radix_wf_node; split_and!; try done.
        -- by intros s [= <-].
        -- apply (agree_through (add s0)). intros s Hs.
           apply elem_of_prefixes_node in Hs as [[= <-]|Hs]; [done|].
           apply Hall. apply elem_of_prefixes_node. by right.
      * (* the walk goes on in a child *)
        rewrite Nat.min_l in Hag by lia.
        assert (Hpair : ∀ s, s ∈ p :: prefixes (Node b pre d l r) →
          comp_with_mask (add s) (add s0) b = true).
        { intros s [->|[Hs _]%Hall]%elem_of_cons; done. }
        destruct (bit_test (add p) b) eqn:Hbit.
        -- destruct (lookup_walk p r) as [[r' node'] c'] eqn:Hr'.
           simplify_eq.
           pose proof (lookup_walk_data_nodes _ _ _ _ _ Hr') as [Hnn _].
           apply radix_wf_node; split_and!; try done.
           ++ intros Hn. destruct (Hglue Hn). done.
           ++ intros s Hs. eapply lookup_walk_prefixes in Hs; [|done].
              destruct Hs as [[_ ->]|Hs]; [split; [lia|done]|by apply Hr].
           ++ apply (agree_through (add s0)). intros s Hs. apply Hpair.
              apply elem_of_cons.
              apply elem_of_prefixes_node in Hs as [Hs|[Hs|Hs]].
              ** right. apply elem_of_prefixes_node. by left.
              ** right. apply elem_of_prefixes_node. by right; left.
              ** eapply lookup_walk_prefixes in Hs; [|done].
                 destruct Hs as [[_ ->]|Hs]; [by left|].
                 right. apply elem_of_prefixes_node. by right; right.
           ++ by eapply IHr.
        -- destruct (lookup_walk p l) as [[l' node'] c'] eqn:Hl'.
           simplify_eq.
           pose proof (lookup_walk_data_nodes _ _ _ _ _ Hl') as [Hnn _].
           apply radix_wf_node; split_and!; try done.
           ++ intros Hn. destruct (Hglue Hn). done.
           ++ intros s Hs. eapply lookup_walk_prefixes in Hs; [|done].
              destruct Hs as [[_ ->]|Hs]; [split; [lia|done]|by apply Hl].
           ++ apply (agree_through (add s0)). intros s Hs. apply Hpair.
              apply elem_of_cons.
              apply elem_of_prefixes_node in Hs as [Hs|[Hs|Hs]].
              ** right. apply elem_of_prefixes_node. by left.
              ** eapply lookup_walk_prefixes in Hs; [|done].
                 destruct Hs as [[_ ->]|Hs]; [by left|].
                 right. apply elem_of_prefixes_node. by right; left.
              ** right. apply elem_of_prefixes_node. by right; right.
           ++ by eapply IHl.
Qed.

(** ** The pointer to a node: [set_data] *)

Lemma set_data_prefixes p h n : prefixes (set_data p h n) = prefixes n.
Proof.
  induction n as [|b pre d l IHl r IHr]; [done|]. simpl.
  repeat case_match; simpl; by rewrite ?IHl, ?IHr.
Qed.

Lemma set_data_NULL p h n : set_data p h n = NULL ↔ n = NULL.
Proof. destruct n; simpl; [done|]. by repeat case_match. Qed.

Lemma set_data_wf p h n : radix_wf n → radix_wf (set_data p h n).
Proof.
  induction n as [|b pre d l IHl r IHr]; [done|].
  intros (Hpre & Hglue & Hl & Hr & Hagree & Hwl & Hwr)%radix_wf_node.
  assert (∀ l' r', prefixes l' = prefixes l → prefixes r' = prefixes r →
    (l' = NULL ↔ l = NULL) → (r' = NULL ↔ r = NULL) →
    radix_wf l' → radix_wf r' → ∀ d', radix_wf (Node b pre d' l' r')) as Hnode.
  { intros l' r' Hpl Hpr Hnl Hnr Hwl' Hwr' d'.
    apply radix_wf_node. rewrite Hpl, Hpr. split_and!; try done.
    - intros Hn. destruct (Hglue Hn). rewrite Hnl, Hnr. done.
    - intros s s'. rewrite !elem_of_prefixes_node, Hpl, Hpr.
      rewrite <-!(elem_of_prefixes_node _ b pre d l r). apply Hagree. }
  simpl. repeat case_match; apply Hnode; auto using set_data_prefixes, set_data_NULL.
Qed.

(** After [radix_lookup] created the node of [p], the store through the
    returned pointer sets the [data] of that node and of no other. *)
Lemma set_data_created p h n t node :
  lookup_walk p n = (t, node, true) →
  data_nodes (set_data p h t) ≡ₚ (p, Some h) :: data_nodes n.
Proof.
  revert t node. induction n as [|b pre d l IHl r IHr]; intros t node H.
  { simpl in H. simplify_eq. simpl. by rewrite Nat.ltb_irrefl. }
  rewrite lookup_walk_node in H. cbv zeta in H.
  pose proof (Nat.le_min_r b (bitlen p)).
  generalize dependent (match first_prefix (Node b pre d l r) with
                        | Some s => differ_bit (add p) (add s) (b `min` bitlen p)
                        | None => (b `min` bitlen p)%nat
                        end).
  generalize (match first_prefix (Node b pre d l r) with
              | Some s => bit_test (add s) (bitlen p)
              | None => false
              end).
  intros side db H.
  destruct (Nat.ltb_spec db (b `min` bitlen p)) as [Hlt|Hge].
  { assert ((db <? bitlen p)%nat = true) as Hdb by (apply Nat.ltb_lt; lia).
    destruct (bit_test (add p) db) eqn:Hbit; simplify_eq;
      cbn [set_data]; rewrite Hdb, Hbit; simpl; rewrite Nat.ltb_irrefl;
      simpl; solve_Permutation. }
  destruct (Nat.ltb_spec (bitlen p) b) as [Hshort|Hlong].
  { destruct side; simplify_eq;
      cbn [set_data]; rewrite Nat.ltb_irrefl; simpl; solve_Permutation. }
  destruct (Nat.eqb_spec (bitlen p) b) as [Heq|Hne].
  { destruct pre; simplify_eq. cbn [set_data]. by rewrite Nat.ltb_irrefl. }
  assert ((b <? bitlen p)%nat = true) as Hb by (apply Nat.ltb_lt; lia).
  destruct (bit_test (add p) b) eqn:Hbit.
  - destruct (lookup_walk p r) as [[r' node'] c'] eqn:Hr'. simplify_eq.
    cbn [set_data]. rewrite Hb, Hbit. simpl.
    rewrite (IHr _ _ eq_refl). solve_Permutation.
  - destruct (lookup_walk p l) as [[l' node'] c'] eqn:Hl'. simplify_eq.
    cbn [set_data]. rewrite Hb, Hbit. simpl.
    rewrite (IHl _ _ eq_refl). solve_Permutation.
Qed.

(** ** Exact search *)

Lemma prefix_equal_spec s q :
  prefix_equal s q = true ↔
  family s = family q ∧ bitlen s = bitlen q ∧
  comp_with_mask (add s) (add q) (bitlen s) = true.
Proof.
  unfold prefix_equal. rewrite !andb_true_iff, bool_decide_eq_true.
  rewrite Nat.eqb_eq. naive_solver.
Qed.

Lemma prefix_equal_refl p : prefix_equal p p = true.
Proof. apply prefix_equal_spec. auto using comp_with_mask_refl. Qed.

(** What the exact search returns is a data node of the tree whose prefix
    equals the query. *)
Lemma search_exact_walk_sound q n node :
  search_exact_walk q n = Some node →
  ∃ s, node_prefix node = Some s ∧ prefix_equal s q = true ∧
       (s, node_data node) ∈ data_nodes n.
Proof.
  induction n as [|b pre d l IHl r IHr]; [done|]. intros H. simpl in H.
  walk_cases H.
  - destruct (IHr H) as (s & ? & ? & ?). exists s. split_and!; [done..|].
    apply elem_of_data_nodes_node. auto.
  - destruct (IHl H) as (s & ? & ? & ?). exists s. split_and!; [done..|].
    apply elem_of_data_nodes_node. auto.
  - eexists. split_and!; [done..|].
    apply elem_of_data_nodes_node. left. eauto.
Qed.

(** In a well-formed tree the exact search finds every data node. *)
Lemma search_exact_walk_complete q n s d :
  radix_wf n → (s, d) ∈ data_nodes n → prefix_equal s q = true →
  ∃ node, search_exact_walk q n = Some node ∧
          node_prefix node = Some s ∧ node_data node = d.
Proof.
  intros Hwf Hin (Hfam & Hlen & Hbits)%prefix_equal_spec.
  induction n as [|b pre d' l IHl r IHr]; [by apply elem_of_nil in Hin|].
  pose proof Hwf as (Hpre & Hglue & Hl & Hr & Hagree & Hwl & Hwr)%radix_wf_node.
  assert (Hchild : ∀ c, (s, d) ∈ data_nodes c → s ∈ prefixes c).
  { intros c Hc. apply elem_of_prefixes. eauto. }
  simpl. apply elem_of_data_nodes_node in Hin as [(s' & -> & [= <- <-])|Hin].
  - pose proof (Hpre _ eq_refl) as Hb.
    assert ((b <? bitlen q)%nat = false) as -> by (apply Nat.ltb_ge; lia).
    assert (prefix_equal s q = true) as -> by (by apply prefix_equal_spec).
    eauto.
  - assert ((b < bitlen q)%nat ∧
      bit_test (add q) b = if decide ((s, d) ∈ data_nodes l) then false else true)
      as [Hb Hbit].
    { destruct Hin as [Hin|Hin].
      - destruct (Hl s (Hchild _ Hin)) as [? Hs]. split; [lia|].
        rewrite decide_True by done. rewrite <-Hs. symmetry.
        eapply bit_test_agree; [done|lia].
      - destruct (Hr s (Hchild _ Hin)) as [? Hs]. split; [lia|].
        rewrite <-(bit_test_agree _ _ _ b Hbits) by lia. rewrite Hs.
        case_decide as Hinl; [|done].
        destruct (Hl s (Hchild _ Hinl)) as [_ Hs']. congruence. }
    apply Nat.ltb_lt in Hb. rewrite Hb, Hbit.
    case_decide as Hinl; [by apply IHl|].
    destruct Hin as [Hin|Hin]; [done|by apply IHr].
Qed.

(** [radix_lookup] of a prefix that the exact search finds returns the node
    found and changes nothing. *)
Lemma lookup_walk_existing p n node :
  radix_wf n → search_exact_walk p n = Some node →
  lookup_walk p n = (n, node, false).
Proof.
  intros Hwf Hsearch.
  induction n as [|b pre d l IHl r IHr]; [done|].
  destruct (search_exact_walk_sound _ _ _ Hsearch)
    as (s & Hs & (Hfam & Hlen & Hbits)%prefix_equal_spec & Hin).
  assert (s ∈ prefixes (Node b pre d l r)) as Hins.
  { apply elem_of_prefixes. eauto. }
  destruct (first_prefix_is_Some _ Hwf) as [s0 Hs0]; [done|].
  pose proof (first_prefix_elem _ _ Hs0) as Hin0.
  pose proof (radix_wf_agree _ _ _ _ _ _ _ Hwf Hins Hin0) as Hag.
  pose proof (radix_wf_bitlen _ _ _ _ _ _ Hwf Hins) as Hge.
  pose proof Hwf as (Hpre & Hglue & Hl & Hr & Hagree & Hwl & Hwr)%radix_wf_node.
  rewrite lookup_walk_node. cbv zeta. rewrite Hs0.
  rewrite differ_bit_full; last first.
  { apply comp_with_mask_sym.
    eapply comp_with_mask_trans; [|eapply comp_with_mask_le; [|exact Hbits]; lia].
    apply comp_with_mask_sym. eapply comp_with_mask_le; [|done]. lia. }
  rewrite Nat.ltb_irrefl.
  destruct (Nat.ltb_spec (bitlen p) b) as [?|_]; [lia|].
  simpl in Hsearch. destruct (Nat.ltb_spec b (bitlen p)) as [Hlt|Hnlt].
  - destruct (Nat.eqb_spec (bitlen p) b) as [?|_]; [lia|].
    destruct (bit_test (add p) b).
    + by rewrite (IHr Hwr Hsearch).
    + by rewrite (IHl Hwl Hsearch).
  - assert (bitlen p = b) as -> by lia. rewrite Nat.eqb_refl.
    destruct pre as [s1|]; [|done]. case_match; by simplify_eq.
Qed.

(** When [radix_lookup] returns an existing node, it is the node that the
    exact search finds, provided the families agree. *)
Lemma lookup_walk_found p n t node :
  radix_wf n → (∀ s, s ∈ prefixes n → family s = family p) →
  lookup_walk p n = (t, node, false) →
  search_exact_walk p n = Some node.
Proof.
  revert t node.
  induction n as [|b pre d l IHl r IHr]; intros t node Hwf Hfam H; [done|].
  destruct (first_prefix_is_Some _ Hwf) as [s0 Hs0]; [done|].
  pose proof Hwf as (Hpre & Hglue & Hl & Hr & Hagree & Hwl & Hwr)%radix_wf_node.
  rewrite lookup_walk_node in H. cbv zeta in H. rewrite Hs0 in H.
  pose proof (differ_bit_agree (add p) (add s0) (b `min` bitlen p)) as Hag.
  pose proof (differ_bit_le (add p) (add s0) (b `min` bitlen p)) as Hle.
  destruct (Nat.ltb_spec (differ_bit (add p) (add s0) (b `min` bitlen p))
              (b `min` bitlen p)) as [?|Hdb]; [by destruct (bit_test _ _)|].
  destruct (Nat.ltb_spec (bitlen p) b) as [?|Hlong]; [by destruct (bit_test _ _)|].
  simpl. destruct (Nat.eqb_spec (bitlen p) b) as [Heq|Hne].
  - subst b. rewrite Nat.ltb_irrefl. destruct pre as [s1|]; [|done].
    simplify_eq. simpl in Hs0. simplify_eq.
    assert (prefix_equal s0 p = true) as ->; [|done].
    apply prefix_equal_spec. split_and!.
    + apply Hfam, elem_of_prefixes_node. by left.
    + by apply Hpre.
    + rewrite (Hpre _ eq_refl). apply comp_with_mask_sym.
      replace (differ_bit _ _ _) with (bitlen p) in Hag by lia. done.
  - destruct (Nat.ltb_spec b (bitlen p)) as [_|?]; [|lia].
    destruct (bit_test (add p) b).
    + destruct (lookup_walk p r) as [[r' node'] c'] eqn:Hr'. simplify_eq.
      eapply IHr; [done| |done]. intros s Hs. apply Hfam.
      apply elem_of_prefixes_node. auto.
    + destruct (lookup_walk p l) as [[l' node'] c'] eqn:Hl'. simplify_eq.
      eapply IHl; [done| |done]. intros s Hs. apply Hfam.
      apply elem_of_prefixes_node. auto.
Qed.

(** After [radix_lookup] created the node of [p] and its [data] was stored,
    the exact search for [p] returns that node. *)
Lemma search_exact_walk_created p h n t node :
  lookup_walk p n = (t, node, true) →
  ∃ node', search_exact_walk p (set_data p h t) = Some node' ∧
           node_prefix node' = Some p ∧ node_data node' = Some h.
Proof.
  revert t node. induction n as [|b pre d l IHl r IHr]; intros t node H.
  { simpl in H. simplify_eq. simpl. rewrite Nat.ltb_irrefl. simpl.
    rewrite Nat.ltb_irrefl, prefix_equal_refl. eauto. }
  rewrite lookup_walk_node in H. cbv zeta in H.
  pose proof (Nat.le_min_r b (bitlen p)).
  generalize dependent (match first_prefix (Node b pre d l r) with
                        | Some s => differ_bit (add p) (add s) (b `min` bitlen p)
                        | None => (b `min` bitlen p)%nat
                        end).
  generalize (match first_prefix (Node b pre d l r) with
              | Some s => bit_test (add s) (bitlen p)
              | None => false
              end).
  intros side db H.
  destruct (Nat.ltb_spec db (b `min` bitlen p)) as [Hlt|Hge].
  { assert ((db <? bitlen p)%nat = true) as Hdb by (apply Nat.ltb_lt; lia).
    destruct (bit_test (add p) db) eqn:Hbit; simplify_eq;
      repeat (progress (cbn [set_data search_exact_walk new_node];
        rewrite ?Hdb, ?Hbit, ?Nat.ltb_irrefl, ?prefix_equal_refl)); eauto. }
  destruct (Nat.ltb_spec (bitlen p) b) as [Hshort|Hlong].
  { destruct side; simplify_eq;
      repeat (progress (cbn [set_data search_exact_walk new_node];
        rewrite ?Nat.ltb_irrefl, ?prefix_equal_refl)); eauto. }
  destruct (Nat.eqb_spec (bitlen p) b) as [Heq|Hne].
  { destruct pre; simplify_eq.
    repeat (progress (cbn [set_data search_exact_walk new_node];
      rewrite ?Nat.ltb_irrefl, ?prefix_equal_refl)); eauto. }
  assert ((b <? bitlen p)%nat = true) as Hb by (apply Nat.ltb_lt; lia).
  destruct (bit_test (add p) b) eqn:Hbit.
  - destruct (lookup_walk p r) as [[r' node'] c'] eqn:Hr'. simplify_eq.
    cbn [set_data]. rewrite Hb, Hbit. cbn [search_exact_walk].
    rewrite Hb, Hbit. by eapply IHr.
  - destruct (lookup_walk p l) as [[l' node'] c'] eqn:Hl'. simplify_eq.
    cbn [set_data]. rewrite Hb, Hbit. cbn [search_exact_walk].
    rewrite Hb, Hbit. by eapply IHl.
Qed.

(** ** Longest-prefix match *)



(** What the walk returns is the candidate it was given or a data node of
    the subtree. *)
Lemma search_best_walk_node q n best :
  search_best_walk q n best = best ∨
  ∃ node s, search_best_walk q n best = Some node ∧
            node_prefix node = Some s ∧ (s, node_data node) ∈ data_nodes n.
Proof.
  revert best. induction n as [|b pre d l IHl r IHr]; intros best; [by left|].
  assert (Hhere : ∀ best' : option radix_node_t,
    best' = match pre with
            | Some s => if comp_with_mask (add s) (add q) (bitlen s)
                        then Some (Node b pre d l r) else best
            | None => best
            end →
    best' = best ∨
    ∃ node s, best' = Some node ∧ node_prefix node = Some s ∧
              (s, node_data node) ∈ data_nodes (Node b pre d l r)).
  { intros best' ->. destruct pre as [s|]; [|by left].
    destruct (comp_with_mask _ _ _); [|by left].
    right. exists (Node b (Some s) d l r), s. split_and!; try done.
    apply elem_of_data_nodes_node. left. eauto. }
  assert (Hchild : ∀ c best', (c = l ∨ c = r) →
    (search_best_walk q c best' = best' ∨
     ∃ node s, search_best_walk q c best' = Some node ∧
               node_prefix node = Some s ∧ (s, node_data node) ∈ data_nodes c) →
    best' = match pre with
            | Some s => if comp_with_mask (add s) (add q) (bitlen s)
                        then Some (Node b pre d l r) else best
            | None => best
            end →
    search_best_walk q c best' = best ∨
    ∃ node s, search_best_walk q c best' = Some node ∧
              node_prefix node = Some s ∧
              (s, node_data node) ∈ data_nodes (Node b pre d l r)).
  { intros c best' Hc [->|(node & s & -> & Hs & Hin)] Hbest.
    - by apply Hhere.
    - right. exists node, s. split_and!; try done.
      apply elem_of_data_nodes_node. destruct Hc as [-> | ->]; auto. }
  simpl. destruct (b <? bitlen q)%nat; [|by apply Hhere].
  destruct (bit_test (add q) b).
  - eapply (Hchild r); [by right|apply IHr|done].
  - eapply (Hchild l); [by left|apply IHl|done].
Qed.



(** ** Removal *)

Lemma compact_data_nodes b pre d l r :
  data_nodes (compact b pre d l r) = data_nodes (Node b pre d l r).
Proof.
  destruct pre, l, r; simpl; by rewrite ?app_nil_r.
Qed.

Lemma compact_prefixes b pre d l r :
  prefixes (compact b pre d l r) = prefixes (Node b pre d l r).
Proof. by rewrite !prefixes_data_nodes, compact_data_nodes. Qed.

Lemma compact_wf b pre d l r :
  (∀ s, pre = Some s → bitlen s = b) →
  (∀ s, s ∈ prefixes l → (b < bitlen s)%nat ∧ bit_test (add s) b = false) →
  (∀ s, s ∈ prefixes r → (b < bitlen s)%nat ∧ bit_test (add s) b = true) →
  (∀ s s', s ∈ prefixes (Node b pre d l r) →
           s' ∈ prefixes (Node b pre d l r) →
           comp_with_mask (add s) (add s') b = true) →
  radix_wf l → radix_wf r → radix_wf (compact b pre d l r).
Proof.
  intros Hpre Hl Hr Hagree Hwl Hwr.
  destruct pre as [s|], l as [|lb lp ld ll lr], r as [|rb rp rd rl rr];
    try done; by apply radix_wf_node.
Qed.

(** The prefixes after a removal were there before. *)
Lemma remove_walk_prefixes q n s :
  s ∈ prefixes (remove_walk q n) → s ∈ prefixes n.
Proof.
  induction n as [|b pre d l IHl r IHr]; [done|]. cbn [remove_walk].
  destruct (b <? bitlen q)%nat.
  - destruct (bit_test (add q) b); rewrite compact_prefixes;
      rewrite !elem_of_prefixes_node; naive_solver.
  - rewrite (elem_of_prefixes_node _ b pre d l r).
    destruct l, r; rewrite ?elem_of_prefixes_node; naive_solver.
Qed.

(** [radix_remove] keeps the tree well formed. *)
Lemma remove_walk_wf q n : radix_wf n → radix_wf (remove_walk q n).
Proof.
  induction n as [|b pre d l IHl r IHr]; [done|].
  intros (Hpre & Hglue & Hl & Hr & Hagree & Hwl & Hwr)%radix_wf_node.
  cbn [remove_walk]. destruct (b <? bitlen q)%nat.
  - destruct (bit_test (add q) b); apply compact_wf; auto.
    + intros s Hs%remove_walk_prefixes. auto.
    + intros s s' Hs Hs'. apply Hagree;
        [clear Hs'; revert Hs|clear Hs; revert Hs'];
        rewrite !elem_of_prefixes_node;
        (intros [?|[?|?]]; eauto using remove_walk_prefixes).
    + intros s Hs%remove_walk_prefixes. auto.
    + intros s s' Hs Hs'. apply Hagree;
        [clear Hs'; revert Hs|clear Hs; revert Hs'];
        rewrite !elem_of_prefixes_node;
        (intros [?|[?|?]]; eauto using remove_walk_prefixes).
  - destruct l as [|lb lp ld ll lr], r as [|rb rp rd rl rr]; try done.
    apply radix_wf_node. split_and!; try done.
    intros s s' Hs Hs'. apply Hagree;
      [clear Hs'; revert Hs|clear Hs; revert Hs'];
      rewrite !(elem_of_prefixes_node _ b); (intros [?|[?|?]]; eauto; done).
Qed.

(** [radix_remove] takes out the data node that the exact search found,
    and no other. *)
Lemma remove_walk_data_nodes q n node :
  search_exact_walk q n = Some node → node_prefix node = Some q →
  data_nodes n ≡ₚ (q, node_data node) :: data_nodes (remove_walk q n).
Proof.
  induction n as [|b pre d l IHl r IHr]; [done|]. simpl.
  destruct (b <? bitlen q)%nat.
  - destruct (bit_test (add q) b); intros Hs Hp; rewrite compact_data_nodes;
      simpl.
    + rewrite (IHr Hs Hp) at 1. solve_Permutation.
    + rewrite (IHl Hs Hp) at 1. solve_Permutation.
  - destruct pre as [s|]; [|done]. destruct (prefix_equal s q); [|done].
    intros [= <-] [= ->]. simpl.
    destruct l, r; simpl; by rewrite ?app_nil_r.
Qed.

(** ** Canonical prefixes *)

Lemma prefix_valid_spec p :
  prefix_valid p = true ↔
  (bitlen p ≤ family_maxbits (family p))%nat ∧
  length (add p) = family_bytes (family p) ∧
  Forall (fun b => 0 ≤ b < 256) (add p) ∧
  ∀ i, (bitlen p ≤ i < family_maxbits (family p))%nat →
       bit_test (add p) i = false.
Proof.
  unfold prefix_valid. rewrite !andb_true_iff, Nat.leb_le, Nat.eqb_eq.
  rewrite !forallb_forall, Forall_forall.
  assert ((∀ x, In x (add p) → (0 <=? x) && (x <? 256) = true) ↔
          (∀ x, x ∈ add p → 0 ≤ x < 256)) as ->.
  { apply forall_proper. intros x. rewrite list_elem_of_In.
    rewrite andb_true_iff, Z.leb_le, Z.ltb_lt. done. }
  assert ((∀ x, In x (seq (bitlen p) (family_maxbits (family p) - bitlen p)) →
             negb (bit_test (add p) x) = true) ↔
          (∀ i, (bitlen p ≤ i < family_maxbits (family p))%nat →
             bit_test (add p) i = false)) as ->.
  { apply forall_proper. intros i. rewrite in_seq, negb_true_iff.
    split; intros H ?; apply H; lia. }
  naive_solver.
Qed.

Lemma family_maxbits_bytes f : family_maxbits f = (8 * family_bytes f)%nat.
Proof. by destruct f. Qed.

(** A byte is determined by its eight bits. *)
Lemma byte_eq_of_bits x y :
  0 ≤ x < 256 → 0 ≤ y < 256 →
  (∀ j, 0 ≤ j < 8 → Z.testbit x (7 - j) = Z.testbit y (7 - j)) → x = y.
Proof.
  intros Hx Hy H. apply Z.bits_inj'. intros n Hn.
  destruct (decide (n < 8)) as [Hlt|Hge].
  - replace n with (7 - (7 - n)) by lia. apply H. lia.
  - rewrite <-(Z.mod_small x (2 ^ 8)), <-(Z.mod_small y (2 ^ 8)) by lia.
    rewrite !Z.mod_pow2_bits_high by lia. done.
Qed.

(** Addresses of the same length made of bytes are equal when all their
    bits are. *)
Lemma add_eq_of_bits (a b : list Z) :
  length a = length b →
  Forall (fun x => 0 ≤ x < 256) a → Forall (fun x => 0 ≤ x < 256) b →
  (∀ i, (i < 8 * length a)%nat → bit_test a i = bit_test b i) → a = b.
Proof.
  intros Hlen Ha Hb Hbits. apply (nth_ext _ _ 0 0 Hlen). intros k Hk.
  rewrite Forall_forall in Ha, Hb.
  apply byte_eq_of_bits.
  - apply Ha, list_elem_of_In, nth_In. lia.
  - apply Hb, list_elem_of_In, nth_In. lia.
  - intros j Hj. specialize (Hbits (8 * k + Z.to_nat j)%nat).
    unfold bit_test in Hbits.
    replace ((8 * k + Z.to_nat j) / 8)%nat with k in Hbits
      by (apply Nat.div_unique with (Z.to_nat j); lia).
    replace ((8 * k + Z.to_nat j) mod 8)%nat with (Z.to_nat j) in Hbits
      by (apply Nat.mod_unique with k; lia).
    rewrite Z2Nat.id in Hbits by lia. apply Hbits. lia.
Qed.

(** Two valid prefixes that are equal in family, length and significant
    bits are the same prefix. *)
Lemma prefix_equal_eq p q :
  prefix_valid p = true → prefix_valid q = true →
  prefix_equal p q = true → p = q.
Proof.
  intros (Hlp & Hbp & Hrp & Hzp)%prefix_valid_spec
         (Hlq & Hbq & Hrq & Hzq)%prefix_valid_spec
         (Hfam & Hlen & Hbits)%prefix_equal_spec.
  destruct p as [pf pl pa], q as [qf ql qa]. simpl in *. subst qf ql.
  f_equal. apply add_eq_of_bits; try done; [congruence|].
  intros i Hi. rewrite Hbp, <-family_maxbits_bytes in Hi.
  destruct (decide (i < pl)%nat) as [Hlt|Hge].
  - by eapply bit_test_agree.
  - rewrite Hzp, Hzq by lia. done.
Qed.

(** ** Glue nodes *)

Lemma lookup_walk_glue p n t node c :
  glue_clean n → lookup_walk p n = (t, node, c) →
  glue_clean t ∧ (c = true → node_data node = None).
Proof.
  revert t node c. induction n as [|b pre d l IHl r IHr]; intros t node c Hg H.
  { simpl in H. by simplify_eq. }
  pose proof Hg as (Hd & Hgl & Hgr).
  rewrite lookup_walk_node in H. cbv zeta in H. walk_cases H; simpl; try done.
  - split; [done|]. auto.
  - destruct (IHr _ _ _ Hgr eq_refl). done.
  - destruct (IHl _ _ _ Hgl eq_refl). done.
Qed.

Lemma set_data_glue p h n node :
  search_exact_walk p (set_data p h n) = Some node →
  glue_clean n → glue_clean (set_data p h n).
Proof.
  induction n as [|b pre d l IHl r IHr]; [done|]. simpl.
  destruct (b <? bitlen p)%nat eqn:Hb.
  - destruct (bit_test (add p) b) eqn:Hbit; simpl; rewrite Hb, Hbit;
      intros Hs (Hd & Hgl & Hgr); auto.
  - simpl. rewrite Hb. destruct pre; [|done]. by intros _ (Hd & Hgl & Hgr).
Qed.

Lemma remove_walk_glue q n : glue_clean n → glue_clean (remove_walk q n).
Proof.
  induction n as [|b pre d l IHl r IHr]; [done|]. intros (Hd & Hgl & Hgr).
  assert (∀ l' r', glue_clean l' → glue_clean r' →
            glue_clean (compact b pre d l' r')) as Hcompact.
  { intros l' r' Hl' Hr'. destruct pre, l', r'; done. }
  simpl. destruct (b <? bitlen q)%nat.
  - destruct (bit_test (add q) b); auto.
  - destruct l, r; done.
Qed.

(** ** The store of the handles *)

Lemma obj_ident_set_refcnt o c : obj_ident (obj_set_refcnt o c) = obj_ident o.
Proof. done. Qed.

Lemma Py_INCREF_ident h h' (hp : gmap loc RadixNodeObject) :
  obj_ident <$> Py_INCREF h' hp !! h = obj_ident <$> hp !! h.
Proof.
  unfold Py_INCREF. destruct (hp !! h') as [o|] eqn:Ho; [|done].
  destruct (decide (h' = h)) as [->|Hne].
  - by rewrite lookup_insert_eq, Ho.
  - by rewrite lookup_insert_ne.
Qed.

Lemma clear_rn_ident h h' (hp : gmap loc RadixNodeObject) :
  obj_ident <$> clear_rn h' hp !! h = obj_ident <$> hp !! h.
Proof.
  unfold clear_rn. destruct (hp !! h') as [o|] eqn:Ho; [|done].
  destruct (decide (h' = h)) as [->|Hne].
  - by rewrite lookup_insert_eq, Ho.
  - by rewrite lookup_insert_ne.
Qed.

Lemma Py_DECREF_ident_ne h h' (hp : gmap loc RadixNodeObject) :
  h' ≠ h → obj_ident <$> Py_DECREF h' hp !! h = obj_ident <$> hp !! h.
Proof.
  intros Hne. unfold Py_DECREF. destruct (hp !! h') as [o|]; [|done].
  destruct (obj_refcnt o - 1 =? 0).
  - by rewrite lookup_delete_ne.
  - by rewrite lookup_insert_ne.
Qed.

Lemma Py_DECREF_ident_shared h h' (hp : gmap loc RadixNodeObject) o :
  hp !! h' = Some o → 1 < obj_refcnt o →
  obj_ident <$> Py_DECREF h' hp !! h = obj_ident <$> hp !! h.
Proof.
  intros Ho Hcnt. unfold Py_DECREF. rewrite Ho.
  destruct (Z.eqb_spec (obj_refcnt o - 1) 0) as [?|_]; [lia|].
  destruct (decide (h' = h)) as [->|Hne].
  - by rewrite lookup_insert_eq, Ho.
  - by rewrite lookup_insert_ne.
Qed.

Lemma foldr_Py_INCREF_ident h hs (hp : gmap loc RadixNodeObject) :
  obj_ident <$> foldr Py_INCREF hp hs !! h = obj_ident <$> hp !! h.
Proof.
  induction hs as [|h' hs IH]; [done|]. simpl. by rewrite Py_INCREF_ident.
Qed.

Lemma data_setitem_ident h h' k v w :
  obj_ident <$> heap (data_setitem h' k v w) !! h = obj_ident <$> heap w !! h.
Proof.
  unfold data_setitem. destruct (heap w !! h') as [o|] eqn:Ho; [|done]. simpl.
  destruct (decide (h' = h)) as [->|Hne].
  - by rewrite lookup_insert_eq, Ho.
  - by rewrite lookup_insert_ne.
Qed.

Lemma elem_of_walk_handles h n :
  h ∈ walk_handles n ↔ ∃ s, (s, Some h) ∈ data_nodes n.
Proof.
  unfold walk_handles, RADIX_WALK. rewrite list_elem_of_omap. split.
  - intros ([s d] & Hin & Hd). simpl in Hd. subst d. eauto.
  - intros [s Hin]. by exists (s, Some h).
Qed.

(** A state stays good when the tree and the identity of its handles stay. *)
Lemma world_ok_frame w w' :
  world_ok w →
  rt (self w') = rt (self w) → tree_family (self w') = tree_family (self w) →
  (∀ h, h ∈ tree_handles w →
        obj_ident <$> heap w' !! h = obj_ident <$> heap w !! h) →
  world_ok w'.
Proof.
  intros [Hwf Hglue Hfam Hdata Hnodup Hcount] Hrt Hf Hheap.
  split; rewrite ?Hrt, ?Hf; try done.
  intros s d Hin. destruct (Hdata s d Hin) as (h & -> & Hh).
  exists h. split; [done|]. rewrite Hheap; [done|].
  apply elem_of_walk_handles. eauto.
Qed.

(** ** [Radix_add] *)

Lemma family_code_inj f f' : family_code f = family_code f' → f = f'.
Proof. by destruct f, f'. Qed.

Lemma family_code_bound f : family_code f ≠ -1.
Proof. by destruct f. Qed.

Lemma set_rt_id o : set_rt o (RadixTree (head (rt o)) (count (rt o))) = o.
Proof. by destruct o as [? [] ? ?]. Qed.

Lemma Radix_add_unfold w p :
  Radix_add w p =
  match add_family (self w) p with
  | None => (Raise ValueError, w)
  | Some self1 =>
      let '(t, node, created) := lookup_walk p (head (rt self1)) in
      let t := RadixTree t (if created then count (rt self1) + 1
                            else count (rt self1)) in
      match node_data node with
      | None =>
          match newRadixNodeObject node with
          | None => (Raise SystemError, World (set_rt self1 t) (heap w))
          | Some node_obj =>
              let h := fresh (dom (heap w)) in
              (Return h,
               World (bump_gen_id (set_rt self1 (assign_data node h t)))
                     (Py_INCREF h (<[h := node_obj]> (heap w))))
          end
      | Some h =>
          (Return h, World (bump_gen_id (set_rt self1 t)) (Py_INCREF h (heap w)))
      end
  end.
Proof.
  unfold Radix_add, radix_lookup.
  repeat case_match; simplify_eq; done.
Qed.

(** Adding a prefix that the exact search finds returns the handle of the
    node found; only [gen_id] and the reference count of the handle
    change. *)
Lemma Radix_add_existing w p node h :
  world_ok w →
  search_exact_walk p (head (rt (self w))) = Some node →
  node_data node = Some h →
  Radix_add w p =
    (Return h, World (bump_gen_id (self w)) (Py_INCREF h (heap w))).
Proof.
  intros [Hwf Hglue Hfam Hdata Hnodup Hcount] Hsearch Hh.
  destruct (search_exact_walk_sound _ _ _ Hsearch)
    as (s & Hs & (Hf & _)%prefix_equal_spec & Hin).
  destruct (Hfam _ _ Hin) as [_ Hcode].
  rewrite Radix_add_unfold. unfold add_family.
  pose proof (family_code_bound (family s)).
  destruct (Z.eqb_spec (tree_family (self w)) (-1)) as [?|_]; [congruence|].
  destruct (Z.eqb_spec (family_code (family p)) (tree_family (self w)))
    as [_|?]; [|congruence].
  simpl. rewrite (lookup_walk_existing _ _ _ Hwf Hsearch), Hh.
  by rewrite set_rt_id.
Qed.

(** Adding a valid prefix of the tree's family that the exact search does
    not find creates its node and a new handle. *)
Lemma Radix_add_new w p :
  world_ok w → prefix_valid p = true →
  tree_family (self w) = -1 ∨ tree_family (self w) = family_code (family p) →
  search_exact_walk p (head (rt (self w))) = None →
  ∃ t node obj,
    lookup_walk p (head (rt (self w))) = (t, node, true) ∧
    newRadixNodeObject (new_node p) = Some obj ∧
    Radix_add w p =
      (Return (fresh (dom (heap w))),
       World (Radix (ob_refcnt (self w))
                (RadixTree (set_data p (fresh (dom (heap w))) t)
                           (count (rt (self w)) + 1))
                (family_code (family p))
                (gen_id_incr (gen_id (self w))))
             (Py_INCREF (fresh (dom (heap w)))
                (<[fresh (dom (heap w)) := obj]> (heap w)))).
Proof.
  intros [Hwf Hglue Hfam Hdata Hnodup Hcount] Hvalid Hf Hsearch.
  destruct (lookup_walk p (head (rt (self w)))) as [[t node] c] eqn:Hlook.
  assert (Hfams : ∀ s, s ∈ prefixes (head (rt (self w))) → family s = family p).
  { intros s [d Hin]%elem_of_prefixes. destruct (Hfam _ _ Hin) as [_ Hcode].
    pose proof (family_code_bound (family s)).
    apply family_code_inj. destruct Hf; congruence. }
  destruct c; last first.
  { rewrite (lookup_walk_found _ _ _ _ Hwf Hfams Hlook) in Hsearch. done. }
  destruct (lookup_walk_data_nodes _ _ _ _ _ Hlook) as (_ & Hnp & _).
  destruct (lookup_walk_glue _ _ _ _ _ Hglue Hlook) as [_ Hnd].
  specialize (Hnd eq_refl).
  exists t, node. eexists. split; [done|]. split; [done|].
  rewrite Radix_add_unfold.
  assert (∃ self1, add_family (self w) p = Some self1 ∧
            rt self1 = rt (self w) ∧ ob_refcnt self1 = ob_refcnt (self w) ∧
            gen_id self1 = gen_id (self w) ∧
            tree_family self1 = family_code (family p))
    as (self1 & -> & Hrt1 & Hrc1 & Hg1 & Hf1).
  { unfold add_family.
    destruct (Z.eqb_spec (tree_family (self w)) (-1)) as [?|Hne]; [by eexists|].
    destruct Hf as [?|Hf]; [done|]. rewrite Hf, Z.eqb_refl. simpl.
    eexists. split_and!; try done. }
  rewrite Hrt1, Hlook, Hnd. unfold newRadixNodeObject, assign_data.
  rewrite Hnp. simpl. unfold bump_gen_id, set_rt. simpl.
  by rewrite Hrc1, Hg1, Hf1.
Qed.

Lemma world_ok_new : world_ok newRadixObject.
Proof.
  split; simpl; try done.
  - intros s d Hin. by apply elem_of_nil in Hin.
  - intros s d Hin. by apply elem_of_nil in Hin.
  - constructor.
Qed.

Lemma add_family_None o p :
  add_family o p = None ↔
  tree_family o ≠ -1 ∧ family_code (family p) ≠ tree_family o.
Proof.
  unfold add_family.
  destruct (Z.eqb_spec (tree_family o) (-1)),
    (Z.eqb_spec (family_code (family p)) (tree_family o)); naive_solver.
Qed.

(** The handles of the tree are in the store. *)
Lemma world_ok_handle_live w s h :
  world_ok w → (s, Some h) ∈ data_nodes (head (rt (self w))) →
  is_Some (heap w !! h).
Proof.
  intros Hok Hin. destruct (ok_data _ Hok _ _ Hin) as (h' & [= <-] & Hh).
  destruct (heap w !! h); [by eexists|done].
Qed.

Lemma Radix_add_ok w p :
  world_ok w → prefix_valid p = true → world_ok (Radix_add w p).2.
Proof.
  intros Hok Hvalid.
  destruct (add_family (self w) p) as [self1|] eqn:Hfamily; last first.
  { unfold Radix_add. by rewrite Hfamily. }
  assert (tree_family (self w) = -1 ∨
          tree_family (self w) = family_code (family p)) as Hf.
  { destruct (decide (tree_family (self w) = -1)) as [|Hne]; [by left|right].
    destruct (decide (family_code (family p) = tree_family (self w))); [done|].
    assert (add_family (self w) p = None) by (by apply add_family_None).
    congruence. }
  clear self1 Hfamily.
  destruct (search_exact_walk p (head (rt (self w)))) as [node|] eqn:Hsearch.
  - (* an existing prefix *)
    destruct (search_exact_walk_sound _ _ _ Hsearch) as (s & Hs & _ & Hin).
    destruct (ok_data _ Hok _ _ Hin) as (h & Hh & _).
    rewrite (Radix_add_existing _ _ _ _ Hok Hsearch Hh). simpl.
    apply (world_ok_frame w); try done. intros h' _. apply Py_INCREF_ident.
  - (* a new prefix *)
    destruct (Radix_add_new _ _ Hok Hvalid Hf Hsearch)
      as (t & node & obj & Hlook & Hobj & ->). simpl.
    destruct Hok as [Hwf Hglue Hfam Hdata Hnodup Hcount].
    set (h := fresh (dom (heap w))) in *.
    assert (Hfresh : heap w !! h = None).
    { apply not_elem_of_dom. apply is_fresh. }
    pose proof (set_data_created p h _ _ _ Hlook) as Hperm.
    assert (Hempty : tree_family (self w) = -1 →
                     data_nodes (head (rt (self w))) = []).
    { intros Hunbound.
      destruct (data_nodes (head (rt (self w)))) as [|[s d] ?] eqn:E; [done|].
      destruct (Hfam s d) as [_ Hcode]; [left|].
      pose proof (family_code_bound (family s)). congruence. }
    split; simpl.
    + eapply set_data_wf, lookup_walk_wf; done.
    + destruct (search_exact_walk_created p h _ _ _ Hlook) as (node' & Hs' & _).
      eapply set_data_glue; [done|]. by eapply lookup_walk_glue.
    + intros s d. rewrite Hperm. intros [[= -> ->]|Hin]%elem_of_cons; [done|].
      destruct (Hfam _ _ Hin) as [? Hcode]. split; [done|].
      destruct Hf as [Hunbound|<-]; [|done].
      rewrite (Hempty Hunbound) in Hin. by apply elem_of_nil in Hin.
    + intros s d. rewrite Hperm. intros [[= -> ->]|Hin]%elem_of_cons.
      * exists h. split; [done|]. rewrite Py_INCREF_ident, lookup_insert_eq.
        simpl. unfold newRadixNodeObject in Hobj. simpl in Hobj.
        by simplify_eq.
      * destruct (Hdata _ _ Hin) as (h' & -> & Hh'). exists h'. split; [done|].
        rewrite Py_INCREF_ident, lookup_insert_ne; [done|].
        intros <-. by rewrite Hfresh in Hh'.
    + rewrite Hperm. simpl. apply NoDup_cons. split; [|done].
      intros ([s d] & Hd & Hin)%list_elem_of_fmap. simpl in Hd. subst d.
      destruct (Hdata _ _ Hin) as (h' & [= <-] & Hh').
      by rewrite Hfresh in Hh'.
    + rewrite Hperm. simpl. lia.
Qed.

(** ** [Radix_delete] *)

(** In a good state the exact search for a valid prefix returns the node of
    that very prefix, with its handle. *)
Lemma search_exact_walk_valid w p node :
  world_ok w → prefix_valid p = true →
  search_exact_walk p (head (rt (self w))) = Some node →
  ∃ h, node_prefix node = Some p ∧ node_data node = Some h ∧
       (p, Some h) ∈ data_nodes (head (rt (self w))) ∧
       obj_ident <$> heap w !! h = Some (prefix_ident p).
Proof.
  intros Hok Hvalid Hsearch.
  destruct (search_exact_walk_sound _ _ _ Hsearch) as (s & Hs & Heq & Hin).
  destruct (ok_family _ Hok _ _ Hin) as [Hsv _].
  pose proof (prefix_equal_eq _ _ Hsv Hvalid Heq) as ->.
  destruct (ok_data _ Hok _ _ Hin) as (h & Hh & Hident).
  exists h. rewrite Hh in Hin. done.
Qed.

Lemma Radix_delete_found w p node h :
  world_ok w → prefix_valid p = true →
  search_exact_walk p (head (rt (self w))) = Some node →
  node_data node = Some h →
  Radix_delete w p =
    (Return tt,
     World (Radix (ob_refcnt (self w))
              (RadixTree (remove_walk p (head (rt (self w))))
                         (count (rt (self w)) - 1))
              (tree_family (self w)) (gen_id_incr (gen_id (self w))))
           (Py_DECREF h (clear_rn h (heap w)))).
Proof.
  intros Hok Hvalid Hsearch Hh.
  destruct (search_exact_walk_valid _ _ _ Hok Hvalid Hsearch)
    as (h' & Hp & Hh' & _).
  unfold Radix_delete, radix_search_exact, radix_remove.
  by rewrite Hsearch, Hh, Hp.
Qed.

Lemma Radix_delete_ok w p :
  world_ok w → prefix_valid p = true → world_ok (Radix_delete w p).2.
Proof.
  intros Hok Hvalid.
  destruct (search_exact_walk p (head (rt (self w)))) as [node|] eqn:Hsearch;
    last first.
  { unfold Radix_delete, radix_search_exact. by rewrite Hsearch. }
  destruct (search_exact_walk_valid _ _ _ Hok Hvalid Hsearch)
    as (h & Hp & Hh & Hin & Hident).
  rewrite (Radix_delete_found _ _ _ _ Hok Hvalid Hsearch Hh). simpl.
  pose proof (remove_walk_data_nodes _ _ _ Hsearch Hp) as Hperm.
  rewrite Hh in Hperm.
  destruct Hok as [Hwf Hglue Hfam Hdata Hnodup Hcount].
  assert (Hnd : NoDup (Some h :: (data_nodes (remove_walk p (head (rt (self w))))).*2)).
  { rewrite Hperm in Hnodup. done. }
  apply NoDup_cons in Hnd as [Hnotin Hnd].
  split; simpl.
  - by apply remove_walk_wf.
  - by apply remove_walk_glue.
  - intros s d Hs. apply Hfam with d. rewrite Hperm. by right.
  - intros s d Hs.
    destruct (Hdata s d) as (h' & -> & Hh'); [rewrite Hperm; by right|].
    exists h'. split; [done|].
    rewrite Py_DECREF_ident_ne, clear_rn_ident; [done|].
    intros ->. apply Hnotin. apply list_elem_of_fmap. by exists (s, Some h').
  - done.
  - rewrite Hcount, Hperm. simpl. lia.
Qed.

(** ** The reachable states are good *)

Lemma Radix_search_exact_frame w p :
  self (Radix_search_exact w p).2 = self w ∧
  ∀ h, obj_ident <$> heap (Radix_search_exact w p).2 !! h
       = obj_ident <$> heap w !! h.
Proof.
  unfold Radix_search_exact. repeat case_match; simpl; split; try done.
  intros h. apply Py_INCREF_ident.
Qed.

Lemma Radix_search_best_frame w p :
  self (Radix_search_best w p).2 = self w ∧
  ∀ h, obj_ident <$> heap (Radix_search_best w p).2 !! h
       = obj_ident <$> heap w !! h.
Proof.
  unfold Radix_search_best. repeat case_match; simpl; split; try done.
  intros h. apply Py_INCREF_ident.
Qed.

Lemma RadixIter_iternext_frame it w :
  self (RadixIter_iternext it w).2 = self w ∧
  ∀ h, obj_ident <$> heap (RadixIter_iternext it w).2 !! h
       = obj_ident <$> heap w !! h.
Proof.
  unfold RadixIter_iternext. repeat case_match; simpl; split; try done.
  intros ?. apply Py_INCREF_ident.
Qed.

Theorem reachable_ok w : reachable w → world_ok w.
Proof.
  induction 1 as [|w p _ IH Hv|w p _ IH Hv|w p _ IH|w p _ IH|w _ IH|w _ IH
                  |w _ IH|w it _ IH|w h k v _ IH|w h o _ IH Hh Hown
                  |w w' _ IH Hrel].
  - apply world_ok_new.
  - by apply Radix_add_ok.
  - by apply Radix_delete_ok.
  - destruct (Radix_search_exact_frame w p) as [Hs Hh].
    apply (world_ok_frame w); by rewrite ?Hs.
  - destruct (Radix_search_best_frame w p) as [Hs Hh].
    apply (world_ok_frame w); by rewrite ?Hs.
  - apply (world_ok_frame w); try done. intros h _. simpl.
    apply foldr_Py_INCREF_ident.
  - done.
  - by apply (world_ok_frame w).
  - destruct (RadixIter_iternext_frame it w) as [Hs Hh].
    apply (world_ok_frame w); by rewrite ?Hs.
  - apply (world_ok_frame w); try done.
    + unfold data_setitem. by case_match.
    + unfold data_setitem. by case_match.
    + intros h' _. apply data_setitem_ident.
  - apply (world_ok_frame w); try done. intros h' Hh'. simpl.
    destruct Hown as [Hown|Hown].
    + apply Py_DECREF_ident_ne. by intros ->.
    + by eapply Py_DECREF_ident_shared.
  - unfold Radix_DECREF in Hrel. case_match; simplify_eq.
    by apply (world_ok_frame w).
Qed.

(** ** Handles and families *)

Lemma obj_ident_fields o s :
  obj_ident o = prefix_ident s →
  obj_prefix o = prefix_ntop s ∧ prefixlen o = Z.of_nat (bitlen s) ∧
  obj_family o = family_code (family s).
Proof. unfold obj_ident, prefix_ident. by intros [= _ -> -> -> _]. Qed.

Lemma lookup_ident (hp : gmap loc RadixNodeObject) h i :
  obj_ident <$> hp !! h = Some i → ∃ o, hp !! h = Some o ∧ obj_ident o = i.
Proof. destruct (hp !! h) as [o|]; [|done]. intros [= <-]. eauto. Qed.

Lemma add_family_bound o p o' :
  add_family o p = Some o' →
  tree_family o' = family_code (family p) ∧
  (tree_family o ≠ -1 → o' = o).
Proof.
  unfold add_family.
  destruct (Z.eqb_spec (tree_family o) (-1)) as [Hu|Hb].
  - intros [= <-]. done.
  - destruct (Z.eqb_spec (family_code (family p)) (tree_family o)); [|done].
    intros [= <-]. done.
Qed.

Lemma Radix_add_family w p :
  tree_family (self (Radix_add w p).2) =
  match add_family (self w) p with
  | Some _ => family_code (family p)
  | None => tree_family (self w)
  end.
Proof.
  rewrite Radix_add_unfold.
  destruct (add_family (self w) p) as [self1|] eqn:Hf; [|done].
  apply add_family_bound in Hf as [Hf _].
  repeat case_match; done.
Qed.

Lemma Radix_delete_family w p :
  tree_family (self (Radix_delete w p).2) = tree_family (self w).
Proof. unfold Radix_delete. by case_match. Qed.

(** A delete of a prefix that is not in the tree raises KeyError and
    changes nothing. *)
Lemma Radix_delete_not_found w p :
  (∀ s d, (s, d) ∈ data_nodes (head (rt (self w))) →
          prefix_equal s p = false) →
  Radix_delete w p = (Raise KeyError, w).
Proof.
  intros Habsent. unfold Radix_delete, radix_search_exact.
  destruct (search_exact_walk p (head (rt (self w)))) as [node|] eqn:Hsearch;
    [|done].
  destruct (search_exact_walk_sound _ _ _ Hsearch) as (s & _ & Heq & Hin).
  by rewrite (Habsent _ _ Hin) in Heq.
Qed.

(** ** The iterator's stack *)

Lemma iter_next_node_ok H stack b pre d l r :
  (H ≤ RADIX_MAXBITS + 1)%nat → iter_ok H stack (Node b pre d l r) →
  ∃ stack' rn', iter_next_node stack l r = Some (stack', rn') ∧
                iter_ok H stack' rn'.
Proof.
  intros HH [Hrn Hst]. simpl in Hrn. unfold iter_next_node.
  destruct l as [|lb lp ld ll lr], r as [|rb rp rd rl rr].
  - destruct stack as [|top stack].
    + eexists _, _. split; [done|]. split; simpl; [lia|done].
    + destruct Hst as [Htop Hst]. eexists _, _. split; [done|]. by split.
  - eexists _, _. split; [done|]. split; [|done]. simpl in *. lia.
  - eexists _, _. split; [done|]. split; [|done]. simpl in *. lia.
  - destruct (Nat.ltb_spec (length stack) (RADIX_MAXBITS + 1)) as [_|Hfull].
    + eexists _, _. split; [done|]. split; [|split; [|done]]; simpl in *; lia.
    + simpl in *. lia.
Qed.

Lemma iternext_again_ok H fuel stack rn :
  (H ≤ RADIX_MAXBITS + 1)%nat → iter_ok H stack rn →
  (iternext_again fuel stack rn).1.1 ≠ OutOfBounds ∧
  iter_ok H (iternext_again fuel stack rn).1.2 (iternext_again fuel stack rn).2.
Proof.
  intros HH. revert stack rn.
  induction fuel as [|fuel IH]; intros stack [|b pre d l r] Hok; try done.
  - destruct (iter_next_node_ok _ _ _ _ _ _ _ HH Hok) as (st & rn & E & Hok').
    simpl. rewrite E. by destruct pre, d.
  - destruct (iter_next_node_ok _ _ _ _ _ _ _ HH Hok) as (st & rn & E & Hok').
    simpl. rewrite E. destruct pre, d; try done; by apply IH.
Qed.

Lemma RadixIter_iternext_ok H it w :
  (H ≤ RADIX_MAXBITS + 1)%nat → iter_ok H (iterstack it) (iter_rn it) →
  (RadixIter_iternext it w).1.1 ≠ OutOfBounds ∧
  iter_ok H (iterstack (RadixIter_iternext it w).1.2)
           (iter_rn (RadixIter_iternext it w).1.2).
Proof.
  intros HH Hok. unfold RadixIter_iternext.
  destruct (negb _); [done|].
  destruct (iternext_again_ok H (nodes_left (iterstack it) (iter_rn it))
              _ _ HH Hok) as [Hres Hok'].
  destruct (iternext_again _ _ _) as [[res stack] rn]. simpl in *.
  by destruct res.
Qed.

Lemma iter_ok_length H stack rn :
  iter_ok H stack rn → (length stack ≤ H)%nat.
Proof. intros [? _]. lia. Qed.

(** The loop of [RadixIter_iternext] never runs out of turns: each turn
    visits one of the nodes left, and more fuel than nodes left gives the
    same result. *)
Lemma iter_next_node_left stack b pre d l r stack' rn' :
  iter_next_node stack l r = Some (stack', rn') →
  nodes_left stack (Node b pre d l r) = S (nodes_left stack' rn').
Proof.
  unfold iter_next_node, nodes_left.
  destruct l as [|lb lp ld ll lr], r as [|rb rp rd rl rr].
  - destruct stack as [|top stack]; intros [= <- <-]; csimpl; lia.
  - intros [= <- <-]. csimpl. lia.
  - intros [= <- <-]. csimpl. lia.
  - case_match; [|done]. intros [= <- <-]. csimpl. lia.
Qed.

Lemma nodes_left_pos stack b pre d l r :
  (1 ≤ nodes_left stack (Node b pre d l r))%nat.
Proof. unfold nodes_left. cbn [node_count]. lia. Qed.

Lemma iternext_again_fuel fuel fuel' stack rn :
  (nodes_left stack rn ≤ fuel)%nat → (nodes_left stack rn ≤ fuel')%nat →
  iternext_again fuel stack rn = iternext_again fuel' stack rn.
Proof.
  revert fuel' stack rn.
  induction fuel as [|fuel IH]; intros fuel' stack [|b pre d l r] Hf Hf';
    destruct fuel'; try done;
    try (pose proof (nodes_left_pos stack b pre d l r); lia).
  simpl. destruct (iter_next_node stack l r) as [[stack' rn']|] eqn:E; [|done].
  apply (iter_next_node_left _ b pre d) in E.
  destruct pre, d; try done; apply IH; lia.
Qed.

(** ** The generation seen by an iterator *)

Lemma RadixIter_iternext_mismatch it w :
  iter_gen_id it ≠ gen_id (self w) →
  RadixIter_iternext it w = (IterRaise RuntimeWarning, it, w).
Proof.
  intros Hne. unfold RadixIter_iternext.
  by destruct (Z.eqb_spec (iter_gen_id it) (gen_id (self w))).
Qed.

Lemma RadixIter_iternext_match it w :
  iter_gen_id it = gen_id (self w) →
  (RadixIter_iternext it w).1.1 =
  (iternext_again (nodes_left (iterstack it) (iter_rn it))
     (iterstack it) (iter_rn it)).1.1.
Proof.
  intros Heq. unfold RadixIter_iternext. rewrite Heq, Z.eqb_refl. simpl.
  destruct (iternext_again _ _ _) as [[res stack] rn]. by destruct res.
Qed.

Lemma RadixIter_iternext_gen_id it w :
  iter_gen_id (RadixIter_iternext it w).1.2 = iter_gen_id it.
Proof.
  unfold RadixIter_iternext. destruct (negb _); [done|].
  destruct (iternext_again _ _ _) as [[res stack] rn]. by destruct res.
Qed.

Lemma run_read_gen_id c st :
  gen_id (self (run_read c st).1) = gen_id (self st.1) ∧
  iter_gen_id (run_read c st).2 = iter_gen_id st.2.
Proof.
  destruct c as [q|q| | |], st as [w it]; simpl; try done.
  - by destruct (Radix_search_exact_frame w q) as [-> _].
  - by destruct (Radix_search_best_frame w q) as [-> _].
  - destruct (RadixIter_iternext_frame it w) as [Hs _].
    pose proof (RadixIter_iternext_gen_id it w) as Hg.
    destruct (RadixIter_iternext it w) as [[? ?] ?]; simpl in *.
    by rewrite Hs.
Qed.

Lemma Radix_add_gen_id w p :
  gen_id (self (Radix_add w p).2) =
  if returned (Radix_add w p).1 then gen_id_incr (gen_id (self w))
  else gen_id (self w).
Proof.
  rewrite Radix_add_unfold.
  destruct (add_family (self w) p) as [self1|] eqn:Hf; [|done].
  assert (gen_id self1 = gen_id (self w)) as <-.
  { unfold add_family in Hf. repeat case_match; by simplify_eq. }
  repeat case_match; done.
Qed.

Lemma Radix_delete_gen_id w p :
  gen_id (self (Radix_delete w p).2) =
  if returned (Radix_delete w p).1 then gen_id_incr (gen_id (self w))
  else gen_id (self w).
Proof. unfold Radix_delete. by case_match. Qed.

Lemma run_call_gen_id c st :
  gen_id (self (run_call c st).1.1) =
    (if (run_call c st).2 then gen_id_incr (gen_id (self st.1))
     else gen_id (self st.1)) ∧
  iter_gen_id (run_call c st).1.2 = iter_gen_id st.2.
Proof.
  destruct c as [c|p|p]; simpl.
  - apply run_read_gen_id.
  - pose proof (Radix_add_gen_id st.1 p).
    by destruct (Radix_add st.1 p).
  - pose proof (Radix_delete_gen_id st.1 p).
    by destruct (Radix_delete st.1 p).
Qed.

(** After a sequence of calls, the generation of the tree has been
    incremented once for each insert and delete that returned, and the
    generation kept by the iterator is the one of its creation. *)
Lemma run_calls_gen_id cs st :
  gen_id (self (run_calls cs st).1.1) =
    Nat.iter (run_calls cs st).2 gen_id_incr (gen_id (self st.1)) ∧
  iter_gen_id (run_calls cs st).1.2 = iter_gen_id st.2.
Proof.
  revert st. induction cs as [|c cs IH]; intros st; [done|].
  cbn [run_calls]. destruct (run_call_gen_id c st) as [Hg Hi].
  destruct (run_call c st) as [st' b]. specialize (IH st').
  destruct (run_calls cs st') as [st'' k]. simpl in *.
  destruct IH as [-> ->]. split; [|done]. rewrite Hg.
  destruct b; [|done]. by rewrite Nat.iter_succ_r.
Qed.

Lemma iter_gen_id_incr k g :
  Nat.iter (S k) gen_id_incr g = (g + Z.of_nat (S k)) mod 2 ^ 32.
Proof.
  induction k as [|k IH]; [done|].
  rewrite Nat.iter_succ, IH. unfold gen_id_incr.
  rewrite Zplus_mod_idemp_l. f_equal. lia.
Qed.

Lemma iter_gen_id_incr_ne k g :
  Z.of_nat k mod 2 ^ 32 ≠ 0 → Nat.iter k gen_id_incr g ≠ g.
Proof.
  destruct k as [|k]; [done|]. rewrite iter_gen_id_incr.
  generalize (Z.of_nat (S k)). intros K HK Heq.
  change (2 ^ 32) with 4294967296 in *.
  apply HK. clear HK. revert Heq. Z.div_mod_to_equations. lia.
Qed.

(** Repeated inserts of a prefix that is already in the tree: only [gen_id]
    and the reference count of its handle change. *)
Lemma run_calls_add_existing n w it p node h :
  world_ok w →
  search_exact_walk p (head (rt (self w))) = Some node →
  node_data node = Some h →
  run_calls (replicate n (CallAdd p)) (w, it) =
    (World (Nat.iter n bump_gen_id (self w))
           (Nat.iter n (Py_INCREF h) (heap w)), it, n).
Proof.
  revert w. induction n as [|n IH]; intros w Hok Hsearch Hh.
  { by destruct w. }
  cbn [replicate run_calls run_call fst snd].
  rewrite (Radix_add_existing _ _ _ _ Hok Hsearch Hh). cbn [returned].
  rewrite IH; try done.
  - cbn [self heap]. by rewrite !Nat.iter_succ_r.
  - apply (world_ok_frame w); try done. intros h' _. apply Py_INCREF_ident.
Qed.

Lemma iter_bump_gen_id n o :
  gen_id (Nat.iter n bump_gen_id o) = Nat.iter n gen_id_incr (gen_id o).
Proof.
  induction n as [|n IH]; [done|]. rewrite !Nat.iter_succ. simpl. by rewrite IH.
Qed.

(** ** The example states are reachable *)

Lemma reachable_world1 : reachable world1.
Proof. by apply reach_add; [apply reach_new|]. Qed.

Lemma reachable_world2 : reachable world2.
Proof. by apply reach_add; [apply reachable_world1|]. Qed.

(** ** The depth of the tree *)

Lemma bits_sorted_le lo lo' n :
  (lo' ≤ lo)%nat → bits_sorted lo n → bits_sorted lo' n.
Proof.
  destruct n as [|b pre d l r]; [done|]. cbn [bits_sorted].
  intros ? (? & ? & ?). split; [lia|done].
Qed.

Lemma bits_sorted_height lo n :
  (lo ≤ RADIX_MAXBITS + 1)%nat → bits_sorted lo n →
  (height n + lo ≤ RADIX_MAXBITS + 1)%nat.
Proof.
  revert lo.
  induction n as [|b pre d l IHl r IHr]; intros lo Hlo; cbn [height bits_sorted].
  - lia.
  - intros (Hb & Hl & Hr).
    apply IHl in Hl; [|lia]. apply IHr in Hr; [|lia]. lia.
Qed.

Lemma differ_bit_ge a b m k :
  comp_with_mask a b k = true → (k ≤ m)%nat → (k ≤ differ_bit a b m)%nat.
Proof.
  intros Hk Hm. destruct (decide (k ≤ differ_bit a b m)%nat); [done|].
  exfalso. apply (differ_bit_differs a b m); [lia|].
  eapply bit_test_agree; [done|lia].
Qed.

Lemma comp_with_mask_S a b k :
  comp_with_mask a b k = true → bit_test a k = bit_test b k →
  comp_with_mask a b (S k) = true.
Proof.
  rewrite !comp_with_mask_spec. intros H Hk i Hi.
  destruct (decide (i = k)) as [->|]; [done|]. apply H. lia.
Qed.

Lemma bits_sorted_node lo b pre d l r :
  bits_sorted lo (Node b pre d l r) ↔
  (lo ≤ b ≤ RADIX_MAXBITS)%nat ∧ bits_sorted (S b) l ∧ bits_sorted (S b) r.
Proof. done. Qed.

Lemma set_data_sorted lo p h n : bits_sorted lo n → bits_sorted lo (set_data p h n).
Proof.
  revert lo. induction n as [|b pre d l IHl r IHr]; intros lo; [done|].
  intros (Hb & Hl & Hr)%bits_sorted_node. cbn [set_data].
  repeat case_match; apply bits_sorted_node; auto.
Qed.

Lemma remove_walk_sorted lo q n :
  bits_sorted lo n → bits_sorted lo (remove_walk q n).
Proof.
  revert lo. induction n as [|b pre d l IHl r IHr]; intros lo; [done|].
  intros (Hb & Hl & Hr)%bits_sorted_node. cbn [remove_walk].
  assert (∀ c, bits_sorted (S b) c → bits_sorted lo c) as Hup.
  { intros c. apply bits_sorted_le. lia. }
  assert (∀ l' r', bits_sorted (S b) l' → bits_sorted (S b) r' →
            bits_sorted lo (compact b pre d l' r')) as Hcompact.
  { intros l' r' Hl' Hr'.
    destruct pre, l', r'; cbn [compact]; auto; by apply bits_sorted_node. }
  destruct (b <? bitlen q)%nat.
  - destruct (bit_test (add q) b); auto.
  - destruct l, r; auto. by apply bits_sorted_node.
Qed.

(** [radix_lookup] of a prefix that agrees with the subtree before [lo]
    keeps the test positions sorted from [lo] on. *)
Lemma lookup_walk_sorted lo p n t node c :
  radix_wf n → bits_sorted lo n →
  (lo ≤ bitlen p ≤ RADIX_MAXBITS)%nat →
  (∀ s, s ∈ prefixes n → comp_with_mask (add p) (add s) lo = true) →
  lookup_walk p n = (t, node, c) → bits_sorted lo t.
Proof.
  revert lo t node c.
  induction n as [|b pre d l IHl r IHr]; intros lo t node c Hwf Hs Hlen Hlo H.
  { simpl in H. simplify_eq. by apply bits_sorted_node. }
  destruct (first_prefix_is_Some _ Hwf) as [s0 Hs0]; [done|].
  pose proof (first_prefix_elem _ _ Hs0) as Hin0.
  pose proof Hs as (Hb & Hsl & Hsr)%bits_sorted_node.
  pose proof Hwf as (Hpre & Hglue & Hl & Hr & Hagree & Hwl & Hwr)%radix_wf_node.
  rewrite lookup_walk_node in H. cbv zeta in H. rewrite Hs0 in H.
  pose proof (differ_bit_le (add p) (add s0) (b `min` bitlen p)) as Hle.
  pose proof (differ_bit_agree (add p) (add s0) (b `min` bitlen p)) as Hag.
  pose proof (differ_bit_ge (add p) (add s0) (b `min` bitlen p) lo (Hlo _ Hin0))
    as Hge.
  set (db := differ_bit (add p) (add s0) (b `min` bitlen p)) in *.
  destruct (Nat.ltb_spec db (b `min` bitlen p)) as [Hlt|Hnlt].
  { destruct (bit_test (add p) db); simplify_eq;
      repeat (apply bits_sorted_node; split_and!); try done; lia. }
  destruct (Nat.ltb_spec (bitlen p) b) as [Hshort|Hlong].
  { destruct (bit_test (add s0) (bitlen p)); simplify_eq;
      repeat (apply bits_sorted_node; split_and!); try done; lia. }
  destruct (Nat.eqb_spec (bitlen p) b) as [Heq|Hne].
  { destruct pre; simplify_eq; by apply bits_sorted_node. }
  assert (db = b) as Hdb by lia. rewrite Hdb in Hag. clear Hdb Hle Hge Hnlt db.
  assert (Hchild : ∀ (ch : radix_node_t) (side : bool),
    (∀ s, s ∈ prefixes ch → (b < bitlen s)%nat ∧ bit_test (add s) b = side) →
    (∀ s, s ∈ prefixes ch → s ∈ prefixes (Node b pre d l r)) →
    bit_test (add p) b = side →
    ∀ s, s ∈ prefixes ch → comp_with_mask (add p) (add s) (S b) = true).
  { intros ch side Hch Hsub Hbit s Hin. destruct (Hch s Hin) as [_ Hsb].
    apply comp_with_mask_S; [|congruence].
    eapply comp_with_mask_trans; [exact Hag|]. by apply Hagree; [|apply Hsub]. }
  destruct (bit_test (add p) b) eqn:Hbit.
  - destruct (lookup_walk p r) as [[r' node'] c'] eqn:Hr'. simplify_eq.
    apply bits_sorted_node. split_and!; try done; try lia.
    eapply IHr; try done; [lia|].
    apply (Hchild r true); try done.
    intros s ?. apply elem_of_prefixes_node. auto.
  - destruct (lookup_walk p l) as [[l' node'] c'] eqn:Hl'. simplify_eq.
    apply bits_sorted_node. split_and!; try done; try lia.
    eapply IHl; try done; [lia|].
    apply (Hchild l false); try done.
    intros s ?. apply elem_of_prefixes_node. auto.
Qed.

Lemma family_maxbits_bound f : (family_maxbits f ≤ RADIX_MAXBITS)%nat.
Proof. destruct f; unfold RADIX_MAXBITS; simpl; lia. Qed.

Lemma Radix_add_head w p :
  ∃ t node c, lookup_walk p (head (rt (self w))) = (t, node, c) ∧
    (head (rt (self (Radix_add w p).2)) = head (rt (self w)) ∨
     head (rt (self (Radix_add w p).2)) = t ∨
     ∃ s h, head (rt (self (Radix_add w p).2)) = set_data s h t).
Proof.
  rewrite Radix_add_unfold.
  destruct (lookup_walk p (head (rt (self w)))) as [[t node] c] eqn:Hlook.
  exists t, node, c. split; [done|].
  destruct (add_family (self w) p) as [self1|] eqn:Hf; [|by left].
  assert (rt self1 = rt (self w)) as ->.
  { unfold add_family in Hf. repeat case_match; by simplify_eq. }
  rewrite Hlook. unfold assign_data.
  repeat case_match; simpl; eauto.
Qed.

Lemma Radix_delete_head w p :
  head (rt (self (Radix_delete w p).2)) = head (rt (self w)) ∨
  ∃ s, head (rt (self (Radix_delete w p).2)) = remove_walk s (head (rt (self w))).
Proof.
  unfold Radix_delete, radix_remove. repeat case_match; simpl; eauto.
Qed.

(** In every reachable state the test positions are sorted, hence no path
    of the tree has more than [RADIX_MAXBITS + 1] nodes. *)
Lemma reachable_sorted w : reachable w → bits_sorted 0 (head (rt (self w))).
Proof.
  induction 1 as [|w p Hr IH Hv|w p Hr IH Hv|w p _ IH|w p _ IH|w _ IH|w _ IH
                  |w _ IH|w it _ IH|w h k v _ IH|w h o _ IH Hh Hown
                  |w w' _ IH Hrel].
  - done.
  - destruct (Radix_add_head w p) as (t & node & c & Hlook & Hhead).
    assert (bits_sorted 0 t) as Ht.
    { apply (lookup_walk_sorted 0 p (head (rt (self w))) t node c);
        [by apply ok_wf, reachable_ok|done| | |done].
      - apply prefix_valid_spec in Hv as [Hv _].
        pose proof (family_maxbits_bound (family p)). lia.
      - intros s _. apply comp_with_mask_spec. intros i Hi. lia. }
    destruct Hhead as [->|[->|(s & h & ->)]]; auto using set_data_sorted.
  - destruct (Radix_delete_head w p) as [->|(s & ->)];
      auto using remove_walk_sorted.
  - by destruct (Radix_search_exact_frame w p) as [-> _].
  - by destruct (Radix_search_best_frame w p) as [-> _].
  - done.
  - done.
  - done.
  - by destruct (RadixIter_iternext_frame it w) as [-> _].
  - unfold data_setitem. by case_match.
  - done.
  - unfold Radix_DECREF in Hrel. case_match; by simplify_eq.
Qed.

Lemma reachable_height w :
  reachable w → (height (head (rt (self w))) ≤ RADIX_MAXBITS + 1)%nat.
Proof.
  intros Hs%reachable_sorted. apply bits_sorted_height in Hs; lia.
Qed.

(** ** The iterator yields the handles of the walk *)

Lemma walk_handles_node b pre d l r :
  walk_handles (Node b pre d l r) =
  match pre, d with Some _, Some h => [h] | _, _ => [] end
  ++ walk_handles l ++ walk_handles r.
Proof.
  unfold walk_handles, RADIX_WALK. cbn [data_nodes].
  rewrite !omap_app. by destruct pre, d.
Qed.

Lemma walk_handles_NULL : walk_handles NULL = [].
Proof. done. Qed.

Lemma iter_next_node_pending stack b pre d l r stack' rn' :
  iter_next_node stack l r = Some (stack', rn') →
  pending stack (Node b pre d l r) =
  match pre, d with Some _, Some h => [h] | _, _ => [] end
  ++ pending stack' rn'.
Proof.
  unfold iter_next_node, pending. rewrite walk_handles_node.
  destruct l as [|lb lp ld ll lr], r as [|rb rp rd rl rr].
  - destruct stack as [|top stack]; intros [= <- <-];
      rewrite ?walk_handles_NULL; csimpl; by rewrite ?app_nil_r.
  - intros [= <- <-]. rewrite ?walk_handles_NULL.
    by rewrite <-!app_assoc.
  - intros [= <- <-]. rewrite ?walk_handles_NULL.
    by rewrite app_nil_r, <-!app_assoc.
  - case_match; [|done]. intros [= <- <-]. csimpl. by rewrite <-!app_assoc.
Qed.

Lemma iter_next_node_live stack l r stack' rn' :
  Forall (fun n => n ≠ NULL) stack →
  iter_next_node stack l r = Some (stack', rn') → iter_live stack' rn'.
Proof.
  intros Hst. unfold iter_next_node.
  destruct l as [|lb lp ld ll lr], r as [|rb rp rd rl rr].
  - destruct stack as [|top stack]; intros [= <- <-]; [done|].
    apply Forall_cons in Hst as [Htop Hst]. done.
  - by intros [= <- <-].
  - by intros [= <- <-].
  - case_match; [|done]. intros [= <- <-]. split; [|done].
    by apply Forall_cons.
Qed.

(** One run of the loop: it yields the first handle that is pending, or
    stops when no handle is. *)
Lemma iternext_again_pending H fuel stack rn :
  (H ≤ RADIX_MAXBITS + 1)%nat → iter_ok H stack rn → iter_live stack rn →
  (nodes_left stack rn ≤ fuel)%nat →
  iter_live (iternext_again fuel stack rn).1.2 (iternext_again fuel stack rn).2 ∧
  match (iternext_again fuel stack rn).1.1 with
  | Yield h =>
      pending stack rn =
      h :: pending (iternext_again fuel stack rn).1.2
             (iternext_again fuel stack rn).2
  | StopIteration =>
      pending stack rn = [] ∧
      pending (iternext_again fuel stack rn).1.2
        (iternext_again fuel stack rn).2 = []
  | _ => False
  end.
Proof.
  intros HH. revert stack rn.
  induction fuel as [|fuel IH]; intros stack [|b pre d l r] Hok Hlive Hfuel.
  - destruct Hlive as [_ ->]; done.
  - pose proof (nodes_left_pos stack b pre d l r). lia.
  - destruct Hlive as [_ ->]; done.
  - destruct (iter_next_node_ok _ _ _ _ _ _ _ HH Hok) as (st & rn & E & Hok').
    pose proof (iter_next_node_pending _ b pre d _ _ _ _ E) as Hpend.
    pose proof (iter_next_node_live _ _ _ _ _ (proj1 Hlive) E) as Hlive'.
    pose proof (iter_next_node_left _ b pre d _ _ _ _ E) as Hleft.
    cbn [iternext_again]. rewrite E.
    destruct pre as [s|], d as [h|]; try done;
      rewrite Hpend; apply IH; try done; lia.
Qed.

Lemma RadixIter_iternext_pending H it w :
  (H ≤ RADIX_MAXBITS + 1)%nat →
  iter_ok H (iterstack it) (iter_rn it) →
  iter_live (iterstack it) (iter_rn it) →
  iter_gen_id it = gen_id (self w) →
  iter_ok H (iterstack (RadixIter_iternext it w).1.2)
            (iter_rn (RadixIter_iternext it w).1.2) ∧
  iter_live (iterstack (RadixIter_iternext it w).1.2)
            (iter_rn (RadixIter_iternext it w).1.2) ∧
  iter_gen_id (RadixIter_iternext it w).1.2
    = gen_id (self (RadixIter_iternext it w).2) ∧
  match (RadixIter_iternext it w).1.1 with
  | Yield h =>
      pending (iterstack it) (iter_rn it) =
      h :: pending (iterstack (RadixIter_iternext it w).1.2)
             (iter_rn (RadixIter_iternext it w).1.2)
  | StopIteration =>
      pending (iterstack it) (iter_rn it) = [] ∧
      pending (iterstack (RadixIter_iternext it w).1.2)
              (iter_rn (RadixIter_iternext it w).1.2) = []
  | _ => False
  end.
Proof.
  intros HH Hok Hlive Hgen.
  destruct (RadixIter_iternext_ok H it w HH Hok) as [_ Hok'].
  destruct (iternext_again_pending H (nodes_left (iterstack it) (iter_rn it))
              _ _ HH Hok Hlive (Nat.le_refl _)) as [Hlive' Hpend].
  split; [done|]. clear Hok'.
  unfold RadixIter_iternext. rewrite Hgen, Z.eqb_refl. cbn [negb].
  destruct (iternext_again _ _ _) as [[res stack] rn]. simpl in *.
  by destruct res.
Qed.

Lemma iter_results_pending H hs it w :
  (H ≤ RADIX_MAXBITS + 1)%nat →
  iter_ok H (iterstack it) (iter_rn it) →
  iter_live (iterstack it) (iter_rn it) →
  iter_gen_id it = gen_id (self w) →
  pending (iterstack it) (iter_rn it) = hs →
  iter_results (S (length hs)) (it, w) = (Yield <$> hs) ++ [StopIteration].
Proof.
  intros HH. revert it w.
  induction hs as [|h hs IH]; intros it w Hok Hlive Hgen Hpend;
    destruct (RadixIter_iternext_pending H it w HH Hok Hlive Hgen)
      as (Hok' & Hlive' & Hgen' & Hres);
    cbn [iter_results length fst snd];
    destruct (RadixIter_iternext it w) as [[res it'] w'];
    cbn [fst snd] in *; destruct res as [h'| | |]; try done.
  - congruence.
  - rewrite Hpend in Hres. simplify_eq. csimpl. f_equal. by apply IH.
  - destruct Hres as [Hres _]. congruence.
Qed.

(** On a tree whose depth is at most the address bit width, an iterator
    that is advanced with no insert and no delete in between yields the
    handles that [Radix_nodes] lists, in the same order and once each, and
    then stops. *)
Lemma iterator_yields_nodes w :
  (height (head (rt (self w))) ≤ RADIX_MAXBITS + 1)%nat →
  iter_results (S (length (Radix_nodes w).1)) (newRadixIterObject w)
  = (Yield <$> (Radix_nodes w).1) ++ [StopIteration].
Proof.
  intros HH.
  apply (iter_results_pending (height (head (rt (self w))))); try done.
  - split; simpl; [lia|done].
  - unfold pending. simpl. by rewrite app_nil_r.
Qed.

Lemma reachable_iterator_yields_nodes w :
  reachable w →
  iter_results (S (length (Radix_nodes w).1)) (newRadixIterObject w)
  = (Yield <$> (Radix_nodes w).1) ++ [StopIteration].
Proof. intros Hh%reachable_height. by apply iterator_yields_nodes. Qed.

(** In every reachable state the exact search finds each prefix of the
    tree, with its handle. *)
Lemma Radix_search_exact_stored w s h :
  reachable w → (s, Some h) ∈ data_nodes (head (rt (self w))) →
  (Radix_search_exact w s).1 = Some h.
Proof.
  intros Hok%reachable_ok Hin.
  destruct (search_exact_walk_complete s _ s (Some h) (ok_wf _ Hok) Hin
              (prefix_equal_refl s)) as (node & Hsearch & _ & Hh).
  unfold Radix_search_exact, radix_search_exact. by rewrite Hsearch, Hh.
Qed.

(** [args_to_prefix] returns a prefix exactly when one address form is
    given and its parser accepts it. *)
Lemma args_to_prefix_Return pton from_blob addr packed prefixlen prefix :
  args_to_prefix pton from_blob addr packed prefixlen = Return prefix ↔
  (∃ a, addr = Some a ∧ packed = None ∧ pton a prefixlen = Some prefix) ∨
  (∃ blob, addr = None ∧ packed = Some blob ∧
           from_blob blob prefixlen = Some prefix).
Proof.
  unfold args_to_prefix. destruct addr as [a|], packed as [blob|];
    repeat case_match; naive_solver.
Qed.


(** ** The claims *)


(** C2.  In every reachable state, when [Radix_add] of a valid prefix [p]
    returns a handle, [Radix_search_exact] of [p] in the resulting state
    returns that handle, and its [prefix], [prefixlen] and [family] are the
    CIDR string, the bit length and the family of [p]. *)
Theorem add_then_search_exact w p h :
  reachable w → prefix_valid p = true →
  (Radix_add w p).1 = Return h →
  ∃ o, (Radix_search_exact (Radix_add w p).2 p).1 = Some h ∧
       heap (Radix_search_exact (Radix_add w p).2 p).2 !! h = Some o ∧
       obj_prefix o = prefix_ntop p ∧
       prefixlen o = Z.of_nat (bitlen p) ∧
       obj_family o = family_code (family p).
Proof.
  intros Hreach Hvalid Hret.
  pose proof (reachable_ok _ Hreach) as Hok.
  pose proof (reachable_ok _ (reach_add _ _ Hreach Hvalid)) as Hok'.
  assert (∃ node, search_exact_walk p (head (rt (self (Radix_add w p).2)))
                  = Some node ∧ node_data node = Some h)
    as (node & Hsearch & Hh).
  { destruct (search_exact_walk p (head (rt (self w)))) as [node|] eqn:Hsearch.
    - destruct (search_exact_walk_valid _ _ _ Hok Hvalid Hsearch)
        as (h' & _ & Hh' & _).
      rewrite (Radix_add_existing _ _ _ _ Hok Hsearch Hh') in Hret |- *.
      simpl in *. simplify_eq. eauto.
    - assert (tree_family (self w) = -1 ∨
              tree_family (self w) = family_code (family p)) as Hf.
      { destruct (decide (tree_family (self w) = -1)); [by left|right].
        destruct (decide (family_code (family p) = tree_family (self w)));
          [done|].
        assert (add_family (self w) p = None) as Hnone
          by (by apply add_family_None).
        unfold Radix_add in Hret. by rewrite Hnone in Hret. }
      destruct (Radix_add_new _ _ Hok Hvalid Hf Hsearch)
        as (t & node & obj & Hlook & _ & Hadd).
      rewrite Hadd in Hret |- *. simpl in *. simplify_eq.
      destruct (search_exact_walk_created p (fresh (dom (heap w))) _ _ _ Hlook)
        as (node' & ? & _ & ?). eauto. }
  destruct (search_exact_walk_valid _ _ _ Hok' Hvalid Hsearch)
    as (h' & _ & Hh' & _ & Hident).
  assert (h' = h) as -> by congruence.
  unfold Radix_search_exact, radix_search_exact. rewrite Hsearch, Hh. simpl.
  rewrite <-(Py_INCREF_ident h h) in Hident.
  apply lookup_ident in Hident as (o & Ho & Hident).
  exists o. split; [done|]. split; [done|]. by apply obj_ident_fields.
Qed.

(** C3.  In every reachable state in which the exact search finds [p] with
    handle [h], [Radix_add] of [p] returns the same handle [h]: a value
    written into its dictionary through [h] is read through the returned
    handle.  The tree and its count do not change, and [gen_id] is
    incremented. *)
Theorem add_twice_same_handle w p h :
  reachable w →
  (Radix_search_exact w p).1 = Some h →
  (Radix_add w p).1 = Return h ∧
  rt (self (Radix_add w p).2) = rt (self w) ∧
  gen_id (self (Radix_add w p).2) = (gen_id (self w) + 1) mod 2 ^ 32 ∧
  (user_attr <$> heap (Radix_add w p).2 !! h = user_attr <$> heap w !! h) ∧
  ∀ h2 k v, (Radix_add w p).1 = Return h2 →
            data_getitem h2 k (data_setitem h k v (Radix_add w p).2) = Some v.
Proof.
  intros Hok%reachable_ok Hfound.
  unfold Radix_search_exact, radix_search_exact in Hfound.
  destruct (search_exact_walk p (head (rt (self w)))) as [node|] eqn:Hsearch;
    [|done].
  destruct (node_data node) as [h'|] eqn:Hh; [|done].
  simpl in Hfound. simplify_eq.
  destruct (search_exact_walk_sound _ _ _ Hsearch) as (s & _ & _ & Hin).
  rewrite Hh in Hin.
  destruct (world_ok_handle_live _ _ _ Hok Hin) as [o Ho].
  rewrite (Radix_add_existing _ _ _ _ Hok Hsearch Hh). simpl.
  split_and!; try done.
  - unfold Py_INCREF. by rewrite Ho, lookup_insert_eq.
  - intros h2 k v [= <-]. unfold data_getitem, data_setitem. simpl.
    unfold Py_INCREF. rewrite Ho, lookup_insert_eq. simpl.
    rewrite lookup_insert_eq. simpl. by rewrite lookup_insert_eq.
Qed.

(** C4.  The first insert that passes binds the family of the tree to the
    family of its prefix; once bound, the family is changed neither by an
    insert nor by a delete; and the insert of a prefix of another family
    raises ValueError and leaves the whole state as it was: the tree, its
    count, its generation and the store. *)
Theorem add_family_mismatch w p :
  (tree_family (self w) = -1 →
   tree_family (self (Radix_add w p).2) = family_code (family p)) ∧
  (tree_family (self w) ≠ -1 →
   tree_family (self (Radix_add w p).2) = tree_family (self w) ∧
   tree_family (self (Radix_delete w p).2) = tree_family (self w)) ∧
  (tree_family (self w) ≠ -1 →
   family_code (family p) ≠ tree_family (self w) →
   Radix_add w p = (Raise ValueError, w)).
Proof.
  split_and!.
  - intros Hu. rewrite Radix_add_family. unfold add_family.
    by rewrite Hu.
  - intros Hb. split; [|apply Radix_delete_family].
    rewrite Radix_add_family.
    destruct (add_family (self w) p) as [self1|] eqn:Hf; [|done].
    apply add_family_bound in Hf as [Hf Hsame]. rewrite <-Hf.
    by rewrite (Hsame Hb).
  - intros Hb Hne. unfold Radix_add.
    assert (add_family (self w) p = None) as ->; [|done].
    by apply add_family_None.
Qed.

(** C5, as amended.  After an iterator is created on a tree, and after any
    sequence of calls on that tree in which the number of inserts and
    deletes that returned without an exception is not a multiple of 2^32,
    [RadixIter_iternext] raises RuntimeWarning and yields nothing: it
    compares [gen_id] before anything else, and leaves the iterator and the
    tree as they are. *)
Theorem iternext_detects_mutation w cs :
  Z.of_nat (run_calls cs ((newRadixIterObject w).2, (newRadixIterObject w).1)).2
    mod 2 ^ 32 ≠ 0 →
  RadixIter_iternext
    (run_calls cs ((newRadixIterObject w).2, (newRadixIterObject w).1)).1.2
    (run_calls cs ((newRadixIterObject w).2, (newRadixIterObject w).1)).1.1
  = (IterRaise RuntimeWarning,
     (run_calls cs ((newRadixIterObject w).2, (newRadixIterObject w).1)).1.2,
     (run_calls cs ((newRadixIterObject w).2, (newRadixIterObject w).1)).1.1).
Proof.
  intros Hk. apply RadixIter_iternext_mismatch.
  destruct (run_calls_gen_id cs
              ((newRadixIterObject w).2, (newRadixIterObject w).1)) as [-> ->].
  simpl. intros Heq. symmetry in Heq. by apply iter_gen_id_incr_ne in Heq.
Qed.

(** C6.  For every state and every prefix equal to none of the prefixes of
    the tree, [Radix_delete] raises KeyError and returns the state as it
    was, count and generation included. *)
Theorem delete_absent_not_found w p :
  (∀ s d, (s, d) ∈ data_nodes (head (rt (self w))) →
          prefix_equal s p = false) →
  Radix_delete w p = (Raise KeyError, w) ∧
  count (rt (self (Radix_delete w p).2)) = count (rt (self w)) ∧
  gen_id (self (Radix_delete w p).2) = gen_id (self w).
Proof.
  intros Habsent. by rewrite (Radix_delete_not_found _ _ Habsent).
Qed.


(** C8, as amended.  The iterator owns a reference to its tree:
    [newRadixIterObject] increments the reference count of the tree, so
    after all the references that existed before are dropped the tree is
    still alive, with the iterator's reference as the last one; the tree is
    deallocated when [RadixIter_dealloc] gives that reference back. *)
Theorem iterator_owns_parent w n :
  ob_refcnt (self w) = Z.of_nat n →
  ob_refcnt (self (newRadixIterObject w).2) = ob_refcnt (self w) + 1 ∧
  drop_refs n (newRadixIterObject w).2
    = Alive (World (set_refcnt (self w) 1) (heap w)) ∧
  RadixIter_dealloc (newRadixIterObject w).1
      (World (set_refcnt (self w) 1) (heap w))
    = Destroyed (Radix_dealloc w).
Proof.
  intros Hn. split; [done|]. split; [|done].
  unfold newRadixIterObject. simpl. rewrite Hn. clear Hn.
  generalize (self w) as o. induction n as [|n IH]; intros o.
  - simpl. done.
  - cbn [drop_refs]. unfold Radix_DECREF. simpl.
    destruct (Z.eqb_spec (Z.of_nat (S n) + 1 - 1) 0) as [?|_]; [lia|].
    replace (Z.of_nat (S n) + 1 - 1) with (Z.of_nat n + 1) by lia.
    apply (IH (set_refcnt o (Z.of_nat n + 1))).
Qed.

(** C9.  No call that reads the tree changes [gen_id]: not
    [Radix_search_exact], [Radix_search_best], [Radix_nodes],
    [Radix_prefixes] or [RadixIter_iternext], so the generation after any
    sequence of such calls is the generation before it.  An insert or a
    delete that returns increments [gen_id]; one that raises an exception
    (or returns NULL) leaves it. *)
Theorem reads_keep_gen_id :
  (∀ c st, gen_id (self (run_read c st).1) = gen_id (self st.1)) ∧
  (∀ cs st, gen_id (self (run_reads cs st).1) = gen_id (self st.1)) ∧
  (∀ w p, gen_id (self (Radix_add w p).2) =
          if returned (Radix_add w p).1 then gen_id_incr (gen_id (self w))
          else gen_id (self w)) ∧
  (∀ w p, gen_id (self (Radix_delete w p).2) =
          if returned (Radix_delete w p).1 then gen_id_incr (gen_id (self w))
          else gen_id (self w)).
Proof.
  split_and!.
  - intros c st. apply run_read_gen_id.
  - intros cs. unfold run_reads.
    induction cs as [|c cs IH]; intros st; [done|]. simpl.
    rewrite IH. apply run_read_gen_id.
  - apply Radix_add_gen_id.
  - apply Radix_delete_gen_id.
Qed.

(** C10.  On a tree in which no path from the root has more than
    [RADIX_MAXBITS + 1] nodes, that is whose depth is at most the address
    bit width, after any number of calls of [RadixIter_iternext] on a new
    iterator the stack holds at most [RADIX_MAXBITS + 1] entries, and the
    next call makes no push after the last slot of [iterstack]. *)
Theorem iterstack_in_bounds w n :
  (height (head (rt (self w))) ≤ RADIX_MAXBITS + 1)%nat →
  (length (iterstack (iter_advance n (newRadixIterObject w)).1)
     ≤ RADIX_MAXBITS + 1)%nat ∧
  (RadixIter_iternext (iter_advance n (newRadixIterObject w)).1
     (iter_advance n (newRadixIterObject w)).2).1.1 ≠ OutOfBounds.
Proof.
  intros HH.
  assert (Hinv : ∀ n st,
    iter_ok (height (head (rt (self w)))) (iterstack st.1) (iter_rn st.1) →
    iter_ok (height (head (rt (self w))))
      (iterstack (iter_advance n st).1) (iter_rn (iter_advance n st).1)).
  { clear n. induction n as [|n IH]; intros [it w'] Hok; [done|].
    cbn [iter_advance fst snd].
    destruct (RadixIter_iternext_ok _ it w' HH Hok) as [_ Hok'].
    destruct (RadixIter_iternext it w') as [[res it'] w'']. by apply IH. }
  assert (iter_ok (height (head (rt (self w))))
            (iterstack (newRadixIterObject w).1)
            (iter_rn (newRadixIterObject w).1)) as Hok0.
  { split; simpl; [lia|done]. }
  specialize (Hinv n _ Hok0). split.
  - apply iter_ok_length in Hinv. lia.
  - by eapply RadixIter_iternext_ok.
Qed.

(** ** The exact search and the prefixes of the tree *)

(** In a good state the exact search returns the handle of the data node
    whose prefix equals the query, and None when there is no such node. *)
Lemma Radix_search_exact_spec w q h :
  world_ok w →
  (Radix_search_exact w q).1 = Some h ↔
  ∃ s, (s, Some h) ∈ data_nodes (head (rt (self w))) ∧
       prefix_equal s q = true.
Proof.
  intros Hok. unfold Radix_search_exact, radix_search_exact. split.
  - destruct (search_exact_walk q (head (rt (self w)))) as [node|] eqn:Hsearch;
      [|done].
    destruct (search_exact_walk_sound _ _ _ Hsearch) as (s & _ & Heq & Hin).
    destruct (node_data node) as [h'|]; [|done]. simpl. intros [= ->]. eauto.
  - intros (s & Hin & Heq).
    destruct (search_exact_walk_complete q _ s (Some h) (ok_wf _ Hok) Hin Heq)
      as (node & -> & _ & ->). done.
Qed.

Lemma Radix_search_exact_None w q :
  world_ok w →
  (Radix_search_exact w q).1 = None ↔
  ∀ s d, (s, d) ∈ data_nodes (head (rt (self w))) → prefix_equal s q = false.
Proof.
  intros Hok. split.
  - intros Hnone s d Hin. destruct (prefix_equal s q) eqn:Heq; [|done].
    destruct (ok_data _ Hok _ _ Hin) as (h & -> & _).
    assert ((Radix_search_exact w q).1 = Some h) as Hsome
      by (apply Radix_search_exact_spec; eauto).
    congruence.
  - intros Habsent. destruct (Radix_search_exact w q).1 as [h|] eqn:E; [|done].
    apply Radix_search_exact_spec in E as (s & Hin & Heq); [|done].
    by rewrite (Habsent _ _ Hin) in Heq.
Qed.

(** Two states whose trees hold the same data nodes for the prefixes equal
    to the query give the same result. *)
Lemma Radix_search_exact_ext w w' q :
  world_ok w → world_ok w' →
  (∀ s h, prefix_equal s q = true →
     (s, Some h) ∈ data_nodes (head (rt (self w'))) ↔
     (s, Some h) ∈ data_nodes (head (rt (self w)))) →
  (Radix_search_exact w' q).1 = (Radix_search_exact w q).1.
Proof.
  intros Hok Hok' Hsame.
  destruct (Radix_search_exact w q).1 as [h|] eqn:E.
  - apply Radix_search_exact_spec in E as (s & Hin & Heq); [|done].
    apply Radix_search_exact_spec; [done|]. exists s. split; [|done].
    by apply Hsame.
  - apply Radix_search_exact_None; [done|]. intros s d Hin.
    destruct (prefix_equal s q) eqn:Heq; [|done].
    destruct (ok_data _ Hok' _ _ Hin) as (h & -> & _).
    apply Hsame in Hin; [|done].
    rewrite Radix_search_exact_None in E by done.
    by rewrite (E _ _ Hin) in Heq.
Qed.

(** ** What a call of [Radix_add] and of [Radix_delete] does *)

Lemma Py_INCREF_insert h (hp : gmap loc RadixNodeObject) o :
  hp !! h = Some o →
  Py_INCREF h hp = <[h := obj_set_refcnt o (obj_refcnt o + 1)]> hp.
Proof. intros Ho. unfold Py_INCREF. by rewrite Ho. Qed.

(** The three ways in which [Radix_add] of a valid prefix ends in a good
    state: the family check fails; the prefix is in the tree, and its handle
    gets a reference; or the prefix is new, and its node and its handle are
    created. *)
Lemma Radix_add_cases w p :
  world_ok w → prefix_valid p = true →
  (add_family (self w) p = None ∧ Radix_add w p = (Raise ValueError, w)) ∨
  (∃ h o, (p, Some h) ∈ data_nodes (head (rt (self w))) ∧
     heap w !! h = Some o ∧
     Radix_add w p =
       (Return h,
        World (bump_gen_id (self w))
              (<[h := obj_set_refcnt o (obj_refcnt o + 1)]> (heap w)))) ∨
  (∃ t node,
     search_exact_walk p (head (rt (self w))) = None ∧
     heap w !! fresh (dom (heap w)) = None ∧
     lookup_walk p (head (rt (self w))) = (t, node, true) ∧
     data_nodes (set_data p (fresh (dom (heap w))) t)
       ≡ₚ (p, Some (fresh (dom (heap w)))) :: data_nodes (head (rt (self w))) ∧
     Radix_add w p =
       (Return (fresh (dom (heap w))),
        World (Radix (ob_refcnt (self w))
                 (RadixTree (set_data p (fresh (dom (heap w))) t)
                            (count (rt (self w)) + 1))
                 (family_code (family p))
                 (gen_id_incr (gen_id (self w))))
              (<[fresh (dom (heap w)) :=
                   RadixNode 2 ∅ (prefix_addr_ntop p) (prefix_ntop p)
                     (Z.of_nat (bitlen p)) (family_code (family p))
                     (take (family_bytes (family p)) (add p)) (Some p)]>
                 (heap w)))).
Proof.
  intros Hok Hvalid.
  destruct (add_family (self w) p) as [self1|] eqn:Hfamily; last first.
  { left. unfold Radix_add. by rewrite Hfamily. }
  right.
  assert (tree_family (self w) = -1 ∨
          tree_family (self w) = family_code (family p)) as Hf.
  { destruct (decide (tree_family (self w) = -1)) as [|Hne]; [by left|right].
    destruct (decide (family_code (family p) = tree_family (self w))); [done|].
    assert (add_family (self w) p = None) by (by apply add_family_None).
    congruence. }
  destruct (search_exact_walk p (head (rt (self w)))) as [node|] eqn:Hsearch.
  - left.
    destruct (search_exact_walk_valid _ _ _ Hok Hvalid Hsearch)
      as (h & _ & Hh & Hin & Hident).
    apply lookup_ident in Hident as (o & Ho & _).
    exists h, o. split_and!; try done.
    rewrite (Radix_add_existing _ _ _ _ Hok Hsearch Hh).
    by rewrite (Py_INCREF_insert _ _ _ Ho).
  - right.
    destruct (Radix_add_new _ _ Hok Hvalid Hf Hsearch)
      as (t & node & obj & Hlook & Hobj & ->).
    assert (Hfresh : heap w !! fresh (dom (heap w)) = None).
    { apply not_elem_of_dom. apply is_fresh. }
    exists t, node. split_and!; try done.
    + by eapply set_data_created.
    + unfold newRadixNodeObject in Hobj. simpl in Hobj. simplify_eq.
      unfold Py_INCREF. rewrite lookup_insert_eq. simpl.
      by rewrite insert_insert_eq.
Qed.

(** The two ways in which [Radix_delete] of a valid prefix ends in a good
    state. *)
Lemma Radix_delete_cases w p :
  world_ok w → prefix_valid p = true →
  (search_exact_walk p (head (rt (self w))) = None ∧
   Radix_delete w p = (Raise KeyError, w)) ∨
  (∃ h o, (p, Some h) ∈ data_nodes (head (rt (self w))) ∧
     heap w !! h = Some o ∧
     data_nodes (head (rt (self w)))
       ≡ₚ (p, Some h) :: data_nodes (remove_walk p (head (rt (self w)))) ∧
     Radix_delete w p =
       (Return tt,
        World (Radix (ob_refcnt (self w))
                 (RadixTree (remove_walk p (head (rt (self w))))
                            (count (rt (self w)) - 1))
                 (tree_family (self w)) (gen_id_incr (gen_id (self w))))
              (Py_DECREF h (clear_rn h (heap w))))).
Proof.
  intros Hok Hvalid.
  destruct (search_exact_walk p (head (rt (self w)))) as [node|] eqn:Hsearch;
    last first.
  { left. split; [done|]. unfold Radix_delete, radix_search_exact.
    by rewrite Hsearch. }
  right.
  destruct (search_exact_walk_valid _ _ _ Hok Hvalid Hsearch)
    as (h & Hp & Hh & Hin & Hident).
  apply lookup_ident in Hident as (o & Ho & _).
  exists h, o. split_and!; try done.
  - pose proof (remove_walk_data_nodes _ _ _ Hsearch Hp) as Hperm.
    by rewrite Hh in Hperm.
  - by apply Radix_delete_found with node.
Qed.

(** A valid prefix is the prefix of one data node at most. *)
Lemma data_nodes_functional w s d d' :
  world_ok w →
  (s, d) ∈ data_nodes (head (rt (self w))) →
  (s, d') ∈ data_nodes (head (rt (self w))) → d = d'.
Proof.
  intros Hok Hin Hin'.
  destruct (search_exact_walk_complete s _ s d (ok_wf _ Hok) Hin
              (prefix_equal_refl s)) as (node & Hs & _ & Hd).
  destruct (search_exact_walk_complete s _ s d' (ok_wf _ Hok) Hin'
              (prefix_equal_refl s)) as (node' & Hs' & _ & Hd').
  congruence.
Qed.

Lemma prefix_equal_sym s q : prefix_equal s q = true → prefix_equal q s = true.
Proof.
  rewrite !prefix_equal_spec. intros (Hf & Hl & Hb). split_and!; try done.
  rewrite <-Hl. by apply comp_with_mask_sym.
Qed.

(** The stored prefix that equals a valid query is the query. *)
Lemma stored_prefix_eq w s d q :
  world_ok w → prefix_valid q = true →
  (s, d) ∈ data_nodes (head (rt (self w))) → prefix_equal s q = true → s = q.
Proof.
  intros Hok Hvalid Hin Heq. destruct (ok_family _ Hok _ _ Hin) as [Hs _].
  by apply prefix_equal_eq.
Qed.

(** After [Radix_add] of a valid prefix has returned a handle, the prefix is
    in the tree with that handle. *)
Lemma Radix_add_stored w p h :
  world_ok w → prefix_valid p = true → (Radix_add w p).1 = Return h →
  (p, Some h) ∈ data_nodes (head (rt (self (Radix_add w p).2))).
Proof.
  intros Hok Hvalid Hret.
  destruct (Radix_add_cases w p Hok Hvalid)
    as [[_ Hadd]|[(h0 & o & Hin & Ho & Hadd)
                 |(t & node & Hsearch & Hfresh & _ & Hperm & Hadd)]];
    rewrite Hadd in Hret |- *; simpl in *; simplify_eq; [done|].
  rewrite Hperm. by left.
Qed.

(** After a delete of a valid prefix has returned, no prefix of the tree
    equals it. *)
Lemma Radix_delete_removed w p :
  reachable w → prefix_valid p = true → (Radix_delete w p).1 = Return tt →
  ∀ s d, (s, d) ∈ data_nodes (head (rt (self (Radix_delete w p).2))) →
         prefix_equal s p = false.
Proof.
  intros Hreach Hvalid Hret.
  pose proof (reachable_ok _ Hreach) as Hok.
  pose proof (reachable_ok _ (reach_delete _ _ Hreach Hvalid)) as Hok'.
  destruct (Radix_delete_cases w p Hok Hvalid)
    as [[_ Hdel]|(h & o & Hin & Ho & Hperm & Hdel)];
    [by rewrite Hdel in Hret|].
  intros s d Hs. destruct (prefix_equal s p) eqn:Heq; [|done]. exfalso.
  pose proof (stored_prefix_eq _ _ _ _ Hok' Hvalid Hs Heq) as ->.
  destruct (ok_data _ Hok' _ _ Hs) as (h' & -> & _).
  rewrite Hdel in Hs. simpl in Hs.
  assert ((p, Some h') ∈ data_nodes (head (rt (self w)))) as Hin'
    by (rewrite Hperm; by right).
  pose proof (data_nodes_functional _ _ _ _ Hok Hin Hin') as [= <-].
  pose proof (ok_nodup _ Hok) as Hnd. rewrite Hperm in Hnd.
  apply NoDup_cons in Hnd as [Hnotin _]. apply Hnotin.
  apply list_elem_of_fmap. by exists (p, Some h).
Qed.

(** ** Sequences of calls and the family *)

Lemma run_call_family c st :
  tree_family (self st.1) ≠ -1 →
  tree_family (self (run_call c st).1.1) = tree_family (self st.1).
Proof.
  intros Hb. destruct st as [w it]. destruct c as [c|p|p]; simpl in *.
  - destruct c as [q|q| | |]; simpl; try done.
    + by destruct (Radix_search_exact_frame w q) as [-> _].
    + by destruct (Radix_search_best_frame w q) as [-> _].
    + destruct (RadixIter_iternext_frame it w) as [Hs _].
      destruct (RadixIter_iternext it w) as [[? ?] ?]; simpl in *.
      by rewrite Hs.
  - pose proof (Radix_add_family w p) as Hf.
    destruct (Radix_add w p) as [r w']. simpl in *. rewrite Hf.
    destruct (add_family (self w) p) as [self1|] eqn:Hadd; [|done].
    apply add_family_bound in Hadd as [Hfam Hsame].
    rewrite <-Hfam. by rewrite (Hsame Hb).
  - pose proof (Radix_delete_family w p) as Hf.
    by destruct (Radix_delete w p) as [r w'].
Qed.

(** ** The handles of the walk *)

(** When every data node of a list has a handle with the identity of its
    prefix, the handles of the list are as many as the nodes, their
    [prefix] strings are the CIDR strings of the prefixes, and they are
    distinct when the [data] pointers are. *)
Lemma walk_handles_ok (hp : gmap loc RadixNodeObject)
    (L : list (prefix_t * option loc)) :
  (∀ s d, (s, d) ∈ L →
     ∃ h, d = Some h ∧ obj_ident <$> hp !! h = Some (prefix_ident s)) →
  omap (λ h, obj_prefix <$> hp !! h) (omap snd L)
    = (prefix_ntop ∘ fst) <$> L ∧
  length (omap snd L) = length L ∧
  (NoDup L.*2 → NoDup (omap snd L)).
Proof.
  induction L as [|[s d] L IH]; intros Hdata.
  { split_and!; [done..|]. intros _. constructor. }
  destruct (Hdata s d) as (h & -> & Hident); [by left|].
  destruct IH as (Hstr & Hlen & Hnd).
  { intros s' d' Hin. apply Hdata. by right. }
  apply lookup_ident in Hident as (o & Ho & Hident).
  apply obj_ident_fields in Hident as (Hp & _).
  csimpl. rewrite Ho. csimpl. rewrite Hstr, Hlen, Hp. split_and!; try done.
  intros [Hnotin Hrest]%NoDup_cons. apply NoDup_cons. split; [|auto].
  intros ([s' d'] & Hin & Hd)%list_elem_of_omap. simpl in Hd. subst d'.
  apply Hnotin, list_elem_of_fmap. by exists (s', Some h).
Qed.

Lemma walk_handles_nodup w :
  world_ok w → NoDup (walk_handles (head (rt (self w)))).
Proof.
  intros Hok.
  destruct (walk_handles_ok (heap w) (data_nodes (head (rt (self w))))
              (ok_data _ Hok)) as (_ & _ & Hnd).
  apply Hnd, (ok_nodup _ Hok).
Qed.

(** One handle of the tree loses its node and the tree's reference; the
    other objects of the store stay. *)
Lemma detach_lookup h0 h (hp : gmap loc RadixNodeObject) :
  Py_DECREF h0 (clear_rn h0 hp) !! h =
  if decide (h = h0) then
    o ← hp !! h;
    if decide (obj_refcnt o = 1) then None
    else Some (obj_set_refcnt (obj_set_rn o None) (obj_refcnt o - 1))
  else hp !! h.
Proof.
  unfold clear_rn, Py_DECREF. case_decide as Heq.
  - subst h0. destruct (hp !! h) as [o|] eqn:Ho; simpl.
    + rewrite lookup_insert_eq. simpl.
      destruct (Z.eqb_spec (obj_refcnt o - 1) 0); case_decide; try lia.
      * by rewrite lookup_delete_eq.
      * by rewrite lookup_insert_eq.
    + by rewrite Ho, Ho.
  - destruct (hp !! h0) as [o|] eqn:Ho; simpl.
    + rewrite lookup_insert_eq. simpl. destruct (obj_refcnt o - 1 =? 0).
      * by rewrite lookup_delete_ne, lookup_insert_ne.
      * by rewrite !lookup_insert_ne.
    + by rewrite Ho.
Qed.

Lemma foldr_detach_lookup hs h (hp : gmap loc RadixNodeObject) :
  NoDup hs →
  foldr (λ h hp, Py_DECREF h (clear_rn h hp)) hp hs !! h =
  if decide (h ∈ hs) then
    o ← hp !! h;
    if decide (obj_refcnt o = 1) then None
    else Some (obj_set_refcnt (obj_set_rn o None) (obj_refcnt o - 1))
  else hp !! h.
Proof.
  induction hs as [|h0 hs IH]; [done|].
  intros [Hnotin Hnd]%NoDup_cons. simpl. rewrite detach_lookup, (IH Hnd).
  repeat case_decide; subst; try done; exfalso; set_solver.
Qed.

Lemma foldr_Py_INCREF_lookup hs h (hp : gmap loc RadixNodeObject) :
  NoDup hs →
  foldr Py_INCREF hp hs !! h =
  if decide (h ∈ hs)
  then (λ o, obj_set_refcnt o (obj_refcnt o + 1)) <$> hp !! h
  else hp !! h.
Proof.
  induction hs as [|h0 hs IH]; [done|].
  intros [Hnotin Hnd]%NoDup_cons. simpl.
  assert (∀ hp' : gmap loc RadixNodeObject, Py_INCREF h0 hp' !! h =
    if decide (h = h0)
    then (λ o, obj_set_refcnt o (obj_refcnt o + 1)) <$> hp' !! h
    else hp' !! h) as ->.
  { intros hp'. unfold Py_INCREF. destruct (decide (h = h0)) as [<-|Hne].
    - destruct (hp' !! h) as [o|] eqn:Ho; simpl.
      + by rewrite lookup_insert_eq.
      + by rewrite Ho.
    - destruct (hp' !! h0); [|done]. by rewrite lookup_insert_ne. }
  rewrite (IH Hnd).
  repeat case_decide; subst; try done; exfalso; set_solver.
Qed.

(** ** The end of an iteration *)

Lemma iter_results_exhausted H k it w :
  (H ≤ RADIX_MAXBITS + 1)%nat →
  iter_ok H (iterstack it) (iter_rn it) →
  iter_live (iterstack it) (iter_rn it) →
  iter_gen_id it = gen_id (self w) →
  pending (iterstack it) (iter_rn it) = [] →
  iter_results k (it, w) = replicate k StopIteration.
Proof.
  intros HH. revert it w.
  induction k as [|k IH]; intros it w Hok Hlive Hgen Hpend; [done|].
  destruct (RadixIter_iternext_pending H it w HH Hok Hlive Hgen)
    as (Hok' & Hlive' & Hgen' & Hres).
  cbn [iter_results replicate fst snd].
  destruct (RadixIter_iternext it w) as [[res it'] w'].
  cbn [fst snd] in *. destruct res as [h'| | |]; try done.
  - congruence.
  - destruct Hres as [_ Hres]. f_equal. by apply IH.
Qed.

Lemma iter_results_pending_more H hs k it w :
  (H ≤ RADIX_MAXBITS + 1)%nat →
  iter_ok H (iterstack it) (iter_rn it) →
  iter_live (iterstack it) (iter_rn it) →
  iter_gen_id it = gen_id (self w) →
  pending (iterstack it) (iter_rn it) = hs →
  iter_results (length hs + k) (it, w)
  = (Yield <$> hs) ++ replicate k StopIteration.
Proof.
  intros HH. revert it w.
  induction hs as [|h hs IH]; intros it w Hok Hlive Hgen Hpend.
  { by apply (iter_results_exhausted H). }
  destruct (RadixIter_iternext_pending H it w HH Hok Hlive Hgen)
    as (Hok' & Hlive' & Hgen' & Hres).
  cbn [iter_results length Nat.add fst snd].
  destruct (RadixIter_iternext it w) as [[res it'] w'].
  cbn [fst snd] in *. destruct res as [h'| | |]; try done.
  - rewrite Hpend in Hres. simplify_eq. csimpl. f_equal. by apply IH.
  - destruct Hres as [Hres _]. congruence.
Qed.

(** ** The range of the generation *)

Lemma gen_id_incr_range g : 0 ≤ gen_id_incr g < 2 ^ 32.
Proof. unfold gen_id_incr. by apply Z.mod_pos_bound. Qed.

Lemma reachable_gen_id w : reachable w → 0 ≤ gen_id (self w) < 2 ^ 32.
Proof.
  induction 1 as [|w p _ IH Hv|w p _ IH Hv|w p _ IH|w p _ IH|w _ IH|w _ IH
                  |w _ IH|w it _ IH|w h k v _ IH|w h o _ IH Hh Hown
                  |w w' _ IH Hrel].
  - done.
  - rewrite Radix_add_gen_id. case_match; [apply gen_id_incr_range|done].
  - rewrite Radix_delete_gen_id. case_match; [apply gen_id_incr_range|done].
  - by destruct (Radix_search_exact_frame w p) as [-> _].
  - by destruct (Radix_search_best_frame w p) as [-> _].
  - done.
  - done.
  - done.
  - by destruct (RadixIter_iternext_frame it w) as [-> _].
  - unfold data_setitem. by case_match.
  - done.
  - unfold Radix_DECREF in Hrel. case_match; by simplify_eq.
Qed.

Lemma iternext_again_not_raise fuel stack rn e :
  (iternext_again fuel stack rn).1.1 ≠ IterRaise e.
Proof.
  revert stack rn. induction fuel as [|fuel IH]; intros stack [|b pre d l r];
    simpl; try done.
  - destruct (iter_next_node stack l r) as [[stack' rn']|]; [|done].
    by destruct pre, d.
  - destruct (iter_next_node stack l r) as [[stack' rn']|]; [|done].
    destruct pre, d; try done; apply IH.
Qed.

(** ** The fields of a handle *)

(** No step on the store changes the identity or the dictionary of an
    object that stays in the store. *)
Lemma Py_INCREF_fields h h' (hp : gmap loc RadixNodeObject) :
  obj_fields <$> Py_INCREF h' hp !! h = obj_fields <$> hp !! h.
Proof.
  unfold Py_INCREF. destruct (hp !! h') as [o|] eqn:Ho; [|done].
  destruct (decide (h' = h)) as [->|Hne].
  - by rewrite lookup_insert_eq, Ho.
  - by rewrite lookup_insert_ne.
Qed.

Lemma foldr_Py_INCREF_fields h hs (hp : gmap loc RadixNodeObject) :
  obj_fields <$> foldr Py_INCREF hp hs !! h = obj_fields <$> hp !! h.
Proof.
  induction hs as [|h' hs IH]; [done|]. simpl. by rewrite Py_INCREF_fields.
Qed.

Lemma detach_fields h h' (hp : gmap loc RadixNodeObject) o' :
  Py_DECREF h' (clear_rn h' hp) !! h = Some o' →
  obj_fields <$> hp !! h = Some (obj_fields o').
Proof.
  rewrite detach_lookup. case_decide; [|by intros ->].
  destruct (hp !! h) as [o|]; [|done]. simpl. case_decide; [done|].
  by intros [= <-].
Qed.

Lemma Radix_add_heap w p :
  heap (Radix_add w p).2 = heap w ∨
  (∃ h, heap (Radix_add w p).2 = Py_INCREF h (heap w)) ∨
  (∃ obj, heap (Radix_add w p).2 =
          Py_INCREF (fresh (dom (heap w)))
            (<[fresh (dom (heap w)) := obj]> (heap w))).
Proof.
  rewrite Radix_add_unfold. repeat case_match; simpl; eauto.
Qed.

Lemma run_call_fields c st h o o' :
  heap st.1 !! h = Some o → heap (run_call c st).1.1 !! h = Some o' →
  obj_fields o' = obj_fields o.
Proof.
  destruct st as [w it]. simpl. intros Ho.
  assert (∀ hp : gmap loc RadixNodeObject,
    obj_fields <$> hp !! h = obj_fields <$> heap w !! h →
    hp !! h = Some o' → obj_fields o' = obj_fields o) as Hsame.
  { intros hp Hhp Ho'. rewrite Ho, Ho' in Hhp. simpl in Hhp. congruence. }
  destruct c as [c|p|p]; simpl.
  - destruct c as [q|q| | |]; simpl.
    + apply Hsame. unfold Radix_search_exact.
      repeat case_match; simpl; try done. apply Py_INCREF_fields.
    + apply Hsame. unfold Radix_search_best.
      repeat case_match; simpl; try done. apply Py_INCREF_fields.
    + apply Hsame. apply foldr_Py_INCREF_fields.
    + by apply Hsame.
    + unfold RadixIter_iternext. repeat case_match; simplify_eq; simpl;
        apply Hsame; try done; apply Py_INCREF_fields.
  - pose proof (Radix_add_heap w p) as Hheap.
    destruct (Radix_add w p) as [r w']. simpl in *. apply Hsame.
    destruct Hheap as [->|[[h0 ->]|[obj ->]]]; [done|..].
    + apply Py_INCREF_fields.
    + rewrite Py_INCREF_fields, lookup_insert_ne; [done|].
      intros Heq. pose proof (is_fresh (dom (heap w))) as Hfresh.
      rewrite Heq in Hfresh. apply Hfresh, elem_of_dom. by eexists.
  - unfold Radix_delete. repeat case_match; simplify_eq; simpl.
    + intros Ho'. apply detach_fields in Ho'. rewrite Ho in Ho'.
      simpl in Ho'. congruence.
    + by apply Hsame.
    + by apply Hsame.
Qed.

(** ** Further properties of the binding *)

(** X1.  The argument errors of the methods.  [args_to_prefix] sets
    TypeError exactly when both address forms are given or none is, and
    ValueError exactly when the one form that is given is refused by its
    parser; it sets no other exception.  A method that takes an address
    returns NULL with that exception and leaves the tree and the store as
    they are; when [args_to_prefix] returns a prefix the method goes on with
    it.  [radix_Radix], [Radix_nodes] and [Radix_prefixes] take no argument:
    given one they set TypeError and change nothing. *)
Theorem argument_errors_keep_state pton from_blob w addr packed prefixlen :
  (args_to_prefix pton from_blob addr packed prefixlen = Raise TypeError ↔
   (is_Some addr ↔ is_Some packed)) ∧
  (args_to_prefix pton from_blob addr packed prefixlen = Raise ValueError ↔
   (∃ a, addr = Some a ∧ packed = None ∧ pton a prefixlen = None) ∨
   (∃ blob, addr = None ∧ packed = Some blob ∧
            from_blob blob prefixlen = None)) ∧
  (∀ e, args_to_prefix pton from_blob addr packed prefixlen = Raise e →
     (e = TypeError ∨ e = ValueError) ∧
     Radix_add_kw pton from_blob w addr packed prefixlen = (Raise e, w) ∧
     Radix_delete_kw pton from_blob w addr packed prefixlen = (Raise e, w) ∧
     Radix_search_exact_kw pton from_blob w addr packed prefixlen
       = (Raise e, w) ∧
     Radix_search_best_kw pton from_blob w addr packed prefixlen
       = (Raise e, w)) ∧
  (∀ prefix, args_to_prefix pton from_blob addr packed prefixlen
             = Return prefix →
     Radix_add_kw pton from_blob w addr packed prefixlen = Radix_add w prefix ∧
     Radix_delete_kw pton from_blob w addr packed prefixlen
       = Radix_delete w prefix ∧
     (Radix_search_exact_kw pton from_blob w addr packed prefixlen).1
       = Return (Radix_search_exact w prefix).1 ∧
     (Radix_search_best_kw pton from_blob w addr packed prefixlen).1
       = Return (Radix_search_best w prefix).1) ∧
  (∀ a args, radix_Radix (a :: args) = Raise TypeError ∧
     Radix_nodes_args w (a :: args) = (Raise TypeError, w) ∧
     Radix_prefixes_args w (a :: args) = (Raise TypeError, w)).
Proof.
  unfold Radix_add_kw, Radix_delete_kw, Radix_search_exact_kw,
    Radix_search_best_kw.
  split_and!.
  - unfold args_to_prefix.
    destruct addr as [a|], packed as [blob|]; repeat case_match;
      split; try done; intros [H1 H2];
      first [by destruct H1 as [? [=]]|by destruct H2 as [? [=]]].
  - unfold args_to_prefix.
    destruct addr as [a|], packed as [blob|]; repeat case_match; naive_solver.
  - intros e He. rewrite He. split; [|done].
    unfold args_to_prefix in He.
    destruct addr as [a|], packed as [blob|]; repeat case_match;
      simplify_eq; auto.
  - intros prefix He. by rewrite He.
  - done.
Qed.

(** X2.  The outcome of [Radix_add] on a prefix, in any state: it returns a
    handle exactly when the tree has no family yet or has the family of the
    prefix, and it raises ValueError exactly when the tree has another
    family.  It raises nothing else (allocation failures apart), and when it
    raises, the state is the one before the call. *)
Theorem Radix_add_returns w p :
  ((tree_family (self w) = -1 ∨
    family_code (family p) = tree_family (self w)) ↔
   ∃ h, (Radix_add w p).1 = Return h) ∧
  ((tree_family (self w) ≠ -1 ∧
    family_code (family p) ≠ tree_family (self w)) ↔
   (Radix_add w p).1 = Raise ValueError) ∧
  (∀ e, (Radix_add w p).1 = Raise e →
        e = ValueError ∧ (Radix_add w p).2 = w).
Proof.
  assert (Hnode : ∀ t, ∃ t' node c s,
    lookup_walk p t = (t', node, c) ∧ node_prefix node = Some s).
  { intros t. destruct (lookup_walk p t) as [[t' node] c] eqn:Hlook.
    destruct (lookup_walk_data_nodes _ _ _ _ _ Hlook) as [_ H].
    destruct c.
    - destruct H as [Hp _]. by exists t', node, true, p.
    - destruct H as (_ & s & Hp & _). by exists t', node, false, s. }
  destruct (add_family (self w) p) as [self1|] eqn:Hf.
  - assert (∃ h, (Radix_add w p).1 = Return h) as [h Hh].
    { rewrite Radix_add_unfold, Hf.
      destruct (Hnode (head (rt self1))) as (t' & node & c & s & -> & Hs).
      destruct (node_data node) as [h|]; [by eexists|].
      unfold newRadixNodeObject. rewrite Hs. by eexists. }
    assert (¬ (tree_family (self w) ≠ -1 ∧
               family_code (family p) ≠ tree_family (self w))) as Hok.
    { rewrite <-add_family_None. congruence. }
    split_and!.
    + split; [by eauto|]. intros _.
      destruct (decide (tree_family (self w) = -1)); [by left|right].
      destruct (decide (family_code (family p) = tree_family (self w)));
        [done|]. by destruct Hok.
    + split; [done|]. by rewrite Hh.
    + intros e. by rewrite Hh.
  - pose proof Hf as Hmis%add_family_None.
    assert (Radix_add w p = (Raise ValueError, w)) as ->.
    { unfold Radix_add. by rewrite Hf. }
    simpl. split_and!.
    + split; [|by intros [h [=]]]. intros [?|?]; by destruct Hmis.
    + done.
    + by intros e [= <-].
Qed.

(** X3.  The references that [Radix_add] hands out.  When, in a reachable
    state, the insert of a valid prefix returns the handle [h]: if [h] was
    in the store (the prefix was in the tree) its reference count is one
    more and nothing else of it changes; if not, [h] is a new object with
    two references (the tree's and the caller's), an empty dictionary and
    the identity of the prefix.  No other object of the store changes. *)
Theorem Radix_add_reference w p h :
  reachable w → prefix_valid p = true → (Radix_add w p).1 = Return h →
  (∀ h', h' ≠ h → heap (Radix_add w p).2 !! h' = heap w !! h') ∧
  (is_Some (heap w !! h) ↔ (Radix_search_exact w p).1 = Some h) ∧
  heap (Radix_add w p).2 !! h =
    match heap w !! h with
    | Some o => Some (obj_set_refcnt o (obj_refcnt o + 1))
    | None =>
        Some (RadixNode 2 ∅ (prefix_addr_ntop p) (prefix_ntop p)
                (Z.of_nat (bitlen p)) (family_code (family p))
                (take (family_bytes (family p)) (add p)) (Some p))
    end.
Proof.
  intros Hok%reachable_ok Hvalid Hret.
  destruct (Radix_add_cases w p Hok Hvalid)
    as [[_ Hadd]|[(h0 & o & Hin & Ho & Hadd)
                 |(t & node & Hsearch & Hfresh & _ & _ & Hadd)]];
    rewrite Hadd in Hret |- *; simpl in *; simplify_eq.
  - split_and!.
    + intros h' Hne. by rewrite lookup_insert_ne.
    + split; [|by rewrite Ho]. intros _.
      apply Radix_search_exact_spec; [done|]. exists p.
      by rewrite prefix_equal_refl.
    + by rewrite lookup_insert_eq, Ho.
  - split_and!.
    + intros h' Hne. by rewrite lookup_insert_ne.
    + rewrite Hfresh. split; [by intros [? [=]]|].
      unfold Radix_search_exact, radix_search_exact. by rewrite Hsearch.
    + by rewrite lookup_insert_eq, Hfresh.
Qed.

(** X4.  An insert leaves the other prefixes where they are: in a reachable
    state, after [Radix_add] of a valid prefix [p], the exact search for any
    query that does not equal [p] returns what it returned before. *)
Theorem Radix_add_keeps_others w p q :
  reachable w → prefix_valid p = true → prefix_equal p q = false →
  (Radix_search_exact (Radix_add w p).2 q).1 = (Radix_search_exact w q).1.
Proof.
  intros Hreach Hvalid Hne.
  pose proof (reachable_ok _ Hreach) as Hok.
  pose proof (reachable_ok _ (reach_add _ _ Hreach Hvalid)) as Hok'.
  apply Radix_search_exact_ext; [done..|]. intros s h Heq.
  destruct (Radix_add_cases w p Hok Hvalid)
    as [[_ Hadd]|[(h0 & o & Hin & Ho & Hadd)
                 |(t & node & Hsearch & Hfresh & _ & Hperm & Hadd)]];
    rewrite Hadd; simpl; [done..|].
  rewrite Hperm, elem_of_cons. split; [|by right].
  intros [[= -> _]|Hin]; [congruence|done].
Qed.

(** X5.  [Radix_delete] succeeds exactly on the prefixes that
    [Radix_search_exact] finds: in a reachable state, when the exact search
    returns a handle the delete of the same prefix returns None (it does not
    raise), and when the search returns None the delete raises KeyError and
    leaves the state as it is. *)
Theorem Radix_delete_iff_found w p :
  reachable w →
  match (Radix_search_exact w p).1 with
  | Some _ => (Radix_delete w p).1 = Return tt
  | None => Radix_delete w p = (Raise KeyError, w)
  end.
Proof.
  intros Hok%reachable_ok.
  unfold Radix_search_exact, Radix_delete, radix_search_exact.
  destruct (search_exact_walk p (head (rt (self w)))) as [node|] eqn:Hsearch;
    [|done].
  destruct (search_exact_walk_sound _ _ _ Hsearch) as (s & _ & _ & Hin).
  destruct (ok_data _ Hok _ _ Hin) as (h & -> & _). done.
Qed.

(** X6.  Delete, then search.  In a reachable state, after [Radix_delete] of
    a valid prefix has returned, the exact search for that prefix returns
    None and changes nothing, a second delete of it raises KeyError, and
    the count of the tree is one less. *)
Theorem Radix_delete_then_search w p :
  reachable w → prefix_valid p = true → (Radix_delete w p).1 = Return tt →
  Radix_search_exact (Radix_delete w p).2 p = (None, (Radix_delete w p).2) ∧
  Radix_delete (Radix_delete w p).2 p
    = (Raise KeyError, (Radix_delete w p).2) ∧
  count (rt (self (Radix_delete w p).2)) = count (rt (self w)) - 1.
Proof.
  intros Hreach Hvalid Hret.
  pose proof (reachable_ok _ Hreach) as Hok.
  pose proof (reachable_ok _ (reach_delete _ _ Hreach Hvalid)) as Hok'.
  destruct (Radix_delete_cases w p Hok Hvalid)
    as [[_ Hdel]|(h & o & Hin & Ho & Hperm & Hdel)];
    [by rewrite Hdel in Hret|].
  pose proof (Radix_delete_removed w p Hreach Hvalid Hret) as Habsent.
  split_and!.
  - unfold Radix_search_exact, radix_search_exact.
    destruct (search_exact_walk p _) as [node|] eqn:Hsearch; [|done].
    destruct (search_exact_walk_sound _ _ _ Hsearch) as (s & _ & Heq & Hs).
    by rewrite (Habsent _ _ Hs) in Heq.
  - by apply Radix_delete_not_found.
  - by rewrite Hdel.
Qed.

(** X7.  A delete leaves the other prefixes where they are: in a reachable
    state, after [Radix_delete] of a valid prefix [p], the exact search for
    any query that does not equal [p] returns what it returned before. *)
Theorem Radix_delete_keeps_others w p q :
  reachable w → prefix_valid p = true → prefix_equal p q = false →
  (Radix_search_exact (Radix_delete w p).2 q).1 = (Radix_search_exact w q).1.
Proof.
  intros Hreach Hvalid Hne.
  pose proof (reachable_ok _ Hreach) as Hok.
  pose proof (reachable_ok _ (reach_delete _ _ Hreach Hvalid)) as Hok'.
  apply Radix_search_exact_ext; [done..|]. intros s h Heq.
  destruct (Radix_delete_cases w p Hok Hvalid)
    as [[_ Hdel]|(h0 & o & Hin & Ho & Hperm & Hdel)];
    rewrite Hdel; simpl; [done|].
  rewrite Hperm, elem_of_cons. split; [by right|].
  intros [[= -> _]|Hs]; [congruence|done].
Qed.

(** X8.  What a delete does to the handle.  When the exact search finds the
    handle [h] of a prefix, [Radix_delete] of that prefix returns, clears
    the handle's pointer to its node and gives the tree's reference back:
    the handle whose only reference was the tree's is deallocated; a handle
    that the caller still holds stays in the store with one reference less,
    and keeps its dictionary and its other fields.  No other object of the
    store changes. *)
Theorem Radix_delete_detaches_handle w p h o :
  (Radix_search_exact w p).1 = Some h → heap w !! h = Some o →
  (Radix_delete w p).1 = Return tt ∧
  heap (Radix_delete w p).2 !! h =
    (if decide (obj_refcnt o = 1) then None
     else Some (obj_set_refcnt (obj_set_rn o None) (obj_refcnt o - 1))) ∧
  ∀ h', h' ≠ h → heap (Radix_delete w p).2 !! h' = heap w !! h'.
Proof.
  unfold Radix_search_exact, Radix_delete, radix_search_exact.
  destruct (search_exact_walk p (head (rt (self w)))) as [node|]; [|done].
  destruct (node_data node) as [h0|]; [|done]. simpl. intros [= ->] Ho.
  unfold clear_rn, Py_DECREF. rewrite Ho, lookup_insert_eq. simpl.
  split; [done|]. split.
  - destruct (Z.eqb_spec (obj_refcnt o - 1) 0); case_decide; try lia.
    + by rewrite lookup_delete_eq.
    + by rewrite lookup_insert_eq.
  - intros h' Hne. destruct (obj_refcnt o - 1 =? 0).
    + by rewrite lookup_delete_ne, lookup_insert_ne.
    + by rewrite !lookup_insert_ne.
Qed.

(** X9.  Delete, then insert again.  In a reachable state, after
    [Radix_delete] of a valid prefix has returned, [Radix_add] of the same
    prefix creates a new handle: an object that was not in the store, with
    an empty dictionary and two references.  What the caller had written
    into the dictionary of the former handle is not in the new one. *)
Theorem Radix_delete_then_add w p :
  reachable w → prefix_valid p = true → (Radix_delete w p).1 = Return tt →
  ∃ h, (Radix_add (Radix_delete w p).2 p).1 = Return h ∧
       heap (Radix_delete w p).2 !! h = None ∧
       heap (Radix_add (Radix_delete w p).2 p).2 !! h =
         Some (RadixNode 2 ∅ (prefix_addr_ntop p) (prefix_ntop p)
                 (Z.of_nat (bitlen p)) (family_code (family p))
                 (take (family_bytes (family p)) (add p)) (Some p)) ∧
       ∀ k v, data_getitem h k (Radix_add (Radix_delete w p).2 p).2 ≠ Some v.
Proof.
  intros Hreach Hvalid Hret.
  pose proof (reachable_ok _ Hreach) as Hok.
  pose proof (reachable_ok _ (reach_delete _ _ Hreach Hvalid)) as Hok'.
  assert (tree_family (self (Radix_delete w p).2) = family_code (family p))
    as Hfam.
  { rewrite Radix_delete_family.
    destruct (Radix_delete_cases w p Hok Hvalid)
      as [[_ Hdel]|(h & o & Hin & _)]; [by rewrite Hdel in Hret|].
    by destruct (ok_family _ Hok _ _ Hin) as [_ ->]. }
  destruct (Radix_add_cases _ p Hok' Hvalid)
    as [[Hnone _]|[(h0 & o & Hin & Ho & Hadd)
                  |(t & node & Hsearch & Hfresh & _ & _ & Hadd)]].
  - apply add_family_None in Hnone as [_ Hne]. congruence.
  - pose proof (Radix_delete_removed w p Hreach Hvalid Hret _ _ Hin) as Heq.
    by rewrite prefix_equal_refl in Heq.
  - eexists. rewrite Hadd. simpl. split_and!; try done.
    + by rewrite lookup_insert_eq.
    + intros k v. unfold data_getitem. simpl. by rewrite lookup_insert_eq.
Qed.

(** X10.  The family of a tree stays bound.  Once the tree has a family, no
    sequence of inserts, deletes, searches, listings and iterator steps
    changes it, and after any such sequence the insert of a prefix of
    another family still raises ValueError and changes nothing: also when
    every prefix has been deleted and the tree is empty again. *)
Theorem family_stays_bound w it cs q :
  tree_family (self w) ≠ -1 →
  family_code (family q) ≠ tree_family (self w) →
  tree_family (self (run_calls cs (w, it)).1.1) = tree_family (self w) ∧
  Radix_add (run_calls cs (w, it)).1.1 q
    = (Raise ValueError, (run_calls cs (w, it)).1.1).
Proof.
  intros Hb Hne.
  assert (tree_family (self (run_calls cs (w, it)).1.1) = tree_family (self w))
    as Hfam.
  { clear Hne. revert w it Hb. induction cs as [|c cs IH]; intros w it Hb;
      [done|].
    cbn [run_calls]. pose proof (run_call_family c (w, it) Hb) as Hc.
    destruct (run_call c (w, it)) as [[w' it'] b]. simpl in Hc.
    specialize (IH w' it'). destruct (run_calls cs (w', it')) as [st'' k].
    simpl in *. rewrite IH; [done|congruence]. }
  split; [done|]. unfold Radix_add.
  assert (add_family (self (run_calls cs (w, it)).1.1) q = None) as ->; [|done].
  apply add_family_None. rewrite Hfam. done.
Qed.

(** X11.  A search takes one reference and changes nothing else.  In a
    reachable state [Radix_search_exact] and [Radix_search_best] either
    return None and leave the state as it is, or return a handle of the
    store whose reference count they increment; the tree object and every
    other object of the store are as before. *)
Theorem search_takes_one_reference w q :
  reachable w →
  match (Radix_search_exact w q).1 with
  | None => (Radix_search_exact w q).2 = w
  | Some h =>
      ∃ o, heap w !! h = Some o ∧
           (Radix_search_exact w q).2 =
           World (self w) (<[h := obj_set_refcnt o (obj_refcnt o + 1)]> (heap w))
  end ∧
  match (Radix_search_best w q).1 with
  | None => (Radix_search_best w q).2 = w
  | Some h =>
      ∃ o, heap w !! h = Some o ∧
           (Radix_search_best w q).2 =
           World (self w) (<[h := obj_set_refcnt o (obj_refcnt o + 1)]> (heap w))
  end.
Proof.
  intros Hok%reachable_ok.
  assert (Hlive : ∀ s h, (s, Some h) ∈ data_nodes (head (rt (self w))) →
    ∃ o, heap w !! h = Some o ∧
         World (self w) (Py_INCREF h (heap w)) =
         World (self w) (<[h := obj_set_refcnt o (obj_refcnt o + 1)]> (heap w))).
  { intros s h Hin. destruct (world_ok_handle_live _ _ _ Hok Hin) as [o Ho].
    exists o. by rewrite (Py_INCREF_insert _ _ _ Ho). }
  split.
  - unfold Radix_search_exact, radix_search_exact.
    destruct (search_exact_walk q (head (rt (self w)))) as [node|] eqn:Hsearch;
      [|done].
    destruct (search_exact_walk_sound _ _ _ Hsearch) as (s & _ & _ & Hin).
    destruct (node_data node) as [h|]; [|done]. simpl. by eapply Hlive.
  - unfold Radix_search_best, radix_search_best.
    destruct (search_best_walk_node q (head (rt (self w))) None)
      as [->|(node & s & -> & _ & Hin)]; [done|].
    destruct (node_data node) as [h|]; [|done]. simpl. by eapply Hlive.
Qed.


(** X13.  The listings.  In a reachable state [Radix_prefixes] returns the
    CIDR strings of the prefixes of the tree, in the order of the walk, and
    leaves the state as it is; [Radix_nodes] returns one handle for each
    prefix of the tree and no handle twice; their number is the count of
    the tree. *)
Theorem Radix_prefixes_lists_tree w :
  reachable w →
  (Radix_prefixes w).1 = prefix_ntop <$> prefixes (head (rt (self w))) ∧
  (Radix_prefixes w).2 = w ∧
  length (Radix_nodes w).1 = length (prefixes (head (rt (self w)))) ∧
  Z.of_nat (length (Radix_nodes w).1) = count (rt (self w)) ∧
  NoDup (Radix_nodes w).1.
Proof.
  intros Hok%reachable_ok.
  destruct (walk_handles_ok (heap w) (data_nodes (head (rt (self w))))
              (ok_data _ Hok)) as (Hstr & Hlen & Hnd).
  unfold Radix_prefixes, Radix_nodes, walk_handles, RADIX_WALK. simpl.
  rewrite prefixes_data_nodes, length_fmap, <-list_fmap_compose.
  split_and!; try done.
  - by rewrite Hlen, (ok_count _ Hok).
  - apply Hnd, (ok_nodup _ Hok).
Qed.

(** X14.  A whole iteration.  In a reachable state, an iterator obtained
    from [Radix_getiter] and advanced with no insert and no delete in
    between yields the handles that [Radix_nodes] lists, in the same order
    and once each; every call after that returns NULL with no exception
    set, the end of the iteration. *)
Theorem iteration_yields_nodes w k :
  reachable w →
  iter_results (length (Radix_nodes w).1 + k) (Radix_getiter w)
  = (Yield <$> (Radix_nodes w).1) ++ replicate k StopIteration.
Proof.
  intros Hh%reachable_height.
  apply (iter_results_pending_more (height (head (rt (self w))))); try done.
  - split; simpl; [lia|done].
  - unfold pending. simpl. by rewrite app_nil_r.
Qed.

(** X15.  When an iterator is refused.  For an iterator created in a
    reachable state and any sequence of calls on the tree after that,
    [RadixIter_iternext] raises RuntimeWarning exactly when the number of
    inserts and deletes of the sequence that returned is not a multiple of
    2^32.  In particular searches, listings, and inserts and deletes that
    raise an exception never make an iterator unusable. *)
Theorem iternext_raises_iff w cs :
  reachable w →
  (RadixIter_iternext
     (run_calls cs ((Radix_getiter w).2, (Radix_getiter w).1)).1.2
     (run_calls cs ((Radix_getiter w).2, (Radix_getiter w).1)).1.1).1.1
    = IterRaise RuntimeWarning ↔
  Z.of_nat (run_calls cs ((Radix_getiter w).2, (Radix_getiter w).1)).2
    mod 2 ^ 32 ≠ 0.
Proof.
  intros Hg%reachable_gen_id.
  set (st0 := ((Radix_getiter w).2, (Radix_getiter w).1)).
  destruct (run_calls_gen_id cs st0) as [Hgen Hit].
  change (gen_id (self st0.1)) with (gen_id (self w)) in Hgen.
  change (iter_gen_id st0.2) with (gen_id (self w)) in Hit.
  split.
  - intros Hraise Hzero.
    rewrite RadixIter_iternext_match in Hraise.
    { by apply iternext_again_not_raise in Hraise. }
    rewrite Hgen, Hit.
    destruct (run_calls cs st0).2 as [|k]; [done|].
    rewrite iter_gen_id_incr. symmetry.
    rewrite Zplus_mod, Hzero, Z.add_0_r, Z.mod_mod by done.
    by apply Z.mod_small.
  - intros Hk. rewrite RadixIter_iternext_mismatch; [done|].
    rewrite Hgen, Hit. intros Heq. symmetry in Heq.
    by apply iter_gen_id_incr_ne in Heq.
Qed.

(** X16.  What [Radix_dealloc] leaves.  When a tree in a reachable state is
    deallocated, every handle of the tree loses its pointer to its node and
    the tree's reference: a handle that only the tree held is deallocated,
    a handle that the caller holds stays in the store with its dictionary
    and its other fields.  An object that is not a handle of the tree is
    not touched. *)
Theorem Radix_dealloc_detaches_handles w h o :
  reachable w → heap w !! h = Some o →
  Radix_dealloc w !! h =
    if decide (h ∈ (Radix_nodes w).1) then
      if decide (obj_refcnt o = 1) then None
      else Some (obj_set_refcnt (obj_set_rn o None) (obj_refcnt o - 1))
    else Some o.
Proof.
  intros Hreach Ho.
  pose proof (walk_handles_nodup _ (reachable_ok _ Hreach)) as Hnd.
  unfold Radix_dealloc, Radix_nodes. simpl.
  by rewrite (foldr_detach_lookup _ _ _ Hnd), Ho.
Qed.

(** X17.  The life of an iterator.  On a tree that is alive, creating an
    iterator with [Radix_getiter], advancing it any number of times and
    deallocating it leaves the tree object as it was before the iterator
    was created: its tree, family, generation and reference count.  The
    tree is not deallocated. *)
Theorem iterator_life_keeps_tree w n :
  0 < ob_refcnt (self w) →
  RadixIter_dealloc (iter_advance n (Radix_getiter w)).1
    (iter_advance n (Radix_getiter w)).2
  = Alive (World (self w) (heap (iter_advance n (Radix_getiter w)).2)).
Proof.
  intros Hlive.
  assert (Hkeep : ∀ m st, self (iter_advance m st).2 = self st.2).
  { induction m as [|m IH]; intros [it w0]; [done|].
    cbn [iter_advance fst snd].
    destruct (RadixIter_iternext_frame it w0) as [Hs _].
    destruct (RadixIter_iternext it w0) as [[res it'] w']. simpl in Hs.
    by rewrite IH. }
  unfold RadixIter_dealloc, Radix_DECREF. rewrite Hkeep. simpl.
  destruct (Z.eqb_spec (ob_refcnt (self w) + 1 - 1) 0) as [?|_]; [lia|].
  do 2 f_equal. destruct (self w). unfold set_refcnt. simpl. f_equal. lia.
Qed.

(** X18.  A new tree.  [radix_Radix] without arguments returns a tree with
    no family and generation 0.  On it every search returns None and every
    delete raises KeyError, and they leave it as it is; the listings are
    empty; a new iterator is at its end at once; and the insert of any
    prefix, of either family, returns a handle, binds the family of the
    tree to the family of the prefix, and makes that handle the one entry
    of [Radix_nodes]. *)
Theorem new_tree_is_empty :
  radix_Radix [] = Return newRadixObject ∧
  tree_family (self newRadixObject) = -1 ∧
  gen_id (self newRadixObject) = 0 ∧
  (∀ q, Radix_search_exact newRadixObject q = (None, newRadixObject) ∧
        Radix_search_best newRadixObject q = (None, newRadixObject) ∧
        Radix_delete newRadixObject q = (Raise KeyError, newRadixObject)) ∧
  Radix_nodes newRadixObject = ([], newRadixObject) ∧
  Radix_prefixes newRadixObject = ([], newRadixObject) ∧
  (RadixIter_iternext (Radix_getiter newRadixObject).1
     (Radix_getiter newRadixObject).2).1.1 = StopIteration ∧
  ∀ p, ∃ h,
    (Radix_add newRadixObject p).1 = Return h ∧
    tree_family (self (Radix_add newRadixObject p).2)
      = family_code (family p) ∧
    (Radix_nodes (Radix_add newRadixObject p).2).1 = [h] ∧
    (Radix_prefixes (Radix_add newRadixObject p).2).1 = [prefix_ntop p].
Proof.
  split_and!; try done.
  intros p. exists (fresh (dom (heap newRadixObject))).
  rewrite Radix_add_unfold. simpl.
  unfold Radix_nodes, Radix_prefixes, walk_handles, RADIX_WALK, assign_data.
  simpl. rewrite Nat.ltb_irrefl. simpl.
  unfold Py_INCREF. rewrite lookup_insert_eq. simpl.
  by rewrite lookup_insert_eq.
Qed.

(** X19.  The fields of a handle are never changed.  Whatever the state, no
    call on the tree or on an iterator (insert, delete, search, listing,
    iterator step) changes the [network], [prefix], [prefixlen], [family]
    and [packed] fields or the dictionary of an object that is in the store
    before and after the call. *)
Theorem call_keeps_handle_fields c st h o o' :
  heap st.1 !! h = Some o → heap (run_call c st).1.1 !! h = Some o' →
  network o' = network o ∧ obj_prefix o' = obj_prefix o ∧
  prefixlen o' = prefixlen o ∧ obj_family o' = obj_family o ∧
  packed o' = packed o ∧ user_attr o' = user_attr o.
Proof.
  intros Ho Ho'. pose proof (run_call_fields c st h o o' Ho Ho') as Hf.
  unfold obj_fields, obj_ident in Hf. by simplify_eq.
Qed.

(** X20.  The references of a listing.  In a reachable state [Radix_nodes]
    leaves the tree object as it is and gives each handle of its list one
    more reference; each of them is in the store, and no other object of
    the store changes. *)
Theorem Radix_nodes_references w h :
  reachable w →
  self (Radix_nodes w).2 = self w ∧
  (h ∈ (Radix_nodes w).1 → is_Some (heap w !! h)) ∧
  heap (Radix_nodes w).2 !! h =
    if decide (h ∈ (Radix_nodes w).1)
    then (λ o, obj_set_refcnt o (obj_refcnt o + 1)) <$> heap w !! h
    else heap w !! h.
Proof.
  intros Hok%reachable_ok. split; [done|]. split.
  - intros [s Hin]%elem_of_walk_handles. by eapply world_ok_handle_live.
  - apply foldr_Py_INCREF_lookup, walk_handles_nodup, Hok.
Qed.

(** X21.  The handles of one tree.  In a reachable state every handle that
    [Radix_nodes] lists is in the store and has the family of the tree in
    its [family] field; its [packed] field has 4 bytes and its [prefixlen]
    is at most 32 when the family is AF_INET, and 16 bytes and at most 128
    when it is AF_INET6. *)
Theorem handles_have_tree_family w h :
  reachable w → h ∈ (Radix_nodes w).1 →
  ∃ o, heap w !! h = Some o ∧
       obj_family o = tree_family (self w) ∧
       (obj_family o = 2 ∧ length (packed o) = 4%nat ∧ 0 ≤ prefixlen o ≤ 32 ∨
        obj_family o = 10 ∧ length (packed o) = 16%nat ∧
        0 ≤ prefixlen o ≤ 128).
Proof.
  intros Hok%reachable_ok [s Hin]%elem_of_walk_handles.
  destruct (ok_data _ Hok _ _ Hin) as (h' & [= <-] & Hident).
  destruct (ok_family _ Hok _ _ Hin) as [Hvalid Hfam].
  apply lookup_ident in Hident as (o & Ho & Hident).
  apply prefix_valid_spec in Hvalid as (Hlen & Hbytes & _).
  assert (prefixlen o = Z.of_nat (bitlen s) ∧
          obj_family o = family_code (family s) ∧
          packed o = take (family_bytes (family s)) (add s))
    as (Hl & Hf & Hp).
  { unfold obj_ident, prefix_ident in Hident. split_and!; congruence. }
  exists o. split; [done|]. rewrite Hl, Hf, Hp. split; [done|].
  rewrite length_take, Hbytes.
  destruct (family s); simpl in *; [left|right]; split_and!; try done; lia.
Qed.

(** X22.  The depth of the trees that the binding builds.  In a reachable
    state no path of the tree has more than [RADIX_MAXBITS + 1] nodes, and
    an iterator on it, advanced any number of times, never holds more than
    [RADIX_MAXBITS + 1] entries on its stack and never pushes after the
    last slot of [iterstack]. *)
Theorem reachable_iterstack_in_bounds w n :
  reachable w →
  (height (head (rt (self w))) ≤ RADIX_MAXBITS + 1)%nat ∧
  (length (iterstack (iter_advance n (Radix_getiter w)).1)
     ≤ RADIX_MAXBITS + 1)%nat ∧
  (RadixIter_iternext (iter_advance n (Radix_getiter w)).1
     (iter_advance n (Radix_getiter w)).2).1.1 ≠ OutOfBounds.
Proof.
  intros HH%reachable_height. split; [done|].
  assert (Hinv : ∀ n st,
    iter_ok (height (head (rt (self w)))) (iterstack st.1) (iter_rn st.1) →
    iter_ok (height (head (rt (self w))))
      (iterstack (iter_advance n st).1) (iter_rn (iter_advance n st).1)).
  { clear n. induction n as [|n IH]; intros [it w'] Hok; [done|].
    cbn [iter_advance fst snd].
    destruct (RadixIter_iternext_ok _ it w' HH Hok) as [_ Hok'].
    destruct (RadixIter_iternext it w') as [[res it'] w'']. by apply IH. }
  assert (iter_ok (height (head (rt (self w))))
            (iterstack (Radix_getiter w).1) (iter_rn (Radix_getiter w).1))
    as Hok0.
  { split; simpl; [lia|done]. }
  specialize (Hinv n _ Hok0). split.
  - apply iter_ok_length in Hinv. lia.
  - by eapply RadixIter_iternext_ok.
Qed.

(** X23.  The listing after an insert and after a delete.  In a reachable
    state, when [Radix_add] of a valid prefix returns the handle [h], the
    handles of [Radix_nodes] afterwards are those of before, with [h] added
    when the prefix was not in the tree; and when [Radix_delete] of a valid
    prefix returns, the handles of before are those of afterwards and the
    handle that the exact search found for that prefix. *)
Theorem Radix_nodes_after_change w p :
  reachable w → prefix_valid p = true →
  (∀ h, (Radix_add w p).1 = Return h →
     (Radix_nodes (Radix_add w p).2).1 ≡ₚ
     match (Radix_search_exact w p).1 with
     | Some _ => (Radix_nodes w).1
     | None => h :: (Radix_nodes w).1
     end) ∧
  ((Radix_delete w p).1 = Return tt →
   ∃ h, (Radix_search_exact w p).1 = Some h ∧
        (Radix_nodes w).1 ≡ₚ h :: (Radix_nodes (Radix_delete w p).2).1).
Proof.
  intros Hok%reachable_ok Hvalid.
  unfold Radix_nodes, walk_handles, RADIX_WALK. simpl. split.
  - intros h Hret.
    destruct (Radix_add_cases w p Hok Hvalid)
      as [[_ Hadd]|[(h0 & o & Hin & Ho & Hadd)
                   |(t & node & Hsearch & Hfresh & _ & Hperm & Hadd)]];
      rewrite Hadd in Hret |- *; simpl in *; simplify_eq.
    + assert ((Radix_search_exact w p).1 = Some h) as ->; [|done].
      apply Radix_search_exact_spec; [done|]. exists p.
      by rewrite prefix_equal_refl.
    + assert ((Radix_search_exact w p).1 = None) as ->.
      { unfold Radix_search_exact, radix_search_exact. by rewrite Hsearch. }
      by rewrite Hperm.
  - intros Hret.
    destruct (Radix_delete_cases w p Hok Hvalid)
      as [[_ Hdel]|(h & o & Hin & Ho & Hperm & Hdel)];
      rewrite Hdel in Hret |- *; simpl in *; [done|].
    exists h. split.
    + apply Radix_search_exact_spec; [done|]. exists p.
      by rewrite prefix_equal_refl.
    + by rewrite Hperm.
Qed.


(** X25.  What the exact search returns.  In a reachable state, the handle
    that [Radix_search_exact] returns for a valid query has the fields of
    the query: its CIDR string, address string, bit length, family and
    address bytes. *)
Theorem search_exact_returns_query w q h :
  reachable w → prefix_valid q = true →
  (Radix_search_exact w q).1 = Some h →
  ∃ o, heap w !! h = Some o ∧
       network o = prefix_addr_ntop q ∧ obj_prefix o = prefix_ntop q ∧
       prefixlen o = Z.of_nat (bitlen q) ∧
       obj_family o = family_code (family q) ∧ packed o = add q.
Proof.
  intros Hok%reachable_ok Hvalid Hfound.
  apply Radix_search_exact_spec in Hfound as (s & Hin & Heq); [|done].
  pose proof (stored_prefix_eq _ _ _ _ Hok Hvalid Hin Heq) as ->.
  destruct (ok_data _ Hok _ _ Hin) as (h' & [= <-] & Hident).
  apply lookup_ident in Hident as (o & Ho & Hident).
  apply prefix_valid_spec in Hvalid as (_ & Hbytes & _).
  exists o. split; [done|].
  unfold obj_ident, prefix_ident in Hident.
  rewrite take_ge in Hident by lia. split_and!; congruence.
Qed.

(** X26.  The two forms of an address.  In a reachable state, when the
    arguments of an insert and the arguments of an exact search, each in
    the text form or in the packed form, are parsed into the same valid
    prefix, and the insert returns a handle, the search after the insert
    returns that handle. *)
Theorem address_forms_agree pton from_blob w p h
    addr packed prefixlen addr' packed' prefixlen' :
  reachable w → prefix_valid p = true →
  args_to_prefix pton from_blob addr packed prefixlen = Return p →
  args_to_prefix pton from_blob addr' packed' prefixlen' = Return p →
  (Radix_add_kw pton from_blob w addr packed prefixlen).1 = Return h →
  (Radix_search_exact_kw pton from_blob
     (Radix_add_kw pton from_blob w addr packed prefixlen).2
     addr' packed' prefixlen').1 = Return (Some h).
Proof.
  intros Hreach Hvalid Hadd Hsearch.
  unfold Radix_add_kw, Radix_search_exact_kw. rewrite Hadd, Hsearch.
  intros Hret. simpl. f_equal.
  pose proof (reachable_ok _ Hreach) as Hok.
  pose proof (reachable_ok _ (reach_add _ _ Hreach Hvalid)) as Hok'.
  apply Radix_search_exact_spec; [done|]. exists p.
  split; [by apply Radix_add_stored|apply prefix_equal_refl].
Qed.

End Binding.

(** * The claims on examples *)



(** C2: 10.1.0.0/16 is added to the tree with 10.0.0.0/8 and searched. *)
Lemma add_then_search_exact_witness :
  reachable example_ntop (world1 example_ntop) ∧
  prefix_valid net16 = true ∧
  (Radix_add example_ntop (world1 example_ntop) net16).1 = Return 1%nat ∧
  ∃ o, (Radix_search_exact
          (Radix_add example_ntop (world1 example_ntop) net16).2 net16).1
       = Some 1%nat ∧
       heap (Radix_search_exact
               (Radix_add example_ntop (world1 example_ntop) net16).2 net16).2
         !! 1%nat = Some o ∧
       obj_prefix o = prefix_ntop example_ntop net16 ∧
       prefixlen o = Z.of_nat (bitlen net16) ∧
       obj_family o = family_code (family net16).
Proof.
  split; [apply reachable_world1|]. split; [reflexivity|].
  split; [reflexivity|].
  apply (add_then_search_exact example_ntop (world1 example_ntop) net16 1%nat
           (reachable_world1 example_ntop)); reflexivity.
Defined.

(** C3: 10.1.0.0/16 is added again to the tree that has it. *)
Lemma add_twice_same_handle_witness :
  reachable example_ntop (world2 example_ntop) ∧
  (Radix_search_exact (world2 example_ntop) net16).1 = Some 1%nat ∧
  (Radix_add example_ntop (world2 example_ntop) net16).1 = Return 1%nat ∧
  gen_id (self (Radix_add example_ntop (world2 example_ntop) net16).2)
    = (gen_id (self (world2 example_ntop)) + 1) mod 2 ^ 32.
Proof.
  split; [apply reachable_world2|]. split; [reflexivity|].
  destruct (add_twice_same_handle example_ntop (world2 example_ntop) net16
              1%nat (reachable_world2 example_ntop) eq_refl)
    as (Hret & _ & Hgen & _).
  exact (conj Hret Hgen).
Defined.

(** C4: an IPv6 prefix is added to the tree with 10.0.0.0/8. *)
Lemma add_family_mismatch_witness :
  tree_family (self (world1 example_ntop)) ≠ -1 ∧
  family_code (family v6net) ≠ tree_family (self (world1 example_ntop)) ∧
  Radix_add example_ntop (world1 example_ntop) v6net
    = (Raise ValueError, world1 example_ntop).
Proof.
  split; [discriminate|]. split; [discriminate|].
  destruct (add_family_mismatch example_ntop (world1 example_ntop) v6net)
    as (_ & _ & H).
  apply H; discriminate.
Defined.

(** C6: 11.0.0.0/8 is deleted from the tree with 10.0.0.0/8. *)
Lemma delete_absent_not_found_witness :
  (∀ s d, (s, d) ∈ data_nodes (head (rt (self (world1 example_ntop)))) →
          prefix_equal s other8 = false) ∧
  Radix_delete (world1 example_ntop) other8
    = (Raise KeyError, world1 example_ntop).
Proof.
  assert (∀ s d, (s, d) ∈ data_nodes (head (rt (self (world1 example_ntop)))) →
                 prefix_equal s other8 = false) as Habsent.
  { intros s d Hin.
    change (data_nodes (head (rt (self (world1 example_ntop)))))
      with [(net8, Some 0%nat)] in Hin.
    apply list_elem_of_singleton in Hin. injection Hin as -> _. reflexivity. }
  split; [exact Habsent|].
  exact (proj1 (delete_absent_not_found (world1 example_ntop) other8 Habsent)).
Defined.



(** C8: the claim fails on a new tree, held by its creator alone: after an
    iterator is created the reference count is 2, and when the creator
    drops its reference the tree is not deallocated. *)
Lemma iterator_keeps_tree_alive :
  ob_refcnt (self newRadixObject) = 1 ∧
  ob_refcnt (self (newRadixIterObject newRadixObject).2) = 2 ∧
  ∀ hp, Radix_DECREF (newRadixIterObject newRadixObject).2 ≠ Destroyed hp.
Proof. split_and!; [reflexivity|reflexivity|discriminate]. Qed.

Lemma iterator_owns_parent_witness :
  ob_refcnt (self newRadixObject) = Z.of_nat 1 ∧
  drop_refs 1 (newRadixIterObject newRadixObject).2
    = Alive (World (set_refcnt (self newRadixObject) 1) (heap newRadixObject)).
Proof.
  split; [reflexivity|].
  exact (proj1 (proj2 (iterator_owns_parent newRadixObject 1 eq_refl))).
Defined.

(** C10 on the tree with 10.0.0.0/8 and 10.1.0.0/16, after one call. *)
Lemma iterstack_in_bounds_witness :
  (height (head (rt (self (world2 example_ntop)))) ≤ RADIX_MAXBITS + 1)%nat ∧
  (length (iterstack
             (iter_advance 1 (newRadixIterObject (world2 example_ntop))).1)
     ≤ RADIX_MAXBITS + 1)%nat.
Proof.
  assert (height (head (rt (self (world2 example_ntop)))) ≤ RADIX_MAXBITS + 1)%nat
    as Hh by (vm_compute; lia).
  split; [exact Hh|].
  exact (proj1 (iterstack_in_bounds (world2 example_ntop) 1 Hh)).
Defined.

(** C5, as amended: an insert between the creation of the iterator and the
    call. *)
Lemma iternext_detects_mutation_witness :
  Z.of_nat
    (run_calls example_ntop [CallAdd net16]
       ((newRadixIterObject (world1 example_ntop)).2,
        (newRadixIterObject (world1 example_ntop)).1)).2 mod 2 ^ 32 ≠ 0 ∧
  (RadixIter_iternext
     (run_calls example_ntop [CallAdd net16]
        ((newRadixIterObject (world1 example_ntop)).2,
         (newRadixIterObject (world1 example_ntop)).1)).1.2
     (run_calls example_ntop [CallAdd net16]
        ((newRadixIterObject (world1 example_ntop)).2,
         (newRadixIterObject (world1 example_ntop)).1)).1.1).1.1
  = IterRaise RuntimeWarning.
Proof.
  assert (Z.of_nat
    (run_calls example_ntop [CallAdd net16]
       ((newRadixIterObject (world1 example_ntop)).2,
        (newRadixIterObject (world1 example_ntop)).1)).2 mod 2 ^ 32 ≠ 0) as Hk.
  { vm_compute. discriminate. }
  split; [exact Hk|].
  rewrite (iternext_detects_mutation example_ntop (world1 example_ntop)
             [CallAdd net16] Hk).
  reflexivity.
Defined.

(** C5: the claim fails after 2^32 inserts.  An iterator is created on the
    tree with 10.0.0.0/8, whose [gen_id] is 1; then 10.0.0.0/8 is added
    again 2^32 times, and each of these calls returns.  [gen_id] is an
    [unsigned int] and is 1 again, so [RadixIter_iternext] sees no change
    and yields the handle of 10.0.0.0/8. *)
Lemma iternext_after_wraparound :
  Z.of_nat
    (run_calls example_ntop (replicate (Z.to_nat (2 ^ 32)) (CallAdd net8))
       ((newRadixIterObject (world1 example_ntop)).2,
        (newRadixIterObject (world1 example_ntop)).1)).2 = 2 ^ 32 ∧
  (RadixIter_iternext
     (run_calls example_ntop (replicate (Z.to_nat (2 ^ 32)) (CallAdd net8))
        ((newRadixIterObject (world1 example_ntop)).2,
         (newRadixIterObject (world1 example_ntop)).1)).1.2
     (run_calls example_ntop (replicate (Z.to_nat (2 ^ 32)) (CallAdd net8))
        ((newRadixIterObject (world1 example_ntop)).2,
         (newRadixIterObject (world1 example_ntop)).1)).1.1).1.1
  = Yield 0%nat.
Proof.
  assert (Z.of_nat (Z.to_nat (2 ^ 32)) = 2 ^ 32) as HN by (by apply Z2Nat.id).
  generalize dependent (Z.to_nat (2 ^ 32)). intros N HN.
  assert (world_ok example_ntop (newRadixIterObject (world1 example_ntop)).2)
    as Hok.
  { apply reachable_ok, (reach_getiter example_ntop), reachable_world1. }
  rewrite (run_calls_add_existing example_ntop N _ _ net8
             (Node 8 (Some net8) (Some 0%nat) NULL NULL) 0%nat Hok eq_refl eq_refl).
  split; [exact HN|].
  rewrite RadixIter_iternext_match; [reflexivity|].
  cbn [fst snd self]. rewrite iter_bump_gen_id.
  destruct N as [|k]; [discriminate|].
  rewrite iter_gen_id_incr, HN. reflexivity.
Qed.

(** * The further properties on examples *)

(** X3: 10.1.0.0/16 is added to the tree with 10.0.0.0/8. *)
Lemma Radix_add_reference_witness :
  reachable example_ntop (world1 example_ntop) ∧
  prefix_valid net16 = true ∧
  (Radix_add example_ntop (world1 example_ntop) net16).1 = Return 1%nat ∧
  heap (Radix_add example_ntop (world1 example_ntop) net16).2 !! 1%nat
    = Some (handle16 example_ntop).
Proof.
  split; [apply reachable_world1|]. split; [reflexivity|].
  split; [reflexivity|].
  exact (proj2 (proj2 (Radix_add_reference example_ntop
           (world1 example_ntop) net16 1%nat
           (reachable_world1 example_ntop) eq_refl eq_refl))).
Defined.

(** X4: after that insert the search for 10.0.0.0/8 returns its handle. *)
Lemma Radix_add_keeps_others_witness :
  reachable example_ntop (world1 example_ntop) ∧
  prefix_valid net16 = true ∧ prefix_equal net16 net8 = false ∧
  (Radix_search_exact
     (Radix_add example_ntop (world1 example_ntop) net16).2 net8).1
    = Some 0%nat.
Proof.
  split; [apply reachable_world1|]. split; [reflexivity|].
  split; [reflexivity|].
  exact (Radix_add_keeps_others example_ntop (world1 example_ntop) net16 net8
           (reachable_world1 example_ntop) eq_refl eq_refl).
Defined.

(** X5: 10.0.0.0/8 is found in its tree, and its delete returns. *)
Lemma Radix_delete_iff_found_witness :
  reachable example_ntop (world1 example_ntop) ∧
  (Radix_search_exact (world1 example_ntop) net8).1 = Some 0%nat ∧
  (Radix_delete (world1 example_ntop) net8).1 = Return tt.
Proof.
  split; [apply reachable_world1|]. split; [reflexivity|].
  exact (Radix_delete_iff_found example_ntop (world1 example_ntop) net8
           (reachable_world1 example_ntop)).
Defined.

(** X6: 10.1.0.0/16 is deleted from the tree with the two prefixes. *)
Lemma Radix_delete_then_search_witness :
  reachable example_ntop (world2 example_ntop) ∧
  prefix_valid net16 = true ∧
  (Radix_delete (world2 example_ntop) net16).1 = Return tt ∧
  (Radix_search_exact (Radix_delete (world2 example_ntop) net16).2 net16).1
    = None ∧
  (Radix_delete (Radix_delete (world2 example_ntop) net16).2 net16).1
    = Raise KeyError.
Proof.
  split; [apply reachable_world2|]. split; [reflexivity|].
  split; [reflexivity|].
  destruct (Radix_delete_then_search example_ntop (world2 example_ntop) net16
              (reachable_world2 example_ntop) eq_refl eq_refl)
    as (Hs & Hd & _).
  split; [exact (f_equal fst Hs)|exact (f_equal fst Hd)].
Defined.

(** X7: after that delete the search for 10.0.0.0/8 returns its handle. *)
Lemma Radix_delete_keeps_others_witness :
  reachable example_ntop (world2 example_ntop) ∧
  prefix_valid net16 = true ∧ prefix_equal net16 net8 = false ∧
  (Radix_search_exact (Radix_delete (world2 example_ntop) net16).2 net8).1
    = Some 0%nat.
Proof.
  split; [apply reachable_world2|]. split; [reflexivity|].
  split; [reflexivity|].
  exact (Radix_delete_keeps_others example_ntop (world2 example_ntop) net16
           net8 (reachable_world2 example_ntop) eq_refl eq_refl).
Defined.

(** X8: the caller holds the handle of 10.1.0.0/16 when the prefix is
    deleted: the handle stays, with one reference and no node. *)
Lemma Radix_delete_detaches_handle_witness :
  (Radix_search_exact (world2 example_ntop) net16).1 = Some 1%nat ∧
  heap (world2 example_ntop) !! 1%nat = Some (handle16 example_ntop) ∧
  heap (Radix_delete (world2 example_ntop) net16).2 !! 1%nat
    = Some (obj_set_refcnt (obj_set_rn (handle16 example_ntop) None) 1).
Proof.
  split; [reflexivity|]. split; [reflexivity|].
  exact (proj1 (proj2 (Radix_delete_detaches_handle
           (world2 example_ntop) net16 1%nat (handle16 example_ntop) eq_refl eq_refl))).
Defined.

(** X9: 10.1.0.0/16 is deleted and added again. *)
Lemma Radix_delete_then_add_witness :
  reachable example_ntop (world2 example_ntop) ∧
  prefix_valid net16 = true ∧
  (Radix_delete (world2 example_ntop) net16).1 = Return tt ∧
  ∃ h, (Radix_add example_ntop
          (Radix_delete (world2 example_ntop) net16).2 net16).1 = Return h ∧
       heap (Radix_delete (world2 example_ntop) net16).2 !! h = None.
Proof.
  split; [apply reachable_world2|]. split; [reflexivity|].
  split; [reflexivity|].
  destruct (Radix_delete_then_add example_ntop (world2 example_ntop) net16
              (reachable_world2 example_ntop) eq_refl eq_refl)
    as (h & Hret & Hnew & _).
  exact (ex_intro _ h (conj Hret Hnew)).
Defined.

(** X10: 10.0.0.0/8 is deleted from its tree; the empty tree still refuses
    an IPv6 prefix. *)
Lemma family_stays_bound_witness :
  tree_family (self (world1 example_ntop)) ≠ -1 ∧
  family_code (family v6net) ≠ tree_family (self (world1 example_ntop)) ∧
  (Radix_nodes
     (run_calls example_ntop [CallDelete net8]
        (world1 example_ntop, RadixIter [] NULL 0)).1.1).1 = [] ∧
  (Radix_add example_ntop
     (run_calls example_ntop [CallDelete net8]
        (world1 example_ntop, RadixIter [] NULL 0)).1.1 v6net).1
    = Raise ValueError.
Proof.
  assert (tree_family (self (world1 example_ntop)) ≠ -1) as Hb
    by discriminate.
  assert (family_code (family v6net)
          ≠ tree_family (self (world1 example_ntop))) as Hne by discriminate.
  split; [exact Hb|]. split; [exact Hne|]. split; [reflexivity|].
  exact (f_equal fst (proj2 (family_stays_bound example_ntop
           (world1 example_ntop) (RadixIter [] NULL 0) [CallDelete net8]
           v6net Hb Hne))).
Defined.

(** X11: the search for 10.1.2.3 in the tree with the two prefixes. *)
Lemma search_takes_one_reference_witness :
  reachable example_ntop (world2 example_ntop) ∧
  (Radix_search_exact (world2 example_ntop) host).2 = world2 example_ntop ∧
  ∃ o, heap (world2 example_ntop) !! 1%nat = Some o ∧
       (Radix_search_best (world2 example_ntop) host).2 =
       World (self (world2 example_ntop))
         (<[1%nat := obj_set_refcnt o (obj_refcnt o + 1)]>
            (heap (world2 example_ntop))).
Proof.
  split; [apply reachable_world2|].
  exact (search_takes_one_reference example_ntop (world2 example_ntop) host
           (reachable_world2 example_ntop)).
Defined.


(** X13: the listings of the tree with the two prefixes. *)
Lemma Radix_prefixes_lists_tree_witness :
  reachable example_ntop (world2 example_ntop) ∧
  (Radix_prefixes (world2 example_ntop)).1
    = prefix_ntop example_ntop <$> [net8; net16] ∧
  Z.of_nat (length (Radix_nodes (world2 example_ntop)).1) = 2.
Proof.
  split; [apply reachable_world2|].
  destruct (Radix_prefixes_lists_tree example_ntop (world2 example_ntop)
              (reachable_world2 example_ntop)) as (Hp & _ & _ & Hc & _).
  exact (conj Hp Hc).
Defined.

(** X14: the iteration of the tree with the two prefixes, one call after
    its end. *)
Lemma iteration_yields_nodes_witness :
  reachable example_ntop (world2 example_ntop) ∧
  iter_results 4 (Radix_getiter (world2 example_ntop))
    = [Yield 0%nat; Yield 1%nat; StopIteration; StopIteration].
Proof.
  split; [apply reachable_world2|].
  exact (iteration_yields_nodes example_ntop (world2 example_ntop) 2
           (reachable_world2 example_ntop)).
Defined.

(** X15: a listing and a delete that raises KeyError, between the creation
    of the iterator and the call: the iterator is not refused. *)
Lemma iternext_raises_iff_witness :
  reachable example_ntop (world1 example_ntop) ∧
  (run_calls example_ntop [CallRead ReadNodes; CallDelete other8]
     ((Radix_getiter (world1 example_ntop)).2,
      (Radix_getiter (world1 example_ntop)).1)).2 = 0%nat ∧
  (RadixIter_iternext
     (run_calls example_ntop [CallRead ReadNodes; CallDelete other8]
        ((Radix_getiter (world1 example_ntop)).2,
         (Radix_getiter (world1 example_ntop)).1)).1.2
     (run_calls example_ntop [CallRead ReadNodes; CallDelete other8]
        ((Radix_getiter (world1 example_ntop)).2,
         (Radix_getiter (world1 example_ntop)).1)).1.1).1.1
    ≠ IterRaise RuntimeWarning.
Proof.
  split; [apply reachable_world1|]. split; [reflexivity|].
  intros Hraise.
  apply (proj1 (iternext_raises_iff example_ntop (world1 example_ntop)
                  [CallRead ReadNodes; CallDelete other8]
                  (reachable_world1 example_ntop)) Hraise).
  reflexivity.
Defined.

(** X16: the tree with the two prefixes is deallocated while the caller
    holds the handle of 10.1.0.0/16. *)
Lemma Radix_dealloc_detaches_handles_witness :
  reachable example_ntop (world2 example_ntop) ∧
  heap (world2 example_ntop) !! 1%nat = Some (handle16 example_ntop) ∧
  Radix_dealloc (world2 example_ntop) !! 1%nat
    = Some (obj_set_refcnt (obj_set_rn (handle16 example_ntop) None) 1).
Proof.
  split; [apply reachable_world2|]. split; [reflexivity|].
  exact (Radix_dealloc_detaches_handles example_ntop (world2 example_ntop)
           1%nat (handle16 example_ntop) (reachable_world2 example_ntop) eq_refl).
Defined.

(** X17: an iterator on the tree with the two prefixes is advanced once and
    deallocated. *)
Lemma iterator_life_keeps_tree_witness :
  0 < ob_refcnt (self (world2 example_ntop)) ∧
  RadixIter_dealloc
    (iter_advance 1 (Radix_getiter (world2 example_ntop))).1
    (iter_advance 1 (Radix_getiter (world2 example_ntop))).2
  = Alive (World (self (world2 example_ntop))
             (heap (iter_advance 1 (Radix_getiter (world2 example_ntop))).2)).
Proof.
  split; [reflexivity|].
  exact (iterator_life_keeps_tree (world2 example_ntop) 1 eq_refl).
Defined.

(** X19: the delete of 10.1.0.0/16 while the caller holds its handle: the
    handle loses a reference and its node, and keeps its fields. *)
Lemma call_keeps_handle_fields_witness :
  heap (world2 example_ntop) !! 1%nat = Some (handle16 example_ntop) ∧
  heap (run_call example_ntop (CallDelete net16)
          (world2 example_ntop, RadixIter [] NULL 0)).1.1 !! 1%nat
    = Some (obj_set_refcnt (obj_set_rn (handle16 example_ntop) None) 1) ∧
  obj_prefix (obj_set_refcnt (obj_set_rn (handle16 example_ntop) None) 1)
    = obj_prefix (handle16 example_ntop) ∧
  user_attr (obj_set_refcnt (obj_set_rn (handle16 example_ntop) None) 1)
    = user_attr (handle16 example_ntop).
Proof.
  split; [reflexivity|]. split; [reflexivity|].
  destruct (call_keeps_handle_fields example_ntop (CallDelete net16)
              (world2 example_ntop, RadixIter [] NULL 0) 1%nat
              (handle16 example_ntop)
              (obj_set_refcnt (obj_set_rn (handle16 example_ntop) None) 1)
              eq_refl eq_refl) as (_ & Hp & _ & _ & _ & Ha).
  exact (conj Hp Ha).
Defined.

(** X20: the listing of the tree with the two prefixes gives the handle of
    10.1.0.0/16 a third reference. *)
Lemma Radix_nodes_references_witness :
  reachable example_ntop (world2 example_ntop) ∧
  heap (Radix_nodes (world2 example_ntop)).2 !! 1%nat
    = Some (obj_set_refcnt (handle16 example_ntop) 3).
Proof.
  split; [apply reachable_world2|].
  exact (proj2 (proj2 (Radix_nodes_references example_ntop
           (world2 example_ntop) 1%nat (reachable_world2 example_ntop)))).
Defined.

(** X21: the handle of 10.1.0.0/16. *)
Lemma handles_have_tree_family_witness :
  reachable example_ntop (world2 example_ntop) ∧
  1%nat ∈ (Radix_nodes (world2 example_ntop)).1 ∧
  ∃ o, heap (world2 example_ntop) !! 1%nat = Some o ∧
       obj_family o = tree_family (self (world2 example_ntop)).
Proof.
  assert (1%nat ∈ (Radix_nodes (world2 example_ntop)).1) as Hin.
  { change (1%nat ∈ [0%nat; 1%nat]).
    apply list_elem_of_further, list_elem_of_here. }
  split; [apply reachable_world2|]. split; [exact Hin|].
  destruct (handles_have_tree_family example_ntop (world2 example_ntop) 1%nat
              (reachable_world2 example_ntop) Hin) as (o & Ho & Hf & _).
  exact (ex_intro _ o (conj Ho Hf)).
Defined.

(** X22: the tree with the two prefixes, after one call. *)
Lemma reachable_iterstack_in_bounds_witness :
  reachable example_ntop (world2 example_ntop) ∧
  (height (head (rt (self (world2 example_ntop)))) ≤ RADIX_MAXBITS + 1)%nat.
Proof.
  split; [apply reachable_world2|].
  exact (proj1 (reachable_iterstack_in_bounds example_ntop
           (world2 example_ntop) 1 (reachable_world2 example_ntop))).
Defined.

(** X23: 10.1.0.0/16 is added to the tree with 10.0.0.0/8. *)
Lemma Radix_nodes_after_change_witness :
  reachable example_ntop (world1 example_ntop) ∧
  prefix_valid net16 = true ∧
  (Radix_add example_ntop (world1 example_ntop) net16).1 = Return 1%nat ∧
  (Radix_nodes (Radix_add example_ntop (world1 example_ntop) net16).2).1
    ≡ₚ 1%nat :: (Radix_nodes (world1 example_ntop)).1.
Proof.
  split; [apply reachable_world1|]. split; [reflexivity|].
  split; [reflexivity|].
  exact (proj1 (Radix_nodes_after_change example_ntop (world1 example_ntop)
           net16 (reachable_world1 example_ntop) eq_refl) 1%nat eq_refl).
Defined.


(** X25: the search for 10.1.0.0/16 in the tree with the two prefixes. *)
Lemma search_exact_returns_query_witness :
  reachable example_ntop (world2 example_ntop) ∧
  prefix_valid net16 = true ∧
  (Radix_search_exact (world2 example_ntop) net16).1 = Some 1%nat ∧
  ∃ o, heap (world2 example_ntop) !! 1%nat = Some o ∧
       obj_prefix o = prefix_ntop example_ntop net16 ∧
       packed o = [10; 1; 0; 0].
Proof.
  split; [apply reachable_world2|]. split; [reflexivity|].
  split; [reflexivity|].
  destruct (search_exact_returns_query example_ntop (world2 example_ntop)
              net16 1%nat (reachable_world2 example_ntop) eq_refl eq_refl)
    as (o & Ho & _ & Hp & _ & _ & Hb).
  exact (ex_intro _ o (conj Ho (conj Hp Hb))).
Defined.

(** X26: 10.1.0.0/16 is added in the text form and searched in the packed
    form. *)
Lemma address_forms_agree_witness :
  reachable example_ntop (world1 example_ntop) ∧
  prefix_valid net16 = true ∧
  (Radix_search_exact_kw example_pton example_from_blob
     (Radix_add_kw example_ntop example_pton example_from_blob
        (world1 example_ntop) (Some "10.1.0.0") None 16).2
     None (Some [10; 1; 0; 0]) 16).1 = Return (Some 1%nat).
Proof.
  split; [apply reachable_world1|]. split; [reflexivity|].
  exact (address_forms_agree example_ntop example_pton example_from_blob
           (world1 example_ntop) net16 1%nat
           (Some "10.1.0.0") None 16 None (Some [10; 1; 0; 0]) 16
           (reachable_world1 example_ntop) eq_refl eq_refl eq_refl eq_refl).
Defined.

(** * The examples of the specification *)

(** With 10.0.0.0/8 and 10.1.0.0/16 in the tree, the best match of 10.1.2.3
    is the /16, and after the /16 is deleted it is the /8. *)
Example search_best_more_specific :
  (Radix_search_best (world2 example_ntop) host).1 = Some 1%nat ∧
  (Radix_search_best (Radix_delete (world2 example_ntop) net16).2 host).1
    = Some 0%nat.
Proof. split; reflexivity. Qed.

(** The prefixes of that tree, and its handles in the order of the walk and
    in the order of the iterator. *)
Example prefixes_of_world2 :
  (Radix_prefixes (world2 example_ntop)).1 = ["10.0.0.0/8"; "10.1.0.0/16"] ∧
  (Radix_nodes (world2 example_ntop)).1 = [0%nat; 1%nat].
Proof. split; reflexivity. Qed.

Example iteration_of_world2 :
  let st0 := newRadixIterObject (world2 example_ntop) in
  let '(r1, it1, w1) := RadixIter_iternext st0.1 st0.2 in
  let '(r2, it2, w2) := RadixIter_iternext it1 w1 in
  let '(r3, it3, w3) := RadixIter_iternext it2 w2 in
  (r1, r2, r3) = (Yield 0%nat, Yield 1%nat, StopIteration).
Proof. reflexivity. Qed.

(** A delete that raises KeyError leaves [gen_id], and the iterator goes
    on. *)
Example failed_delete_keeps_iterator :
  let st0 := newRadixIterObject (world1 example_ntop) in
  (Radix_delete st0.2 other8).1 = Raise KeyError ∧
  (RadixIter_iternext st0.1 (Radix_delete st0.2 other8).2).1.1 = Yield 0%nat.
Proof. split; reflexivity. Qed.
